(** * Ferro: hysteresis analysis of ferroelectric thin films

    A shallow embedding of the numerical core of [ferro/HysteresisData.py]
    and [ferro/LandauFilm.py]: leakage and capacitance compensation,
    capacitance extraction, FORC span extraction and normalisation, domain
    generation and the Preisach sweep, the energy landscape of the domains
    and the capacitance curve of [ncv_plot].

    Numbers.  numpy's float64 values are idealised as rationals [Q]: the
    arithmetic is exact, and comparisons are the ones of the code.  A run in
    which numpy's arithmetic leaves the finite floats (a division by zero, the
    mean of an empty array) ends in the outcome [NonFinite]; numpy itself
    goes on with inf or nan there, and this development says nothing more
    about such a run. *)

From Stdlib Require Import String ZArith QArith Qabs Qminmax Arith Lia Lqa Bool List.
Import ListNotations.

Open Scope Q_scope.

(** ** Python outcomes *)

Module Py.

Inductive exn : Type :=
| ValueError (msg : string)
| IndexError (msg : string)
| TypeError (msg : string)
| ZeroDivisionError (msg : string).

Inductive result (A : Type) : Type :=
| Ok (a : A)
| Raise (e : exn)
| NonFinite.

Arguments Ok {A} a.
Arguments Raise {A} e.
Arguments NonFinite {A}.

Definition bind {A B : Type} (m : result A) (k : A -> result B) : result B :=
  match m with
  | Ok a => k a
  | Raise e => Raise e
  | NonFinite => NonFinite
  end.

(** [seq[i]] on a Python list or numpy array, for [0 <= i]. *)
Definition get_item {A : Type} (a : list A) (i : nat) : result A :=
  match nth_error a i with
  | Some x => Ok x
  | None => Raise (IndexError "index out of range")
  end.

(** The array [a] with [v] at the index [i]. *)
Definition update {A : Type} (a : list A) (i : nat) (v : A) : list A :=
  firstn i a ++ v :: skipn (S i) a.

(** [a[i] = v]: in-place store, out of range raises. *)
Definition set_item {A : Type} (a : list A) (i : nat) (v : A) : result (list A) :=
  if (i <? length a)%nat
  then Ok (update a i v)
  else Raise (IndexError "index out of range").

(** [a[lo:hi]] for non-negative bounds: clipped, never raises. *)
Definition slice {A : Type} (a : list A) (lo hi : nat) : list A :=
  firstn (hi - lo) (skipn lo a).

(** The value of a comparison: a Python bool, or numpy's element-wise
    array of bools. *)
Inductive cmp : Type :=
| PyBool (b : bool)
| BoolArray (bs : list bool).

(** [if c:] on such a value.  An array of one element has the truth value
    of the element, an empty one is false (numpy 1.x), and any longer one
    is refused. *)
Definition truth (c : cmp) : result bool :=
  match c with
  | PyBool b => Ok b
  | BoolArray [] => Ok false
  | BoolArray [b] => Ok b
  | BoolArray (_ :: _ :: _) =>
      Raise (ValueError "The truth value of an array with more than one element is ambiguous. Use a.any() or a.all()")
  end.

Inductive warning : Type :=
| RuntimeWarning (msg : string)
| RankWarning (msg : string).

(** *** Objects and warnings

    Samples are Python objects: a method receives a reference, and
    [copy.deepcopy] allocates a new one.  The world holds the objects and
    the warnings issued so far. *)
Section Store.
Variable Obj : Type.

Definition ref : Type := nat.

Record world : Type := mkWorld {
  heap : list Obj;
  warnings : list warning
}.

Definition M (A : Type) : Type := world -> result A * world.

Definition ret {A : Type} (a : A) : M A := fun w => (Ok a, w).

Definition bindM {A B : Type} (m : M A) (k : A -> M B) : M B :=
  fun w =>
    match m w with
    | (Ok a, w') => k a w'
    | (Raise e, w') => (Raise e, w')
    | (NonFinite, w') => (NonFinite, w')
    end.

Definition lift {A : Type} (r : result A) : M A := fun w => (r, w).

Definition warn (x : warning) : M unit :=
  fun w => (Ok tt, mkWorld (heap w) (warnings w ++ [x])).

Definition deref (r : ref) : M Obj :=
  fun w => (get_item (heap w) r, w).

Definition alloc (o : Obj) : M ref :=
  fun w => (Ok (length (heap w)), mkWorld (heap w ++ [o]) (warnings w)).

Definition deepcopy (r : ref) : M ref :=
  bindM (deref r) alloc.

(** An attribute store [r.attr = v], as a function on the object. *)
Definition modify (r : ref) (f : Obj -> Obj) : M unit :=
  fun w =>
    match nth_error (heap w) r with
    | Some o => (Ok tt, mkWorld (update (heap w) r (f o)) (warnings w))
    | None => (Raise (IndexError "index out of range"), w)
    end.
End Store.

Arguments heap {Obj} w.
Arguments warnings {Obj} w.
Arguments mkWorld {Obj} heap warnings.
Arguments ret {Obj A} a.
Arguments bindM {Obj A B} m k.
Arguments lift {Obj A} r.
Arguments warn {Obj} x.
Arguments deref {Obj} r.
Arguments alloc {Obj} o.
Arguments deepcopy {Obj} r.
Arguments modify {Obj} r f.

End Py.

Import Py.

Notation "x <- m ;; k" := (Py.bind m (fun x => k))
  (at level 61, m at next level, right associativity).
Notation "' pat <- m ;; k" := (Py.bind m (fun x => match x with pat => k end))
  (at level 61, pat pattern, m at next level, right associativity).
Notation "x <~ m ;; k" := (Py.bindM m (fun x => k))
  (at level 61, m at next level, right associativity).
Notation "' pat <~ m ;; k" := (Py.bindM m (fun x => match x with pat => k end))
  (at level 61, pat pattern, m at next level, right associativity).
Notation "m ;;; k" := (Py.bindM m (fun _ => k))
  (at level 61, right associativity).

(** ** numpy over the rationals *)

Module Np.

Definition Qltb (x y : Q) : bool := negb (Qle_bool y x).

Definition sign (x : Q) : Q :=
  if Qltb 0 x then 1 else if Qltb x 0 then -1 else 0.

Definition sum (a : list Q) : Q := fold_right Qplus 0 a.

Definition of_nat (n : nat) : Q := inject_Z (Z.of_nat n).

(** [np.mean]: the mean of an empty array is nan. *)
Definition mean (a : list Q) : result Q :=
  match a with
  | [] => NonFinite
  | _ => Ok (sum a / of_nat (length a))
  end.

(** [np.diff]. *)
Fixpoint diff (a : list Q) : list Q :=
  match a with
  | x :: (y :: _) as t => (y - x) :: diff t
  | _ => []
  end.

(** [a / d] for an array [a] and a scalar [d]: a zero divisor puts inf or
    nan in every cell. *)
Definition div_scalar (a : list Q) (d : Q) : result (list Q) :=
  match a with
  | [] => Ok []
  | _ => if Qeq_bool d 0 then NonFinite else Ok (map (fun x => x / d) a)
  end.

(** [np.gradient] of a one-dimensional array with unit spacing:
    one-sided differences at both ends, central differences inside. *)
Definition gradient_at (f : list Q) (j : nat) : Q :=
  let n := length f in
  if (j =? 0)%nat then nth 1 f 0 - nth 0 f 0
  else if (j =? n - 1)%nat then nth (n - 1) f 0 - nth (n - 2) f 0
  else (nth (j + 1) f 0 - nth (j - 1) f 0) / 2.

Definition gradient (f : list Q) : result (list Q) :=
  if (length f <? 2)%nat
  then Raise (ValueError "Shape of array too small to calculate a numerical gradient, at least (edge_order + 1) elements are required.")
  else Ok (map (gradient_at f) (seq 0 (length f))).

(** Python's [max] and [min] on a sequence. *)
Definition max_of (a : list Q) : result Q :=
  match a with
  | [] => Raise (ValueError "max() arg is an empty sequence")
  | x :: t => Ok (fold_left (fun m y => if Qltb m y then y else m) t x)
  end.

Definition min_of (a : list Q) : result Q :=
  match a with
  | [] => Raise (ValueError "min() arg is an empty sequence")
  | x :: t => Ok (fold_left (fun m y => if Qltb y m then y else m) t x)
  end.

End Np.

(** ** More of numpy: sorting, fitting, sampling *)

Module NpLib.
Import Np.

(** [np.sort]. *)
Fixpoint insert (x : Q) (l : list Q) : list Q :=
  match l with
  | [] => [x]
  | y :: t => if Qle_bool x y then x :: l else y :: insert x t
  end.

Definition sort (a : list Q) : list Q := fold_right insert [] a.

(** [np.unique] of a sorted array. *)
Fixpoint unique (a : list Q) : list Q :=
  match a with
  | x :: (y :: _) as t => if Qeq_bool x y then unique t else x :: unique t
  | _ => a
  end.


(** [np.linspace(start, stop, num)]. *)
Definition linspace (start stop : Q) (num : nat) : list Q :=
  match num with
  | O => []
  | S O => [start]
  | _ => let step := (stop - start) / of_nat (num - 1) in
         map (fun i => start + of_nat i * step) (seq 0 num)
  end.

(** [arr.min()] and [arr.max()] of a numpy array. *)
Definition amin (a : list Q) : result Q :=
  match a with
  | [] => Raise (ValueError "zero-size array to reduction operation minimum which has no identity")
  | _ => min_of a
  end.

Definition amax (a : list Q) : result Q :=
  match a with
  | [] => Raise (ValueError "zero-size array to reduction operation maximum which has no identity")
  | _ => max_of a
  end.



(** [np.cumsum]. *)
Fixpoint cumsum_from (acc : Q) (a : list Q) : list Q :=
  match a with
  | [] => []
  | x :: t => (acc + x) :: cumsum_from (acc + x) t
  end.

Definition cumsum (a : list Q) : list Q := cumsum_from 0 a.

(** [cdf.searchsorted(u, side='right')]: the first index whose entry
    exceeds [u]. *)
Fixpoint searchsorted_right (cdf : list Q) (u : Q) : nat :=
  match cdf with
  | [] => O
  | x :: t => if Qle_bool x u then S (searchsorted_right t u) else O
  end.

(** [np.random.choice(a, p=p)] for one draw, given the uniform sample
    [u] of [random_sample()], which lies in [0, 1): numpy checks [p], forms
    the cumulative distribution and inverts it at [u]. *)
Definition choice (a p : list Q) (u : Q) : result Q :=
  match a with
  | [] => Raise (ValueError "'a' cannot be empty unless no samples are taken")
  | _ =>
      if negb (length a =? length p)%nat
      then Raise (ValueError "'a' and 'p' must have same size")
      else if existsb (fun x => Qltb x 0) p
      then Raise (ValueError "probabilities are not non-negative")
      else if negb (Qeq_bool (sum p) 1)
      then Raise (ValueError "probabilities do not sum to 1")
      else
        let cdf := cumsum p in
        let cdf := map (fun x => x / last cdf 0) cdf in
        get_item a (searchsorted_right cdf u)
  end.

(** [int(x)] for a float: truncation towards zero. *)
Definition int (x : Q) : Z := Z.quot (Qnum x) (Zpos (Qden x)).

End NpLib.

(** ** Masked two-dimensional arrays ([numpy.ma]) *)

Module Ma.

(** A list of rows; [None] is a masked cell. *)
Definition marray : Type := list (list (option Q)).
Definition ndarray : Type := list (list Q).

(** [arr.shape[1]]. *)
Definition shape1 {A : Type} (g : list (list A)) : nat :=
  match g with
  | [] => O
  | r :: _ => length r
  end.

Definition filled (g : marray) (v : Q) : ndarray :=
  map (map (fun c => match c with Some x => x | None => v end)) g.

Definition getmask (g : marray) : list (list bool) :=
  map (map (fun c => match c with Some _ => false | None => true end)) g.

Fixpoint mask_row (m : list bool) (r : list Q) : result (list (option Q)) :=
  match m, r with
  | [], [] => Ok []
  | b :: m', x :: r' =>
      t <- mask_row m' r' ;;
      Ok ((if b then None else Some x) :: t)
  | _, _ => Raise (IndexError "Inconsistent shape between the condition and the input")
  end.

(** [np.ma.masked_where(mask, a)]. *)
Fixpoint masked_where (mask : list (list bool)) (a : ndarray) : result marray :=
  match mask, a with
  | [], [] => Ok []
  | m :: mask', r :: a' =>
      r' <- mask_row m r ;;
      t <- masked_where mask' a' ;;
      Ok (r' :: t)
  | _, _ => Raise (IndexError "Inconsistent shape between the condition and the input")
  end.

Definition abs (g : marray) : marray := map (map (option_map Qabs)) g.

(** The unmasked values, row by row. *)
Definition compressed (g : marray) : list Q :=
  flat_map (fun r => flat_map (fun c => match c with Some x => [x] | None => [] end) r) g.

(** [np.sum] of a masked array: the sum of the unmasked cells. *)
Definition sum (g : marray) : Q := Np.sum (compressed g).

(** [g / s] for a masked array and a scalar: [numpy.ma] masks every cell
    where the division is not safe, so a zero divisor masks them all. *)
Definition true_divide (g : marray) (s : Q) : marray :=
  map (map (fun c => match c with
                     | Some x => if Qeq_bool s 0 then None else Some (x / s)
                     | None => None
                     end)) g.

End Ma.

(** ** Element-wise arithmetic of one-dimensional arrays *)

Module Arr.

(** The shapes [(n,)] and [(m,)] broadcast when they are equal or when one
    of them is [(1,)]; the result pairs the operands cell by cell. *)
Definition broadcast (u v : list Q) : result (list (Q * Q)) :=
  if (length u =? length v)%nat then Ok (combine u v)
  else match u, v with
       | [x], _ => Ok (map (fun y => (x, y)) v)
       | _, [y] => Ok (map (fun x => (x, y)) u)
       | _, _ => Raise (ValueError "operands could not be broadcast together")
       end.

(** [u + v]. *)
Definition add (u v : list Q) : result (list Q) :=
  uv <- broadcast u v ;;
  Ok (map (fun p => fst p + snd p) uv).

(** [u / v]: a zero divisor leaves inf or nan in its cell. *)
Definition divide (u v : list Q) : result (list Q) :=
  uv <- broadcast u v ;;
  if existsb (fun p => Qeq_bool (snd p) 0) uv then NonFinite
  else Ok (map (fun p => fst p / snd p) uv).

End Arr.

(** ** HysteresisData.py *)

Module HysteresisData.

Definition leakage_func (x a b c d e f g : Q) : Q :=
  a * (x - g) ^ 5 + b * (x - g) ^ 4 + c * (x - g) ^ 3 + d * (x - g) ^ 2
  + e * (x - g) + f.

(** The attributes of a sample that the numerical core reads. *)
Record HysteresisData : Type := mkHyst {
  thickness : Q;
  area : Q;
  temp : Q;
  freq : Q;
  dt : Q;
  time : list Q;
  voltage : list Q;
  current : list Q;
  polarization : list Q
}.

(** [lcmParms] is the empty list until [lcm_fit] has stored the seven
    parameters of the fit. *)
Record LeakageData : Type := mkLeak {
  lcmVoltage : list Q;
  lcmCurrent : list Q;
  lcmParms : list Q
}.

Definition set_current (v : list Q) (d : HysteresisData) : HysteresisData :=
  mkHyst (thickness d) (area d) (temp d) (freq d) (dt d) (time d) (voltage d)
         v (polarization d).

Definition set_polarization (v : list Q) (d : HysteresisData) : HysteresisData :=
  mkHyst (thickness d) (area d) (temp d) (freq d) (dt d) (time d) (voltage d)
         (current d) v.

(** [leakage_func(x, *parms)]: the call needs the seven parameters. *)
Definition call_leakage_func (x : Q) (parms : list Q) : result Q :=
  match parms with
  | [a; b; c; d; e; f; g] => Ok (leakage_func x a b c d e f g)
  | _ => Raise (TypeError "leakage_func() takes 8 positional arguments")
  end.

(** [for j, i in enumerate(compData.current):
       compData.current[j] = i - leakage_func(self.voltage[j], *parms)]. *)
Fixpoint subtract_leakage (voltage parms : list Q) (j : nat) (current : list Q)
  : result (list Q) :=
  match current with
  | [] => Ok []
  | i :: rest =>
      v <- get_item voltage j ;;
      ilkg <- call_leakage_func v parms ;;
      rest' <- subtract_leakage voltage parms (S j) rest ;;
      Ok ((i - ilkg) :: rest')
  end.

(** [current - np.mean(current)]; the nan mean of an empty array is
    subtracted from no element. *)
Definition subtract_mean (current : list Q) : result (list Q) :=
  match current with
  | [] => Ok []
  | _ => m <- Np.mean current ;; Ok (map (fun i => i - m) current)
  end.

(** [testpol[i] = testpol[i - 1] + current[i] * dt / area] for [i >= 1],
    from [testpol = np.zeros(len(current))]. *)
Fixpoint cumulate (prev : Q) (current : list Q) (dt area : Q) : list Q :=
  match current with
  | [] => []
  | i :: rest => let v := prev + i * dt / area in v :: cumulate v rest dt area
  end.

Definition integrate (current : list Q) (dt area : Q) : result (list Q) :=
  match current with
  | [] => Ok []
  | _ :: [] => Ok [0]
  | _ :: rest => if Qeq_bool area 0 then NonFinite
                 else Ok (0 :: cumulate 0 rest dt area)
  end.

Definition leakage_compensation (self : ref) (leakageData : LeakageData)
  : M HysteresisData ref :=
  let ld := leakageData in
  match lcmParms ld with
  | [] =>
      warn (RuntimeWarning "Please run lcm_fit on the Leakage Data before attempting compensation.") ;;;
      ret self
  | parms =>
      compData <~ deepcopy self ;;
      me <~ deref self ;;
      cd <~ deref compData ;;
      current1 <~ lift (subtract_leakage (voltage me) parms 0 (current cd)) ;;
      current2 <~ lift (subtract_mean current1) ;;
      modify compData (set_current current2) ;;;
      testpol <~ lift (integrate current2 (dt me) (area me)) ;;
      mx <~ lift (Np.max_of testpol) ;;
      mn <~ lift (Np.min_of testpol) ;;
      let offset := mx - (mx - mn) / 2 in
      modify compData (set_polarization (map (fun p => p - offset) testpol)) ;;;
      ret compData
  end.

(** *** forc_calc *)

(** The scan for reversal points: the first sample is skipped and the
    scan stops at the last but one. *)
Fixpoint extrema_loop (voltage : list Q) (i : nat) (todo : list Q)
         (minimaIndex maximaIndex : list nat) : result (list nat * list nat) :=
  match todo with
  | [] => Ok (minimaIndex, maximaIndex)
  | v :: todo' =>
      if (i =? 0)%nat then
        extrema_loop voltage (S i) todo' minimaIndex maximaIndex
      else if (i =? length voltage - 2)%nat then
        Ok (minimaIndex, maximaIndex)
      else
        before <- get_item voltage (i - 1) ;;
        after <- get_item voltage (i + 1) ;;
        let minimaIndex' :=
          if Np.Qltb v before && Np.Qltb v after
          then minimaIndex ++ [i] else minimaIndex in
        let maximaIndex' :=
          if Np.Qltb before v && Np.Qltb after v
          then maximaIndex ++ [i] else maximaIndex in
        extrema_loop voltage (S i) todo' minimaIndex' maximaIndex'
  end.

Definition find_extrema (voltage : list Q) : result (list nat * list nat) :=
  extrema_loop voltage 0 voltage [] [].

(** One reversal curve: what the three [extend] calls add for the
    minimum at index [v], the [i]-th one. *)
Record span : Type := mkSpan {
  s_vr : list Q;
  s_v : list Q;
  s_p : list Q
}.

Fixpoint span_loop (voltage polarization : list Q) (maximaIndex : list nat)
         (i : nat) (minimaIndex : list nat) : result (list span) :=
  match minimaIndex with
  | [] => Ok []
  | v :: rest =>
      vr <- get_item voltage (v - 1) ;;
      m <- get_item maximaIndex (i + 1) ;;
      spans <- span_loop voltage polarization maximaIndex (S i) rest ;;
      Ok (mkSpan (repeat vr (m - v)) (slice voltage v m) (slice polarization v m)
            :: spans)
  end.

Definition forc_spans (voltage polarization : list Q) : result (list span) :=
  '(minimaIndex, maximaIndex) <- find_extrema voltage ;;
  if (length minimaIndex <? 2)%nat
  then Raise (ValueError "Could not find two minima for FORC calculation. Aborting.")
  else span_loop voltage polarization maximaIndex 0 minimaIndex.

(** [prob = abs(dEdEr) / np.sum(abs(dEdEr))]. *)
Definition normalize (dEdEr : Ma.marray) : Ma.marray :=
  Ma.true_divide (Ma.abs dEdEr) (Ma.sum (Ma.abs dEdEr)).

Section Forc.

(** The gridding and filtering routines of matplotlib, numpy and scipy:
    [plt.mlab.griddata(x, y, z, xi, yi, interp)], [np.gradient] of a
    two-dimensional masked array with two spacings, and
    [scipy.ndimage.uniform_filter]. *)
Variable griddata :
  list Q -> list Q -> list Q -> list Q -> list Q -> bool -> result Ma.marray.
Variable gradient2 : Ma.marray -> Q -> Q -> result (Ma.marray * Ma.marray).
Variable uniform_filter : Ma.ndarray -> nat * nat -> result Ma.ndarray.

Fixpoint filter_iter (n : nat) (filtDim : nat * nat) (a : Ma.ndarray)
  : result Ma.ndarray :=
  match n with
  | O => Ok a
  | S n' => a' <- uniform_filter a filtDim ;; filter_iter n' filtDim a'
  end.

Definition forc_calc (self : HysteresisData) (linear : bool)
           (filtIter : option nat) (filtDim : nat * nat)
  : result (list Q * list Q * Ma.marray) :=
  spans <- forc_spans (voltage self) (polarization self) ;;
  let vrFORC := flat_map s_vr spans in
  let vFORC := flat_map s_v spans in
  let pFORC := flat_map s_p spans in
  eFORC <- Np.div_scalar vFORC (thickness self) ;;
  erFORC <- Np.div_scalar vrFORC (thickness self) ;;
  emin <- NpLib.amin eFORC ;;
  emax <- NpLib.amax eFORC ;;
  let uniformE := NpLib.linspace emin emax 200 in
  let uniformEr := NpLib.unique (NpLib.sort erFORC) in
  vmin <- NpLib.amin vFORC ;;
  vmax <- NpLib.amax vFORC ;;
  let uniformV := NpLib.linspace vmin vmax 200 in
  let uniformVr := NpLib.unique (NpLib.sort vrFORC) in
  grid <- griddata eFORC erFORC pFORC uniformE uniformEr linear ;;
  vr1 <- get_item uniformVr 1 ;;
  vr0 <- get_item uniformVr 0 ;;
  v1 <- get_item uniformV 1 ;;
  v0 <- get_item uniformV 0 ;;
  '(dE, dEr) <- gradient2 grid (vr1 - vr0) (v1 - v0) ;;
  '(dEdE, dEdEr) <- gradient2 dE (vr1 - vr0) (v1 - v0) ;;
  dEdEr' <-
    match filtIter with
    | None => Ok dEdEr
    | Some n =>
        let mask := Ma.getmask dEdEr in
        a <- filter_iter n filtDim (Ma.filled dEdEr 0) ;;
        Ma.masked_where mask a
    end ;;
  let prob := normalize dEdEr' in
  Ok (uniformE, uniformEr, prob).

End Forc.

(** *** ncv_plot

    The curve that [ncv_plot] hands to [ax1.plot], abscissas and ordinates:
    [np.diff(polarization) / np.diff(voltage)] over the midpoints
    [0.5 * (voltage[1:] + voltage[:-1])], in the units of the plot. *)
Definition ncv_plot (self : HysteresisData) (plotE : bool)
  : result (list Q * list Q) :=
  ncv <- Arr.divide (Np.diff (polarization self)) (Np.diff (voltage self)) ;;
  s <- Arr.add (tl (voltage self)) (removelast (voltage self)) ;;
  let ncv_v := map (fun x => (1 # 2) * x) s in
  if plotE then
    x <- Np.div_scalar (map (fun x => (1 # 1000000) * x) ncv_v) (thickness self) ;;
    Ok (x, map (fun y => 1000000 * y) ncv)
  else Ok (ncv_v, map (fun y => 1000000 * y) ncv).

End HysteresisData.

(** ** LandauFilm.py *)

Module LandauFilm.

Record LandauFilm : Type := mkFilm {
  thickness : Q;
  area : Q;
  c : Q;
  pr : Q
}.

(** [LandauDomain.__init__(self, landau, area, ec, ebias, aTerm, b, g)]. *)
Record LandauDomain : Type := mkDomain {
  d_pr : Q;
  d_t : Q;
  d_c : Q;
  d_ec : Q;
  d_ebias : Q;
  d_a : Q;
  d_b : Q;
  d_g : Q;
  d_area : Q
}.

Definition LandauDomain_init (landau : LandauFilm) (area ec ebias : Q) : LandauDomain :=
  {| d_pr := pr landau; d_t := thickness landau; d_c := c landau;
     d_ec := ec; d_ebias := ebias; d_a := 0; d_b := 0; d_g := 0;
     d_area := area |}.

(** *** calcEfePreisach *)

(** The [initState] argument: [None] or a numpy array. *)
Inductive init_state : Type :=
| PyNone
| PyArray (a : list Q).

(** [initState == None]: true on None, element-wise on an array. *)
Definition eq_None (v : init_state) : cmp :=
  match v with
  | PyNone => PyBool true
  | PyArray a => BoolArray (map (fun _ => false) a)
  end.

(** The body of [for i, d in enumerate(domains)] at step [j]: [dir] is
    [sweepDir[j]], [e] the field, [pj] the running value of [p[j]]. *)
Fixpoint domain_loop (dir e : Q) (i : nat) (domains : list LandauDomain)
         (state : list Q) (pj : Q) : result (list Q * Q) :=
  match domains with
  | [] => Ok (state, pj)
  | d :: rest =>
      state1 <-
        (if Np.Qltb 0 dir then
           if Qle_bool (d_ec d + d_ebias d) e then set_item state i 1
           else Ok state
         else if Np.Qltb dir 0 then
           if Qle_bool e (- d_ec d + d_ebias d) then set_item state i (-1)
           else Ok state
         else Ok state) ;;
      s <- get_item state1 i ;;
      domain_loop dir e (S i) rest state1 (pj + d_pr d * d_area d * s)
  end.

(** [for j, e in enumerate(esweep)], over the pairs [(e, sweepDir[j])]. *)
Fixpoint sweep_loop (steps : list (Q * Q)) (domains : list LandauDomain)
         (state : list Q) : result (list Q * list Q) :=
  match steps with
  | [] => Ok ([], state)
  | (e, dir) :: rest =>
      '(state1, pj) <- domain_loop dir e 0 domains state 0 ;;
      '(p, state2) <- sweep_loop rest domains state1 ;;
      Ok (pj :: p, state2)
  end.

(** [if initState == None: state = -np.ones(len(domains))
    else: state = initState]. *)
Definition initial_state (domains : list LandauDomain) (initState : init_state)
  : result (list Q) :=
  is_none <- truth (eq_None initState) ;;
  Ok (if is_none : bool then map (fun _ => -1) domains
      else match initState with
           | PyArray a => a
           | PyNone => []
           end).

Definition calcEfePreisach (self : LandauFilm) (esweep : list Q)
           (domains : list LandauDomain) (initState : init_state)
  : result (list Q * list Q) :=
  state <- initial_state domains initState ;;
  sweepDir <- Np.gradient esweep ;;
  '(p, state') <- sweep_loop (combine esweep sweepDir) domains state ;;
  p' <- Np.div_scalar p (area self) ;;
  Ok (p', state').

(** *** cCalc

    The samples [hystData] are the ones the loader has read from [files];
    reading them belongs to the file layer.  The relative permittivity [er]
    that the method derives from the slope only labels the plot. *)




(** *** cCompensation *)

(** The body of [for j, i in enumerate(data.current)]. *)
Definition compensate (icap i : Q) : Q :=
  if Qle_bool icap (Qabs i) then i - Np.sign i * icap else 0.

Definition cCompensation (self : LandauFilm) (data : ref)
  : M HysteresisData.HysteresisData (ref * Q) :=
  compData <~ deepcopy data ;;
  d <~ deref data ;;
  q <~ lift (Np.div_scalar (Np.diff (HysteresisData.voltage d)) (HysteresisData.dt d)) ;;
  dvdt <~ lift (Np.mean (map Qabs q)) ;;
  let icap := c self * dvdt in
  let current' := map (compensate icap) (HysteresisData.current d) in
  modify compData (HysteresisData.set_current current') ;;;
  cd <~ deref compData ;;
  testpol <~ lift (HysteresisData.integrate (HysteresisData.current cd)
                     (HysteresisData.dt cd) (HysteresisData.area cd)) ;;
  mx <~ lift (Np.max_of testpol) ;;
  mn <~ lift (Np.min_of testpol) ;;
  let pr := (mx - mn) / 2 in
  let offset := mx - (mx - mn) / 2 in
  modify compData (HysteresisData.set_polarization (map (fun p => p - offset) testpol)) ;;;
  ret (compData, pr).

(** *** domainGen *)

(** [index]: the floats 0, 1, ..., one per cell of the flattened grid. *)
Definition index_array (n : nat) : list Q := map Np.of_nat (seq 0 n).

(** One turn of [for i in range(n)], with the uniform sample [u] behind
    the draw; the result is the row of [domains] and the new domain. *)
Definition domainGen_draw (self : LandauFilm) (e er : list Q) (prob : Ma.ndarray)
           (index probf : list Q) (n : nat) (u : Q)
  : result (list Q * LandauDomain) :=
  x <- NpLib.choice index probf u ;;
  let j := Z.to_nat (NpLib.int x) in
  let ncols := Ma.shape1 prob in
  if (ncols =? 0)%nat
  then Raise (ZeroDivisionError "integer division or modulo by zero")
  else
    egrain <- get_item e (j mod ncols) ;;
    ergrain <- get_item er (j / ncols) ;;
    let ec := (egrain - ergrain) / 2 in
    let ebias := (egrain + ergrain) / 2 in
    Ok ([egrain; ergrain; ec; ebias],
        LandauDomain_init self (area self / Np.of_nat n) ec ebias).

(** [for i in range(n)], from turn [i] with [todo] turns to go. *)
Fixpoint domainGen_loop (self : LandauFilm) (e er : list Q) (prob : Ma.ndarray)
         (index probf : list Q) (n : nat) (rand : nat -> Q) (i todo : nat)
  : result (list LandauDomain * list (list Q)) :=
  match todo with
  | O => Ok ([], [])
  | S todo' =>
      '(row, genDomain) <- domainGen_draw self e er prob index probf n (rand i) ;;
      '(domainList, domains) <-
        domainGen_loop self e er prob index probf n rand (S i) todo' ;;
      Ok (genDomain :: domainList, row :: domains)
  end.

(** [rand i] is the uniform sample that the random source hands to the
    [i]-th draw. *)
Definition domainGen (self : LandauFilm) (e er : list Q) (prob : Ma.marray)
           (n : nat) (rand : nat -> Q)
  : result (list LandauDomain * list (list Q)) :=
  let prob := Ma.filled prob 0 in
  let probf := concat prob in
  let index := index_array (length probf) in
  domainGen_loop self e er prob index probf n rand 0 n.

(** *** getUfe, getEfe: the energy landscape *)

(** [LandauDomain.getUfe(self, pvals)] and [LandauDomain.getEfe(self, pvals)]
    on an array [pvals]. *)
Definition LandauDomain_getUfe (self : LandauDomain) (pvals : list Q) : list Q :=
  map (fun p => d_a self * p ^ 2 + d_b self * p ^ 4 + d_g self * p ^ 6
                - d_ebias self * p) pvals.

Definition LandauDomain_getEfe (self : LandauDomain) (pvals : list Q) : list Q :=
  map (fun p => 2 * d_a self * p + 4 * d_b self * p ^ 3 + 6 * d_g self * p ^ 5
                - d_ebias self) pvals.

(** [for i in domains: u = u + i.getUfe(pvals)]. *)
Fixpoint getUfe_loop (pvals : list Q) (domains : list LandauDomain) (u : list Q)
  : result (list Q) :=
  match domains with
  | [] => Ok u
  | i :: rest =>
      u' <- Arr.add u (LandauDomain_getUfe i pvals) ;;
      getUfe_loop pvals rest u'
  end.

(** [LandauFilm.getUfe(self, pvals, domains)]. *)
Definition getUfe (self : LandauFilm) (pvals : list Q) (domains : list LandauDomain)
  : result (list Q) :=
  getUfe_loop pvals domains (map (fun _ => 0) pvals).

(** *** LandauSimple.aCalc

    [a = -1/(4*c*t)] on Python numbers, as the constructor's defaults are: a
    zero divisor raises.  (With a numpy scalar for [c] the quotient would be
    an infinity instead.) *)
Definition LandauSimple_aCalc (self : LandauFilm) (c t : option Q) : result Q :=
  let c := match c with None => LandauFilm.c self | Some c => c end in
  let t := match t with None => thickness self | Some t => t end in
  if Qeq_bool (4 * c * t) 0
  then Raise (ZeroDivisionError "float division by zero")
  else Ok (-1 / (4 * c * t)).

End LandauFilm.

Import LandauFilm.

(** ** Stand-ins for the external routines

    [forc_calc] leaves gridding, differentiation and filtering to
    matplotlib, numpy and scipy, and the properties below hold for any such
    routines.  To run [forc_calc] on a concrete record, this module gives
    simple ones, with results in lowest terms: gridding by the nearest
    sample, differences as [np.gradient] takes them with a mask that spreads
    to every cell computed from a masked one, and the filter of the unit
    footprint, which changes nothing. *)

Module Reference.

Definition dist2 (x y : Q) (s : Q * Q * Q) : Q :=
  let '(sx, sy, _) := s in (x - sx) * (x - sx) + (y - sy) * (y - sy).

Fixpoint nearest (x y : Q) (best : Q * Q * Q) (rest : list (Q * Q * Q)) : Q :=
  match rest with
  | [] => snd best
  | s :: t =>
      if Np.Qltb (dist2 x y s) (dist2 x y best)
      then nearest x y s t else nearest x y best t
  end.

Definition griddata (x y z xi yi : list Q) (linear : bool) : result Ma.marray :=
  match combine (combine x y) z with
  | [] => Raise (ValueError "griddata needs data")
  | s :: t => Ok (map (fun yv => map (fun xv => Some (nearest xv yv s t)) xi) yi)
  end.

Definition osub (a b : option Q) : option Q :=
  match a, b with
  | Some x, Some y => Some (x - y)
  | _, _ => None
  end.

Definition gradient1 (f : list (option Q)) (h : Q) : list (option Q) :=
  let n := length f in
  map (fun j =>
         if (j =? 0)%nat
         then option_map (fun d => Qred (d / h)) (osub (nth 1 f None) (nth 0 f None))
         else if (j =? n - 1)%nat
         then option_map (fun d => Qred (d / h))
                (osub (nth (n - 1) f None) (nth (n - 2) f None))
         else option_map (fun d => Qred (d / (2 * h)))
                (osub (nth (j + 1) f None) (nth (j - 1) f None)))
      (seq 0 n).

Definition transpose (g : Ma.marray) : Ma.marray :=
  map (fun j => map (fun r => nth j r None) g) (seq 0 (Ma.shape1 g)).

Definition gradient2 (g : Ma.marray) (dy dx : Q) : result (Ma.marray * Ma.marray) :=
  if ((length g <? 2) || (Ma.shape1 g <? 2))%nat
  then Raise (ValueError "Shape of array too small to calculate a numerical gradient, at least (edge_order + 1) elements are required.")
  else if Qeq_bool dy 0 || Qeq_bool dx 0 then NonFinite
  else Ok (transpose (map (fun col => gradient1 col dy) (transpose g)),
           map (fun r => gradient1 r dx) g).

Definition uniform_filter (a : Ma.ndarray) (size : nat * nat) : result Ma.ndarray :=
  match size with
  | (1%nat, 1%nat) => Ok a
  | _ => Raise (ValueError "only the unit footprint is given here")
  end.

End Reference.

(** ** The vocabulary of the properties

    Names for the exceptions and warnings of the code, the rules of the
    specification in its own words, and the records the properties are run
    on. *)

Definition ambiguous_truth : exn :=
  ValueError "The truth value of an array with more than one element is ambiguous. Use a.any() or a.all()".

Definition unfit_warning : warning :=
  RuntimeWarning "Please run lcm_fit on the Leakage Data before attempting compensation.".

Definition index_error : exn := IndexError "index out of range".

(** The minima of the scan are strict: the sample is below the one before
    it. *)
Definition below_previous (voltage : list Q) (v : nat) : Prop :=
  exists before atmin,
    (1 <= v)%nat
    /\ nth_error voltage (v - 1) = Some before
    /\ nth_error voltage v = Some atmin
    /\ atmin < before.

(** The rule of one sample, as the specification words it. *)
Definition floor_rule (icap i o : Q) : Prop :=
  (icap <= Qabs i -> o = i - Np.sign i * icap)
  /\ (Qabs i < icap -> o = 0)
  /\ (~ o == 0 -> Np.sign o = Np.sign i).

Definition floor_magnitude (icap i o : Q) : Prop :=
  Qabs o == Qmax 0 (Qabs i - icap).

Definition three_point_sample : HysteresisData.HysteresisData :=
  HysteresisData.mkHyst 1 1 300 100 1 [0; 1; 2] [0; 1; 2] [3; 5; 10] [0; 0; 0].

(** A leakage model with the parameters of the line [f(x) = x]. *)
Definition linear_leakage : HysteresisData.LeakageData :=
  HysteresisData.mkLeak [0; 1] [0; 2] [0; 0; 0; 0; 1; 0; 0].

Definition sample_with_zero : HysteresisData.HysteresisData :=
  HysteresisData.mkHyst 1 1 300 100 1 [0; 1; 2] [0; 1; 2] [0; 3; -5] [0; 0; 0].

Definition forc_record (polarization : list Q) : HysteresisData.HysteresisData :=
  HysteresisData.mkHyst 1 1 300 0 1 [0; 1; 2; 3; 4; 5; 6; 7; 8; 9; 10; 11; 12]
    [2; 3; 2; 1; 2; 3; 1; 0; 1; 3; 2; 2; 2] [] polarization.

(** The cell in row [r] and column [c] is the only one that is not zero. *)
Definition single_cell (prob : Ma.ndarray) (r c : nat) : Prop :=
  forall r' c' row x,
    nth_error prob r' = Some row ->
    nth_error row c' = Some x ->
    ~ x == 0 ->
    r' = r /\ c' = c.

Definition one_cell_grid : Ma.marray :=
  [[Some 0; Some 0; None]; [Some 0; Some 0; Some 1]].

(** The sum of squared residuals of the line [a * x + b] over the points
    [(x[i], y[i])], as least squares words it. *)
Definition residual (a b : Q) (p : Q * Q) : Q := snd p - (a * fst p + b).




(** The rule of one domain at one step, as the specification words it:
    up in a rising sweep at or above [ec + ebias], down in a falling sweep
    at or below [-ec + ebias], unchanged otherwise. *)
Definition hysteron (dir e : Q) (d : LandauDomain) (s : Q) : Q :=
  if Np.Qltb 0 dir && Qle_bool (d_ec d + d_ebias d) e then 1
  else if Np.Qltb dir 0 && Qle_bool e (- d_ec d + d_ebias d) then -1
  else s.

Fixpoint step_states (dir e : Q) (domains : list LandauDomain) (state : list Q)
  : list Q :=
  match domains, state with
  | d :: ds, s :: ss => hysteron dir e d s :: step_states dir e ds ss
  | _, _ => state
  end.

(** The net charge: the sum of [pr * area * state] over the domains. *)
Definition net_charge_from (acc : Q) (domains : list LandauDomain) (state : list Q)
  : Q :=
  fold_left (fun q ds => q + d_pr (fst ds) * d_area (fst ds) * snd ds)
            (combine domains state) acc.

Definition net_charge : list LandauDomain -> list Q -> Q := net_charge_from 0.

(** The states after the first [k] steps of a sweep whose [j]-th step
    has the field and direction [g j]. *)
Fixpoint states_after (g : nat -> Q * Q) (domains : list LandauDomain)
         (state : list Q) (k : nat) : list Q :=
  match k with
  | O => state
  | S k' => step_states (snd (g k')) (fst (g k')) domains
              (states_after g domains state k')
  end.

(** The sweep of the specification: at step [j] every domain follows the
    rule, and the output is the net charge over the film area. *)
Definition preisach (self : LandauFilm) (esweep sweepDir : list Q)
           (domains : list LandauDomain) (state : list Q) : list Q * list Q :=
  let g j := (nth j esweep 0, nth j sweepDir 0) in
  (map (fun j => net_charge domains (states_after g domains state (S j))
                 / area self)
       (seq 0 (length esweep)),
   states_after g domains state (length esweep)).

Fixpoint increasing (l : list Q) : Prop :=
  match l with
  | a :: (b :: _) as t => a < b /\ increasing t
  | _ => True
  end.

Fixpoint nonincreasing (l : list Q) : Prop :=
  match l with
  | a :: (b :: _) as t => b <= a /\ nonincreasing t
  | _ => True
  end.

(** The square loop of one domain with thresholds +1 and -1: along the
    rising samples [up] and the turning point [peak] the output is +1 from
    the first sample at or above +1 on, and along the falling samples [down]
    it is -1 from the first sample at or below -1 on. *)
Definition square_loop (up : list Q) (peak : Q) (down : list Q) (p : list Q)
  : Prop :=
  Forall2 (fun e q => q == if Qle_bool 1 e then 1 else -1)
          (up ++ [peak]) (firstn (S (length up)) p)
  /\ Forall2 (fun e q => q == if Qle_bool e (-1) then -1 else 1)
             down (skipn (S (length up)) p).

Definition unit_film : LandauFilm := mkFilm 1 1 0 1.

Definition unit_domain : LandauDomain :=
  LandauDomain_init unit_film (area unit_film / 1) 1 0.

(** ** The vocabulary of the further properties *)

(** The test of the scan at an interior index. *)
Definition strict_minimum (voltage : list Q) (i : nat) : bool :=
  Np.Qltb (nth i voltage 0) (nth (i - 1) voltage 0)
  && Np.Qltb (nth i voltage 0) (nth (i + 1) voltage 0).

Definition strict_maximum (voltage : list Q) (i : nat) : bool :=
  Np.Qltb (nth (i - 1) voltage 0) (nth i voltage 0)
  && Np.Qltb (nth (i + 1) voltage 0) (nth i voltage 0).

Definition two_minima_error : exn :=
  ValueError "Could not find two minima for FORC calculation. Aborting.".

Fixpoint nondecreasing (l : list Q) : Prop :=
  match l with
  | a :: (b :: _) as t => a <= b /\ nondecreasing t
  | _ => True
  end.

(** A triangular voltage with a square-wave current. *)
Definition square_current_sample : HysteresisData.HysteresisData :=
  HysteresisData.mkHyst 1 1 300 100 1 [0; 1; 2; 3; 4] [0; 1; 2; 1; 0]
    [0; 3; 3; -3; -3] [0; 0; 0; 0; 0].

Definition gradient_error : exn :=
  ValueError "Shape of array too small to calculate a numerical gradient, at least (edge_order + 1) elements are required.".

(** What one draw of [domainGen] leaves behind: the row of the parameter
    table and the domain, from the fields [egrain] and [ergrain] of the
    cell. *)
Definition drawn_from (self : LandauFilm) (e er : list Q) (n : nat)
           (d : LandauDomain) (row : list Q) : Prop :=
  exists egrain ergrain,
    In egrain e /\ In ergrain er
    /\ row = [egrain; ergrain; (egrain - ergrain) / 2; (egrain + ergrain) / 2]
    /\ d = LandauDomain_init self (area self / Np.of_nat n)
             ((egrain - ergrain) / 2) ((egrain + ergrain) / 2).

(** A hysteron state. *)
Definition up_or_down (s : Q) : Prop := s == 1 \/ s == -1.

(** A cell without probability: masked, or zero. *)
Definition blank_cell (c : option Q) : Prop :=
  match c with
  | Some x => x == 0
  | None => True
  end.

(** The part of [U(p + h) - U(p)] beyond the first order in [h], over
    [h * h]. *)
Definition energy_remainder (d : LandauDomain) (p h : Q) : Q :=
  d_a d
  + d_b d * (6 * p ^ 2 + 4 * p * h + h ^ 2)
  + d_g d * (15 * p ^ 4 + 20 * p ^ 3 * h + 15 * p ^ 2 * h ^ 2
             + 6 * p * h ^ 3 + h ^ 4).

(** The value of an optional argument: the one given, or the default. *)
Definition argument_or (x : option Q) (default : Q) : Q :=
  match x with
  | Some v => v
  | None => default
  end.

(** * Properties *)

(** ** Comparisons and outcomes *)

Lemma Qltb_lt (x y : Q) : Np.Qltb x y = true <-> x < y.
Proof.
  unfold Np.Qltb. rewrite negb_true_iff, <- not_true_iff_false, Qle_bool_iff.
  split; [apply Qnot_le_lt | apply Qlt_not_le].
Qed.

Lemma Qltb_ge (x y : Q) : Np.Qltb x y = false <-> y <= x.
Proof.
  unfold Np.Qltb. rewrite negb_false_iff. apply Qle_bool_iff.
Qed.

Lemma Qle_bool_gt (x y : Q) : Qle_bool x y = false <-> y < x.
Proof.
  rewrite <- not_true_iff_false, Qle_bool_iff.
  split; [apply Qnot_le_lt | apply Qlt_not_le].
Qed.

Lemma bind_Ok {A B : Type} (m : result A) (k : A -> result B) (b : B) :
  (x <- m ;; k x) = Ok b -> exists a, m = Ok a /\ k a = Ok b.
Proof.
  destruct m as [a| |]; simpl; intros H; try discriminate. now exists a.
Qed.

Lemma bindM_Ok {Obj A B : Type} (m : M Obj A) (k : A -> M Obj B) w b w' :
  (x <~ m ;; k x) w = (Ok b, w') ->
  exists a w1, m w = (Ok a, w1) /\ k a w1 = (Ok b, w').
Proof.
  unfold bindM. destruct (m w) as [[a| |] w1]; intros H; try discriminate.
  now exists a, w1.
Qed.

(** ** The sentinel check of calcEfePreisach *)

Lemma initial_state_array (domains : list LandauDomain) (a : list Q) :
  initial_state domains (PyArray a) =
  match a with
  | _ :: _ :: _ => Raise ambiguous_truth
  | _ => Ok a
  end.
Proof.
  destruct a as [|x [|y t]]; reflexivity.
Qed.

(** C10.  An [initState] array of more than one element makes the check
    [initState == None] raise the ValueError of an ambiguous truth value,
    whatever the sweep and the domains are, and the sweep does not start.
    [None] starts every domain at -1, an array of one element is taken as
    the state, and among the arrays that hold an element the error is
    raised exactly for those of more than one. *)
Theorem calcEfePreisach_array_state_ambiguous :
  forall (self : LandauFilm) (esweep : list Q) (domains : list LandauDomain)
         (a : list Q),
    (1 < length a)%nat ->
    calcEfePreisach self esweep domains (PyArray a) = Raise ambiguous_truth
    /\ initial_state domains PyNone = Ok (map (fun _ => -1) domains)
    /\ (forall x, initial_state domains (PyArray [x]) = Ok [x])
    /\ (forall b, b <> [] ->
          (initial_state domains (PyArray b) = Raise ambiguous_truth
           <-> (1 < length b)%nat)).
Proof.
  intros self esweep domains a Ha.
  split; [|split; [reflexivity|split; [reflexivity|]]].
  - unfold calcEfePreisach. rewrite initial_state_array.
    destruct a as [|x [|y t]]; simpl in Ha; try lia. reflexivity.
  - intros b Hb. rewrite initial_state_array.
    destruct b as [|x [|y t]]; simpl; try congruence.
    + split; [discriminate | lia].
    + split; [lia | reflexivity].
Qed.

Lemma calcEfePreisach_array_state_ambiguous_witness :
  (1 < length [1%Q; (-1)%Q])%nat
  /\ calcEfePreisach (mkFilm 1 1 0 1) [-2; 0; 2] [] (PyArray [1; -1])
     = Raise ambiguous_truth.
Proof.
  split; [simpl; lia|].
  apply (calcEfePreisach_array_state_ambiguous (mkFilm 1 1 0 1) [-2; 0; 2] []
           [1; -1]).
  simpl; lia.
Defined.

(** ** leakage_compensation on a model without parameters *)

(** C7.  With an empty parameter list [leakage_compensation] issues the
    RuntimeWarning and returns [self], the very object it was given: the
    outcome is never an exception and no object of the heap changes. *)
Theorem leakage_compensation_unfit :
  forall (self : ref) (ld : HysteresisData.LeakageData)
         (w : world HysteresisData.HysteresisData),
    HysteresisData.lcmParms ld = [] ->
    HysteresisData.leakage_compensation self ld w
    = (Ok self, mkWorld (heap w) (warnings w ++ [unfit_warning])).
Proof.
  intros self ld w H. unfold HysteresisData.leakage_compensation.
  rewrite H. reflexivity.
Qed.

Lemma leakage_compensation_unfit_witness :
  HysteresisData.leakage_compensation 0%nat (HysteresisData.mkLeak [1] [2] [])
    (mkWorld [HysteresisData.mkHyst 1 1 300 100 1 [0; 1] [0; 1] [3; 4] [0; 0]] [])
  = (Ok 0%nat,
     mkWorld [HysteresisData.mkHyst 1 1 300 100 1 [0; 1] [0; 1] [3; 4] [0; 0]]
             [unfit_warning]).
Proof.
  apply (leakage_compensation_unfit 0%nat (HysteresisData.mkLeak [1] [2] [])
           (mkWorld [HysteresisData.mkHyst 1 1 300 100 1 [0; 1] [0; 1] [3; 4] [0; 0]] [])).
  reflexivity.
Defined.

(** ** The reversal curves of forc_calc *)

Lemma get_item_cases {A : Type} (a : list A) (i : nat) :
  (exists x, nth_error a i = Some x /\ get_item a i = Ok x)
  \/ (nth_error a i = None /\ get_item a i = Raise index_error).
Proof.
  unfold get_item. destruct (nth_error a i) as [x|]; [left; now exists x | now right].
Qed.

(** The span loop asks for [maximaIndex[i + 1]] at the [i]-th minimum: it
    cannot finish when the maxima do not outnumber the minima. *)
Lemma span_loop_raises (voltage polarization : list Q) (maximaIndex : list nat) :
  forall (minimaIndex : list nat) (i : nat),
    minimaIndex <> [] ->
    (length maximaIndex <= i + length minimaIndex)%nat ->
    HysteresisData.span_loop voltage polarization maximaIndex i minimaIndex
    = Raise index_error.
Proof.
  induction minimaIndex as [|v rest IH]; intros i Hne Hlen; [congruence|].
  simpl in *.
  destruct (get_item_cases voltage (v - 1)) as [(vr & _ & ->)|[_ ->]];
    [|reflexivity].
  simpl.
  destruct (get_item_cases maximaIndex (i + 1)) as [(m & Hm & ->)|[_ ->]];
    [|reflexivity].
  simpl.
  assert (Hlt : (i + 1 < length maximaIndex)%nat)
    by (apply nth_error_Some; congruence).
  rewrite IH; [reflexivity | | lia].
  destruct rest; simpl in *; [lia | discriminate].
Qed.

(** C9.  The check for two minima does not make [forc_calc] total.
    Whenever the scan finds at least two minima and no more maxima than
    minima, the span loop reads [maximaIndex] out of range and the call
    ends in an IndexError, whatever the gridding routines are; the voltage
    record 0, -1, 0, -1, 0, 0, 0 is such an input, with the minima 1 and 3
    and the single maximum 2. *)
Theorem forc_calc_index_error :
  (exists voltage minimaIndex maximaIndex,
      HysteresisData.find_extrema voltage = Ok (minimaIndex, maximaIndex)
      /\ (2 <= length minimaIndex)%nat
      /\ (length maximaIndex <= length minimaIndex)%nat)
  /\ (forall griddata gradient2 uniform_filter
             (self : HysteresisData.HysteresisData) (linear : bool)
             (filtIter : option nat) (filtDim : nat * nat)
             (minimaIndex maximaIndex : list nat),
         HysteresisData.find_extrema (HysteresisData.voltage self)
         = Ok (minimaIndex, maximaIndex) ->
         (2 <= length minimaIndex)%nat ->
         (length maximaIndex <= length minimaIndex)%nat ->
         HysteresisData.forc_calc griddata gradient2 uniform_filter
           self linear filtIter filtDim
         = Raise index_error).
Proof.
  split.
  - exists [0; -1; 0; -1; 0; 0; 0], [1; 3]%nat, [2%nat].
    split; [reflexivity | simpl; lia].
  - intros griddata gradient2 uniform_filter self linear filtIter filtDim
           minimaIndex maximaIndex Hext Hmin Hmax.
    unfold HysteresisData.forc_calc, HysteresisData.forc_spans.
    rewrite Hext. simpl.
    destruct (Nat.ltb_spec (length minimaIndex) 2) as [Hlt|_]; [lia|].
    rewrite span_loop_raises; [reflexivity | | simpl; lia].
    destruct minimaIndex; simpl in *; [lia | discriminate].
Qed.

Lemma forc_calc_index_error_witness :
  HysteresisData.forc_calc
    (fun _ _ _ _ _ _ => Ok [[Some 0]]) (fun g _ _ => Ok (g, g))
    (fun a _ => Ok a)
    (HysteresisData.mkHyst 1 1 300 100 1 [0; 1; 2; 3; 4; 5; 6]
       [0; -1; 0; -1; 0; 0; 0] [0; 0; 0; 0; 0; 0; 0] [0; 0; 0; 0; 0; 0; 0])
    true None (1%nat, 1%nat)
  = Raise index_error.
Proof.
  apply (proj2 forc_calc_index_error) with (minimaIndex := [1; 3]%nat)
                                           (maximaIndex := [2%nat]).
  - reflexivity.
  - simpl; lia.
  - simpl; lia.
Defined.

Lemma extrema_loop_minima (voltage : list Q) :
  forall (todo : list Q) (i : nat) (mins maxs mins' maxs' : list nat),
    todo = skipn i voltage ->
    Forall (below_previous voltage) mins ->
    HysteresisData.extrema_loop voltage i todo mins maxs = Ok (mins', maxs') ->
    Forall (below_previous voltage) mins'.
Proof.
  induction todo as [|v todo IH]; intros i mins maxs mins' maxs' Htodo Hmins Hrun.
  - simpl in Hrun. now inversion Hrun; subst.
  - assert (Hv : nth_error voltage i = Some v).
    { pose proof (nth_error_skipn i voltage 0) as E.
      rewrite <- Htodo, Nat.add_0_r in E. now rewrite <- E. }
    assert (Hnext : todo = skipn (S i) voltage).
    { pose proof (skipn_skipn 1 i voltage) as E.
      rewrite <- Htodo in E. simpl in E. now rewrite E. }
    simpl in Hrun.
    destruct (Nat.eqb_spec i 0) as [Hi|Hi]; [now apply (IH _ _ _ _ _ Hnext Hmins Hrun)|].
    destruct (i =? length voltage - 2)%nat;
      [now inversion Hrun; subst|].
    apply bind_Ok in Hrun as (before & Hb & Hrun).
    apply bind_Ok in Hrun as (after & Ha & Hrun).
    apply (IH _ _ _ _ _ Hnext) in Hrun; [exact Hrun|].
    destruct (Np.Qltb v before && Np.Qltb v after) eqn:Hc; [|exact Hmins].
    apply Forall_app; split; [exact Hmins|].
    constructor; [|constructor].
    apply andb_true_iff in Hc as [Hc _]. apply Qltb_lt in Hc.
    exists before, v. repeat split; try lia; try assumption.
    unfold get_item in Hb. destruct (nth_error voltage (i - 1)); congruence.
Qed.

(** What each reversal curve holds: the reversal voltage of the span of
    the minimum at index [v] is the sample at index [v - 1], repeated along
    the span, and it lies above the voltage of the minimum itself. *)
Lemma span_loop_spans (voltage polarization : list Q) (maximaIndex : list nat) :
  forall (minimaIndex : list nat) (i : nat) (spans : list HysteresisData.span),
    HysteresisData.span_loop voltage polarization maximaIndex i minimaIndex
    = Ok spans ->
    length spans = length minimaIndex
    /\ forall k v sp,
        nth_error minimaIndex k = Some v ->
        nth_error spans k = Some sp ->
        exists before m,
          nth_error voltage (v - 1) = Some before
          /\ nth_error maximaIndex (i + k + 1) = Some m
          /\ HysteresisData.s_vr sp = repeat before (m - v)
          /\ HysteresisData.s_v sp = slice voltage v m
          /\ HysteresisData.s_p sp = slice polarization v m.
Proof.
  induction minimaIndex as [|v rest IH]; intros i spans Hrun; simpl in Hrun.
  - inversion Hrun; subst. split; [reflexivity|].
    intros [|k] ? ? H; discriminate.
  - apply bind_Ok in Hrun as (vr & Hvr & Hrun).
    apply bind_Ok in Hrun as (m & Hm & Hrun).
    apply bind_Ok in Hrun as (spans' & Hrest & Hrun).
    inversion Hrun; subst; clear Hrun.
    destruct (IH _ _ Hrest) as [Hlen Hspans].
    split; [simpl; now rewrite Hlen|].
    intros [|k] v' sp Hk Hsp; simpl in Hk, Hsp.
    + inversion Hk; inversion Hsp; subst. exists vr, m.
      unfold get_item in Hvr, Hm.
      destruct (nth_error voltage (v' - 1)); try discriminate.
      destruct (nth_error maximaIndex (i + 1)) eqn:E; try discriminate.
      rewrite Nat.add_0_r, E.
      inversion Hvr; inversion Hm; subst. repeat split; reflexivity.
    + destruct (Hspans k v' sp Hk Hsp) as (before & m' & H1 & H2 & H3).
      exists before, m'. split; [exact H1|]. split; [|exact H3].
      replace (i + S k + 1)%nat with (S i + k + 1)%nat by lia. exact H2.
Qed.

Lemma forc_spans_reversal_voltage (voltage polarization : list Q)
      (minimaIndex maximaIndex : list nat) (spans : list HysteresisData.span) :
  HysteresisData.find_extrema voltage = Ok (minimaIndex, maximaIndex) ->
  HysteresisData.forc_spans voltage polarization = Ok spans ->
  length spans = length minimaIndex
  /\ forall k v sp,
      nth_error minimaIndex k = Some v ->
      nth_error spans k = Some sp ->
      exists before atmin m,
        nth_error voltage (v - 1) = Some before
        /\ nth_error voltage v = Some atmin
        /\ nth_error maximaIndex (k + 1) = Some m
        /\ HysteresisData.s_vr sp = repeat before (m - v)
        /\ HysteresisData.s_v sp = slice voltage v m
        /\ atmin < before.
Proof.
  intros Hext Hrun. unfold HysteresisData.forc_spans in Hrun.
  rewrite Hext in Hrun. simpl in Hrun.
  destruct (length minimaIndex <? 2)%nat; [discriminate|].
  destruct (span_loop_spans _ _ _ _ _ _ Hrun) as [Hlen Hspans].
  split; [exact Hlen|].
  intros k v sp Hk Hsp.
  destruct (Hspans k v sp Hk Hsp) as (before & m & H1 & H2 & H3 & H4 & _).
  assert (Hmin : Forall (below_previous voltage) minimaIndex).
  { apply (extrema_loop_minima voltage voltage 0%nat [] [] minimaIndex maximaIndex);
      [reflexivity | constructor | exact Hext]. }
  rewrite Forall_forall in Hmin.
  destruct (Hmin v (nth_error_In _ _ Hk)) as (b & a & _ & Hb & Ha & Hlt).
  exists before, a, m. rewrite H1 in Hb. inversion Hb; subst.
  repeat split; assumption.
Qed.

(** C5.  On the voltage record 2, 3, 2, 1, 2, 3, 1, 0, 1, 3, 2, 2, 2 the
    minima are at the indices 3 and 7, where the voltage is 1 and 0.  The
    two reversal curves start there, but the reversal voltage the code
    repeats along them is 2 and 1: the sample before each minimum.  With
    the thickness 1 the axis of reversal fields that [forc_calc] returns is
    1, 2, not 0, 1. *)
Theorem forc_spans_reversal_voltage_example :
  HysteresisData.find_extrema [2; 3; 2; 1; 2; 3; 1; 0; 1; 3; 2; 2; 2]
  = Ok ([3; 7]%nat, [1; 5; 9]%nat)
  /\ HysteresisData.forc_spans [2; 3; 2; 1; 2; 3; 1; 0; 1; 3; 2; 2; 2]
       [10; 11; 12; 13; 14; 15; 16; 17; 19; 19; 20; 21; 22]
     = Ok [HysteresisData.mkSpan [2; 2] [1; 2] [13; 14];
           HysteresisData.mkSpan [1; 1] [0; 1] [17; 19]]
  /\ exists uniformE prob,
      HysteresisData.forc_calc Reference.griddata Reference.gradient2
        Reference.uniform_filter
        (forc_record [10; 11; 12; 13; 14; 15; 16; 17; 19; 19; 20; 21; 22])
        true None (1%nat, 1%nat)
      = Ok (uniformE, [1; 2], prob).
Proof.
  split; [reflexivity|]. split; [reflexivity|].
  eexists _, _. vm_compute. reflexivity.
Qed.

(** ** Objects in the heap *)

Section HeapLemmas.
Context {Obj : Type}.

Lemma lift_Ok {A : Type} (m : result A) (w w1 : world Obj) (a : A) :
  lift m w = (Ok a, w1) -> m = Ok a /\ w1 = w.
Proof.
  unfold lift. intros H. inversion H. now split.
Qed.

Lemma deref_Ok (r : ref) (w w1 : world Obj) (o : Obj) :
  deref r w = (Ok o, w1) -> nth_error (heap w) r = Some o /\ w1 = w.
Proof.
  unfold deref, get_item. destruct (nth_error (heap w) r); intros H; inversion H.
  now split.
Qed.

Lemma deepcopy_Ok (r r' : ref) (w w1 : world Obj) :
  deepcopy r w = (Ok r', w1) ->
  exists o, nth_error (heap w) r = Some o
            /\ r' = length (heap w)
            /\ w1 = mkWorld (heap w ++ [o]) (warnings w).
Proof.
  unfold deepcopy, bindM, deref, alloc, get_item.
  destruct (nth_error (heap w) r) as [o|]; intros H; inversion H.
  now exists o.
Qed.

Lemma modify_Ok (r : ref) (f : Obj -> Obj) (w w1 : world Obj) (u : unit) :
  modify r f w = (Ok u, w1) ->
  exists o, nth_error (heap w) r = Some o
            /\ w1 = mkWorld (update (heap w) r (f o)) (warnings w).
Proof.
  unfold modify. destruct (nth_error (heap w) r) as [o|]; intros H; inversion H.
  now exists o.
Qed.

Lemma bindM_eq {A B : Type} (m : M Obj A) (k : A -> M Obj B) w a w1 :
  m w = (Ok a, w1) -> (x <~ m ;; k x) w = k a w1.
Proof.
  unfold bindM. now intros ->.
Qed.

Lemma deref_eq (r : ref) (w : world Obj) (o : Obj) :
  nth_error (heap w) r = Some o -> deref r w = (Ok o, w).
Proof.
  unfold deref, get_item. now intros ->.
Qed.

Lemma deepcopy_eq (r : ref) (w : world Obj) (o : Obj) :
  nth_error (heap w) r = Some o ->
  deepcopy r w = (Ok (length (heap w)), mkWorld (heap w ++ [o]) (warnings w)).
Proof.
  intros H. unfold deepcopy. now rewrite (bindM_eq _ _ _ _ _ (deref_eq _ _ _ H)).
Qed.

Lemma modify_eq (r : ref) (f : Obj -> Obj) (w : world Obj) (o : Obj) :
  nth_error (heap w) r = Some o ->
  modify r f w = (Ok tt, mkWorld (update (heap w) r (f o)) (warnings w)).
Proof.
  unfold modify. now intros ->.
Qed.

Lemma nth_error_last (l : list Obj) (o : Obj) :
  nth_error (l ++ [o]) (length l) = Some o.
Proof.
  rewrite nth_error_app2, Nat.sub_diag by lia. reflexivity.
Qed.

Lemma length_update (l : list Obj) (r : nat) (x : Obj) :
  (r < length l)%nat -> length (update l r x) = length l.
Proof.
  intros H. unfold update.
  rewrite length_app, length_firstn. cbn [length]. rewrite length_skipn. lia.
Qed.

Lemma nth_error_store_same (l : list Obj) (r : nat) (x : Obj) :
  (r < length l)%nat -> nth_error (update l r x) r = Some x.
Proof.
  intros H. unfold update.
  rewrite nth_error_app2; rewrite length_firstn, Nat.min_l by lia; [|lia].
  now rewrite Nat.sub_diag.
Qed.

Lemma nth_error_store_other (l : list Obj) (r r' : nat) (x : Obj) :
  (r < length l)%nat -> r' <> r ->
  nth_error (update l r x) r' = nth_error l r'.
Proof.
  intros H Hne. unfold update.
  destruct (Nat.lt_ge_cases r' r) as [Hlt|Hge].
  - rewrite nth_error_app1 by (rewrite length_firstn; lia).
    rewrite nth_error_firstn.
    destruct (Nat.ltb_spec r' r); [reflexivity | lia].
  - rewrite nth_error_app2; rewrite length_firstn, Nat.min_l by lia; [|lia].
    destruct (r' - r)%nat as [|k] eqn:E; [lia|]. cbn [nth_error].
    rewrite nth_error_skipn. f_equal. lia.
Qed.

End HeapLemmas.

(** One step of a run that has returned: the step is a pure computation
    lifted to the world, and it has returned too. *)
Ltac lifted_step H x Hx :=
  let w := fresh "w" in
  apply bindM_Ok in H as (x & w & Hx & H);
  apply lift_Ok in Hx as [Hx ->].

(** ** Sums and means *)

Lemma of_nat_S (n : nat) : Np.of_nat (S n) == Np.of_nat n + 1.
Proof.
  unfold Np.of_nat. rewrite Nat2Z.inj_succ, <- Z.add_1_r, inject_Z_plus.
  reflexivity.
Qed.

Lemma of_nat_pos (n : nat) : (0 < n)%nat -> 0 < Np.of_nat n.
Proof.
  intros H. unfold Np.of_nat. change 0 with (inject_Z 0).
  rewrite <- Zlt_Qlt. lia.
Qed.

Lemma sum_map_sub (m : Q) (l : list Q) :
  Np.sum (map (fun i => i - m) l) == Np.sum l - Np.of_nat (length l) * m.
Proof.
  induction l as [|x l IH].
  - simpl. unfold Np.of_nat. simpl. ring.
  - change (Np.sum (map (fun i => i - m) (x :: l)))
      with ((x - m) + Np.sum (map (fun i => i - m) l)).
    change (Np.sum (x :: l)) with (x + Np.sum l).
    change (length (x :: l)) with (S (length l)).
    rewrite IH, of_nat_S. ring.
Qed.

Lemma mean_subtract_mean (l : list Q) (m : Q) :
  Np.mean l = Ok m ->
  exists m', Np.mean (map (fun i => i - m) l) = Ok m' /\ m' == 0.
Proof.
  destruct l as [|x l]; [discriminate|].
  intros H.
  assert (Hm : m = Np.sum (x :: l) / Np.of_nat (length (x :: l)))
    by (unfold Np.mean in H; congruence).
  assert (Hpos : 0 < Np.of_nat (length (x :: l)))
    by (apply of_nat_pos; simpl; lia).
  exists (Np.sum (map (fun i => i - m) (x :: l))
          / Np.of_nat (length (map (fun i => i - m) (x :: l)))).
  split; [reflexivity|].
  rewrite length_map, sum_map_sub.
  generalize dependent (Np.of_nat (length (x :: l))). intros n Hm Hpos.
  rewrite Hm. field.
  intros E. rewrite E in Hpos. now apply Qlt_irrefl in Hpos.
Qed.

(** ** leakage_compensation on a fit model *)

Lemma subtract_leakage_total (voltage : list Q) (a b c0 d0 e f g : Q) :
  forall (current : list Q) (j : nat),
    (j + length current <= length voltage)%nat ->
    exists residual,
      HysteresisData.subtract_leakage voltage [a; b; c0; d0; e; f; g] j current
      = Ok residual
      /\ length residual = length current.
Proof.
  induction current as [|i rest IH]; intros j Hlen.
  - now exists [].
  - simpl in Hlen.
    destruct (IH (S j)) as (res & Hres & Hl); [lia|].
    destruct (nth_error voltage j) as [v|] eqn:Hv;
      [|apply nth_error_None in Hv; lia].
    exists ((i - HysteresisData.leakage_func v a b c0 d0 e f g) :: res).
    cbn [HysteresisData.subtract_leakage]. unfold get_item. rewrite Hv.
    cbn [bind HysteresisData.call_leakage_func]. rewrite Hres.
    split; [reflexivity | simpl; now rewrite Hl].
Qed.

(** C4.  On a sample of the heap with a current array that is not empty
    and no longer than the voltage array, a non-zero area and a model of
    seven parameters, [leakage_compensation] returns.  Whenever it returns
    for a model with parameters, the result is a new object, the sample it
    was given is unchanged, and the current of the result is the residual
    [current[j] - leakage_func(voltage[j], *lcmParms)] minus its mean, so its
    own mean is zero. *)
Theorem leakage_compensation_zero_mean :
  (forall (self : ref) (ld : HysteresisData.LeakageData)
          (w : world HysteresisData.HysteresisData)
          (orig : HysteresisData.HysteresisData) (a b c0 d0 e f g : Q),
      nth_error (heap w) self = Some orig ->
      HysteresisData.lcmParms ld = [a; b; c0; d0; e; f; g] ->
      HysteresisData.current orig <> [] ->
      (length (HysteresisData.current orig)
       <= length (HysteresisData.voltage orig))%nat ->
      ~ HysteresisData.area orig == 0 ->
      exists r w', HysteresisData.leakage_compensation self ld w = (Ok r, w'))
  /\ (forall (self : ref) (ld : HysteresisData.LeakageData)
             (w w' : world HysteresisData.HysteresisData) (r : ref),
         HysteresisData.lcmParms ld <> [] ->
         HysteresisData.leakage_compensation self ld w = (Ok r, w') ->
         exists orig comp residual mr m,
           nth_error (heap w) self = Some orig
           /\ nth_error (heap w') self = Some orig
           /\ r <> self
           /\ nth_error (heap w') r = Some comp
           /\ HysteresisData.subtract_leakage (HysteresisData.voltage orig)
                (HysteresisData.lcmParms ld) 0 (HysteresisData.current orig)
              = Ok residual
           /\ Np.mean residual = Ok mr
           /\ HysteresisData.current comp = map (fun i => i - mr) residual
           /\ Np.mean (HysteresisData.current comp) = Ok m
           /\ m == 0).
Proof.
  split.
  - intros self ld w orig a b c0 d0 e f g Hself Hparms Hne Hlen Harea.
    destruct (subtract_leakage_total (HysteresisData.voltage orig) a b c0 d0 e f g
                (HysteresisData.current orig) 0) as (res & Hres & Hl); [lia|].
    assert (Hself' : (self < length (heap w))%nat)
      by (apply nth_error_Some; congruence).
    unfold HysteresisData.leakage_compensation. rewrite Hparms.
    rewrite (bindM_eq _ _ _ _ _ (deepcopy_eq _ _ _ Hself)).
    erewrite bindM_eq
      by (apply deref_eq; cbn [heap]; rewrite nth_error_app1; eassumption).
    erewrite bindM_eq by (apply deref_eq; cbn [heap]; apply nth_error_last).
    erewrite bindM_eq by (unfold lift; rewrite Hres; reflexivity).
    destruct res as [|x res];
      [destruct (HysteresisData.current orig); simpl in Hl; congruence|].
    erewrite bindM_eq by reflexivity.
    set (cur2 := map _ (x :: res)).
    erewrite bindM_eq by (apply modify_eq; cbn [heap]; apply nth_error_last).
    assert (Hint : exists t0 tp, HysteresisData.integrate cur2
                     (HysteresisData.dt orig) (HysteresisData.area orig)
                   = Ok (t0 :: tp)).
    { subst cur2. cbn [map HysteresisData.integrate].
      destruct (map _ res) as [|y l]; [now exists 0, []|].
      destruct (Qeq_bool (HysteresisData.area orig) 0) eqn:E;
        [apply Qeq_bool_iff in E; contradiction|].
      now eexists _, _. }
    destruct Hint as (t0 & tp & Hint).
    erewrite bindM_eq by (unfold lift; rewrite Hint; reflexivity).
    erewrite bindM_eq by reflexivity.
    erewrite bindM_eq by reflexivity.
    erewrite bindM_eq
      by (apply modify_eq; cbn [heap]; apply nth_error_store_same;
          rewrite length_app; simpl; lia).
    eexists _, _. reflexivity.
  - intros self ld w w' r Hparms Hrun.
    unfold HysteresisData.leakage_compensation in Hrun.
    destruct (HysteresisData.lcmParms ld) as [|q parms] eqn:Eparms; [congruence|].
    apply bindM_Ok in Hrun as (compData & w1 & Hcopy & Hrun).
    apply deepcopy_Ok in Hcopy as (orig & Hself & -> & ->).
    apply bindM_Ok in Hrun as (me & w2 & Hme & Hrun).
    apply deref_Ok in Hme as [Hme ->]. cbn [heap] in Hme.
    assert (Hself' : (self < length (heap w))%nat)
      by (apply nth_error_Some; congruence).
    rewrite nth_error_app1, Hself in Hme by exact Hself'. inversion Hme; subst me.
    apply bindM_Ok in Hrun as (cd & w2 & Hcd & Hrun).
    apply deref_Ok in Hcd as [Hcd ->]. cbn [heap] in Hcd.
    rewrite nth_error_last in Hcd. inversion Hcd; subst cd.
    lifted_step Hrun current1 Hc1.
    lifted_step Hrun current2 Hc2.
    apply bindM_Ok in Hrun as (u1 & w2 & Hm1 & Hrun).
    apply modify_Ok in Hm1 as (o1 & Ho1 & ->). cbn [heap warnings] in *.
    rewrite nth_error_last in Ho1. inversion Ho1; subst o1.
    lifted_step Hrun testpol Htp.
    lifted_step Hrun mx Hmx.
    lifted_step Hrun mn Hmn.
    apply bindM_Ok in Hrun as (u2 & w2 & Hm2 & Hrun).
    apply modify_Ok in Hm2 as (o2 & Ho2 & ->). cbn [heap warnings] in *.
    assert (Hlen1 : (length (heap w) < length (heap w ++ [orig]))%nat)
      by (rewrite length_app; simpl; lia).
    rewrite nth_error_store_same in Ho2 by exact Hlen1. inversion Ho2; subst o2.
    unfold ret in Hrun. inversion Hrun; subst r w'; clear Hrun. cbn [heap].
    assert (Hne : current1 <> []).
    { intros ->. simpl in Hc2. inversion Hc2; subst current2.
      simpl in Htp. inversion Htp; subst testpol. discriminate. }
    destruct current1 as [|x1 rest1] eqn:Ec1; [congruence|]. rewrite <- Ec1 in *.
    assert (Hmean : exists mr, Np.mean current1 = Ok mr
                               /\ current2 = map (fun i => i - mr) current1).
    { rewrite Ec1 in *. cbn [HysteresisData.subtract_mean] in Hc2.
      apply bind_Ok in Hc2 as (mr & Hmr & Hc2). exists mr. split; [exact Hmr|].
      now inversion Hc2. }
    destruct Hmean as (mr & Hmr & ->).
    destruct (mean_subtract_mean _ _ Hmr) as (m & Hm & Hm0).
    eexists orig, _, current1, mr, m.
    split; [exact Hself|].
    split.
    { rewrite nth_error_store_other;
        [| rewrite length_update by exact Hlen1; exact Hlen1 | lia].
      rewrite nth_error_store_other by (try exact Hlen1; lia).
      now rewrite nth_error_app1 by exact Hself'. }
    split; [lia|].
    split.
    { apply nth_error_store_same.
      rewrite length_update by exact Hlen1. exact Hlen1. }
    split; [exact Hc1|].
    split; [exact Hmr|].
    split; [reflexivity|].
    split; [exact Hm | exact Hm0].
Qed.

Lemma leakage_compensation_zero_mean_witness :
  HysteresisData.lcmParms linear_leakage <> []
  /\ exists r w' comp m,
      HysteresisData.leakage_compensation 0%nat linear_leakage
        (mkWorld [three_point_sample] []) = (Ok r, w')
      /\ nth_error (heap w') r = Some comp
      /\ Np.mean (HysteresisData.current comp) = Ok m
      /\ m == 0.
Proof.
  split; [discriminate|].
  destruct (proj1 leakage_compensation_zero_mean 0%nat linear_leakage
              (mkWorld [three_point_sample] []) three_point_sample 0 0 0 0 1 0 0)
    as (r & w' & Hrun);
    [reflexivity | reflexivity | discriminate | simpl; lia | discriminate |].
  destruct (proj2 leakage_compensation_zero_mean 0%nat linear_leakage
              (mkWorld [three_point_sample] []) w' r) as
    (orig & comp & residual & mr & m & _ & _ & _ & Hcomp & _ & _ & _ & Hm & Hm0);
    [discriminate | exact Hrun |].
  exists r, w', comp, m. repeat split; assumption.
Defined.

(** ** cCompensation *)

Lemma sign_pos (x : Q) : 0 < x -> Np.sign x = 1.
Proof.
  intros H. unfold Np.sign. now rewrite (proj2 (Qltb_lt 0 x) H).
Qed.

Lemma sign_neg (x : Q) : x < 0 -> Np.sign x = -1.
Proof.
  intros H. unfold Np.sign.
  rewrite (proj2 (Qltb_ge 0 x)) by (apply Qlt_le_weak; exact H).
  now rewrite (proj2 (Qltb_lt x 0) H).
Qed.

Lemma sign_zero (x : Q) : x == 0 -> Np.sign x = 0.
Proof.
  intros H. unfold Np.sign.
  rewrite (proj2 (Qltb_ge 0 x)) by (rewrite H; apply Qle_refl).
  now rewrite (proj2 (Qltb_ge x 0)) by (rewrite H; apply Qle_refl).
Qed.

Lemma compensate_floor_rule (icap i : Q) :
  floor_rule icap i (compensate icap i).
Proof.
  unfold floor_rule, compensate.
  destruct (Qle_bool icap (Qabs i)) eqn:E.
  - apply Qle_bool_iff in E. split; [reflexivity|]. split.
    + intros H. exfalso. apply (Qlt_irrefl icap).
      eapply Qle_lt_trans; eassumption.
    + intros Hne.
      destruct (Q_dec i 0) as [[Hneg|Hpos]|Hz].
      * rewrite (sign_neg i Hneg) in *.
        rewrite Qabs_neg in E by (apply Qlt_le_weak; exact Hneg).
        apply sign_neg. apply Qnot_le_lt. intros Hge. apply Hne. lra.
      * rewrite (sign_pos i Hpos) in *.
        rewrite Qabs_pos in E by (apply Qlt_le_weak; exact Hpos).
        apply sign_pos. apply Qnot_le_lt. intros Hle. apply Hne. lra.
      * exfalso. apply Hne. rewrite (sign_zero i Hz). lra.
  - apply Qle_bool_gt in E. split.
    + intros H. exfalso. apply (Qlt_irrefl icap).
      eapply Qle_lt_trans; eassumption.
    + split; [reflexivity|]. intros Hne. exfalso. apply Hne. reflexivity.
Qed.

Lemma compensate_floor_magnitude (icap i : Q) :
  0 <= icap \/ ~ i == 0 -> floor_magnitude icap i (compensate icap i).
Proof.
  intros Hside. unfold floor_magnitude, compensate.
  destruct (Qle_bool icap (Qabs i)) eqn:E.
  - apply Qle_bool_iff in E.
    rewrite Q.max_r by lra.
    destruct (Q_dec i 0) as [[Hneg|Hpos]|Hz].
    + rewrite (sign_neg i Hneg).
      rewrite (Qabs_neg i) in * by (apply Qlt_le_weak; exact Hneg).
      rewrite Qabs_neg by lra. ring.
    + rewrite (sign_pos i Hpos).
      rewrite (Qabs_pos i) in * by (apply Qlt_le_weak; exact Hpos).
      rewrite Qabs_pos by lra. ring.
    + destruct Hside as [Hcap|Hnz]; [|contradiction].
      rewrite (sign_zero i Hz).
      assert (Ha : Qabs i == 0) by (rewrite Hz; reflexivity).
      rewrite Ha in *.
      assert (Hic : icap == 0) by lra.
      rewrite Hic, Hz. reflexivity.
  - apply Qle_bool_gt in E.
    rewrite Q.max_l by lra. reflexivity.
Qed.

(** C3, as amended.  Whenever [cCompensation] returns, the result is a
    new object whose current is the current of the sample under the rule
    of one sample with the floor [icap = c * mean(|diff(voltage) / dt|)]:
    a sample of magnitude at least [icap] becomes [i - sign(i) * icap],
    any other becomes 0, and an output that is not zero has the sign of
    its input.  The magnitude of the output is [max(0, |i| - icap)] for
    every sample when [icap] is not negative, and for every sample that is
    not zero in any case. *)
Theorem cCompensation_floor :
  forall (self : LandauFilm) (data r : ref) (prv : Q)
         (w w' : world HysteresisData.HysteresisData),
    cCompensation self data w = (Ok (r, prv), w') ->
    exists d comp q dvdt,
      nth_error (heap w) data = Some d
      /\ nth_error (heap w') r = Some comp
      /\ Np.div_scalar (Np.diff (HysteresisData.voltage d)) (HysteresisData.dt d)
         = Ok q
      /\ Np.mean (map Qabs q) = Ok dvdt
      /\ Forall2 (fun i o =>
                    floor_rule (c self * dvdt) i o
                    /\ (0 <= c self * dvdt \/ ~ i == 0 ->
                        floor_magnitude (c self * dvdt) i o))
                 (HysteresisData.current d) (HysteresisData.current comp).
Proof.
  intros self data r prv w w' Hrun.
  unfold cCompensation in Hrun.
  apply bindM_Ok in Hrun as (compData & w1 & Hcopy & Hrun).
  apply deepcopy_Ok in Hcopy as (d & Hd & -> & ->).
  apply bindM_Ok in Hrun as (d' & w2 & Hd' & Hrun).
  apply deref_Ok in Hd' as [Hd' ->]. cbn [heap] in Hd'.
  assert (Hdata : (data < length (heap w))%nat)
    by (apply nth_error_Some; congruence).
  rewrite nth_error_app1, Hd in Hd' by exact Hdata. inversion Hd'; subst d'.
  lifted_step Hrun q Hq.
  lifted_step Hrun dvdt Hdvdt.
  apply bindM_Ok in Hrun as (u1 & w2 & Hm1 & Hrun).
  apply modify_Ok in Hm1 as (o1 & Ho1 & ->). cbn [heap warnings] in *.
  rewrite nth_error_last in Ho1. inversion Ho1; subst o1.
  assert (Hlen1 : (length (heap w) < length (heap w ++ [d]))%nat)
    by (rewrite length_app; simpl; lia).
  apply bindM_Ok in Hrun as (cd & w2 & Hcd & Hrun).
  apply deref_Ok in Hcd as [Hcd ->]. cbn [heap] in Hcd.
  rewrite nth_error_store_same in Hcd by exact Hlen1. inversion Hcd; subst cd.
  lifted_step Hrun testpol Htp.
  lifted_step Hrun mx Hmx.
  lifted_step Hrun mn Hmn.
  apply bindM_Ok in Hrun as (u2 & w2 & Hm2 & Hrun).
  apply modify_Ok in Hm2 as (o2 & Ho2 & ->). cbn [heap warnings] in *.
  rewrite nth_error_store_same in Ho2 by exact Hlen1. inversion Ho2; subst o2.
  unfold ret in Hrun. inversion Hrun; subst r prv w'; clear Hrun. cbn [heap].
  eexists d, _, q, dvdt.
  split; [exact Hd|].
  split; [apply nth_error_store_same; rewrite length_update by exact Hlen1;
          exact Hlen1|].
  split; [exact Hq|].
  split; [exact Hdvdt|].
  cbn [HysteresisData.current HysteresisData.set_polarization
       HysteresisData.set_current].
  generalize (HysteresisData.current d). intros l.
  induction l as [|i l IH]; constructor; [|exact IH].
  split; [apply compensate_floor_rule | apply compensate_floor_magnitude].
Qed.

Lemma cCompensation_floor_witness :
  exists r prv w',
    cCompensation (mkFilm 1 1 2 1) 0%nat (mkWorld [sample_with_zero] []) = (Ok (r, prv), w')
    /\ exists comp dvdt,
        nth_error (heap w') r = Some comp
        /\ dvdt == 1
        /\ Forall2 (fun i o => floor_rule (2 * dvdt) i o
                               /\ floor_magnitude (2 * dvdt) i o)
                   [0; 3; -5] (HysteresisData.current comp).
Proof.
  assert (Hrun : exists r prv w',
             cCompensation (mkFilm 1 1 2 1) 0%nat (mkWorld [sample_with_zero] [])
             = (Ok (r, prv), w'))
    by (eexists _, _, _; vm_compute; reflexivity).
  destruct Hrun as (r & prv & w' & Hrun).
  destruct (cCompensation_floor _ _ _ _ _ _ Hrun)
    as (d & comp & q & dvdt & Hd & Hcomp & Hq & Hdvdt & Hall).
  exists r, prv, w'. split; [exact Hrun|]. exists comp, dvdt.
  split; [exact Hcomp|].
  simpl in Hd. inversion Hd; subst d.
  simpl in Hq. inversion Hq; subst q.
  simpl in Hdvdt. inversion Hdvdt; subst dvdt.
  split; [reflexivity|].
  eapply Forall2_impl; [|exact Hall].
  cbn [c]. intros i o [Hrule Hmag]. split; [exact Hrule|].
  apply Hmag. left. discriminate.
Defined.

(** With a negative capacitance the floor is negative: a sample of zero
    current stays zero, while [max(0, |0| - icap)] is [-icap], above zero. *)
Lemma cCompensation_negative_floor :
  exists r prv w' comp dvdt o,
    cCompensation (mkFilm 1 1 (-1) 1) 0%nat (mkWorld [sample_with_zero] [])
    = (Ok (r, prv), w')
    /\ nth_error (heap w') r = Some comp
    /\ Np.mean (map Qabs (Np.diff (HysteresisData.voltage sample_with_zero))) = Ok dvdt
    /\ nth_error (HysteresisData.current sample_with_zero) 0 = Some 0
    /\ nth_error (HysteresisData.current comp) 0 = Some o
    /\ ~ floor_magnitude (-1 * dvdt) 0 o.
Proof.
  eexists _, _, _, _, _, _.
  split; [vm_compute; reflexivity|].
  split; [reflexivity|].
  split; [reflexivity|].
  split; [reflexivity|].
  split; [reflexivity|].
  unfold floor_magnitude. vm_compute. intros H. discriminate H.
Qed.

(** ** The density of forc_calc *)

Lemma compressed_map (h : Q -> Q) (g : Ma.marray) :
  Ma.compressed (map (map (option_map h)) g) = map h (Ma.compressed g).
Proof.
  unfold Ma.compressed.
  induction g as [|r g IH]; [reflexivity|].
  cbn [map flat_map]. rewrite map_app, IH. f_equal.
  induction r as [|[x|] r IHr]; [reflexivity| |]; cbn [map flat_map option_map].
  - cbn [app]. now rewrite IHr.
  - exact IHr.
Qed.

Lemma true_divide_nonzero (g : Ma.marray) (s : Q) :
  ~ s == 0 ->
  Ma.true_divide g s = map (map (option_map (fun x => x / s))) g.
Proof.
  intros Hs. unfold Ma.true_divide.
  destruct (Qeq_bool s 0) eqn:E; [apply Qeq_bool_iff in E; contradiction|].
  apply map_ext. intros r. apply map_ext. now intros [x|].
Qed.

Lemma true_divide_zero (g : Ma.marray) (s : Q) :
  s == 0 -> Ma.compressed (Ma.true_divide g s) = [].
Proof.
  intros Hs. unfold Ma.true_divide, Ma.compressed.
  rewrite (proj2 (Qeq_bool_iff s 0) Hs).
  induction g as [|r g IH]; [reflexivity|].
  cbn [map flat_map]. rewrite IH, app_nil_r.
  induction r as [|[x|] r IHr]; [reflexivity| |]; exact IHr.
Qed.

Lemma sum_map_div (s : Q) (l : list Q) :
  Np.sum (map (fun x => x / s) l) == Np.sum l / s.
Proof.
  induction l as [|x l IH].
  - simpl. unfold Qdiv. ring.
  - change (Np.sum (map (fun x => x / s) (x :: l)))
      with (x / s + Np.sum (map (fun x => x / s) l)).
    change (Np.sum (x :: l)) with (x + Np.sum l).
    rewrite IH. unfold Qdiv. ring.
Qed.

Lemma sum_nonneg (l : list Q) : Forall (fun x => 0 <= x) l -> 0 <= Np.sum l.
Proof.
  induction 1 as [|x l Hx _ IH]; [apply Qle_refl|].
  change (Np.sum (x :: l)) with (x + Np.sum l). lra.
Qed.

Lemma normalize_density (dEdEr : Ma.marray) :
  Forall (fun x => 0 <= x) (Ma.compressed (HysteresisData.normalize dEdEr))
  /\ (~ Ma.sum (Ma.abs dEdEr) == 0 ->
      Ma.sum (HysteresisData.normalize dEdEr) == 1)
  /\ (Ma.sum (Ma.abs dEdEr) == 0 ->
      Ma.compressed (HysteresisData.normalize dEdEr) = []).
Proof.
  unfold HysteresisData.normalize.
  set (s := Ma.sum (Ma.abs dEdEr)).
  assert (Habs : Forall (fun x => 0 <= x) (Ma.compressed (Ma.abs dEdEr))).
  { unfold Ma.abs. rewrite compressed_map. apply Forall_map.
    apply Forall_forall. intros x _. apply Qabs_nonneg. }
  assert (Hs : 0 <= s) by (apply sum_nonneg; exact Habs).
  destruct (Qeq_dec s 0) as [Hz|Hnz].
  - rewrite (true_divide_zero _ _ Hz).
    split; [constructor|]. split; [contradiction | reflexivity].
  - rewrite true_divide_nonzero by exact Hnz.
    assert (Hpos : 0 < s).
    { destruct (Qle_lt_or_eq _ _ Hs) as [Hpos|He]; [exact Hpos|].
      symmetry in He. contradiction. }
    split; [|split; [|contradiction]].
    + rewrite compressed_map. apply Forall_map.
      eapply Forall_impl; [|exact Habs].
      intros x Hx. cbv beta in Hx. apply Qle_shift_div_l; [exact Hpos | lra].
    + intros _. unfold Ma.sum at 1. rewrite compressed_map, sum_map_div.
      fold (Ma.sum (Ma.abs dEdEr)). fold s. field. exact Hnz.
Qed.

Lemma forc_calc_normalized griddata gradient2 uniform_filter
      (self : HysteresisData.HysteresisData) (linear : bool)
      (filtIter : option nat) (filtDim : nat * nat)
      (uniformE uniformEr : list Q) (prob : Ma.marray) :
  HysteresisData.forc_calc griddata gradient2 uniform_filter
    self linear filtIter filtDim = Ok (uniformE, uniformEr, prob) ->
  exists dEdEr, prob = HysteresisData.normalize dEdEr.
Proof.
  unfold HysteresisData.forc_calc. intros H.
  repeat (apply bind_Ok in H as (? & _ & H); try match type of H with
          | context [match ?p with pair _ _ => _ end] => destruct p
          end).
  inversion H. eexists. reflexivity.
Qed.

(** C2, as amended.  The grid that [forc_calc] returns is the
    normalisation of a grid [dEdEr]: every cell that is not masked is at
    least 0; when the sum of [|dEdEr|] over the cells that are not masked is
    not zero, the returned density sums to 1 over its unmasked cells; when
    that sum is zero, the division masks every cell of the returned grid. *)
Theorem forc_calc_density :
  forall griddata gradient2 uniform_filter
         (self : HysteresisData.HysteresisData) (linear : bool)
         (filtIter : option nat) (filtDim : nat * nat)
         (uniformE uniformEr : list Q) (prob : Ma.marray),
    HysteresisData.forc_calc griddata gradient2 uniform_filter
      self linear filtIter filtDim = Ok (uniformE, uniformEr, prob) ->
    exists dEdEr,
      prob = HysteresisData.normalize dEdEr
      /\ Forall (fun x => 0 <= x) (Ma.compressed prob)
      /\ (~ Ma.sum (Ma.abs dEdEr) == 0 -> Ma.sum prob == 1)
      /\ (Ma.sum (Ma.abs dEdEr) == 0 -> Ma.compressed prob = []).
Proof.
  intros griddata gradient2 uniform_filter self linear filtIter filtDim
         uniformE uniformEr prob H.
  destruct (forc_calc_normalized _ _ _ _ _ _ _ _ _ _ H) as [dEdEr ->].
  exists dEdEr. split; [reflexivity|]. apply normalize_density.
Qed.

Lemma forc_calc_density_witness :
  exists uniformE uniformEr prob,
    HysteresisData.forc_calc Reference.griddata Reference.gradient2
      Reference.uniform_filter
      (forc_record [10; 11; 12; 13; 14; 15; 16; 17; 19; 19; 20; 21; 22])
      true None (1%nat, 1%nat)
    = Ok (uniformE, uniformEr, prob)
    /\ Forall (fun x => 0 <= x) (Ma.compressed prob)
    /\ Ma.sum prob == 1.
Proof.
  assert (H : exists uniformE uniformEr prob,
             HysteresisData.forc_calc Reference.griddata Reference.gradient2
               Reference.uniform_filter
               (forc_record [10; 11; 12; 13; 14; 15; 16; 17; 19; 19; 20; 21; 22])
               true None (1%nat, 1%nat)
             = Ok (uniformE, uniformEr, prob)
             /\ Ma.compressed prob <> []).
  { eexists _, _, _. split; [vm_compute; reflexivity|]. vm_compute. discriminate. }
  destruct H as (uniformE & uniformEr & prob & Hrun & Hne).
  destruct (forc_calc_density _ _ _ _ _ _ _ _ _ _ Hrun)
    as (dEdEr & _ & Hpos & Hsum & Hzero).
  exists uniformE, uniformEr, prob.
  split; [exact Hrun|]. split; [exact Hpos|].
  destruct (Qeq_dec (Ma.sum (Ma.abs dEdEr)) 0) as [Hz|Hnz].
  - exfalso. apply Hne, Hzero, Hz.
  - apply Hsum, Hnz.
Defined.

(** A record whose polarization does not change gives a grid without
    slope: the sum of [|dEdEr|] is zero, every cell of the density is
    masked, and the unmasked cells do not sum to 1. *)
Lemma forc_calc_density_zero_sum :
  exists uniformE uniformEr prob,
    HysteresisData.forc_calc Reference.griddata Reference.gradient2
      Reference.uniform_filter
      (forc_record [5; 5; 5; 5; 5; 5; 5; 5; 5; 5; 5; 5; 5])
      true None (1%nat, 1%nat)
    = Ok (uniformE, uniformEr, prob)
    /\ length prob = 2%nat
    /\ Ma.compressed prob = []
    /\ ~ Ma.sum prob == 1.
Proof.
  eexists _, _, _. split; [vm_compute; reflexivity|].
  split; [reflexivity|]. split; [vm_compute; reflexivity|].
  vm_compute. intros H. discriminate H.
Qed.

(** ** domainGen *)

(** Inverting the cumulative distribution at [u] never lands on a cell of
    probability zero. *)
Lemma searchsorted_right_support (D u : Q) :
  forall (p : list Q) (acc : Q),
    Forall (fun x => 0 <= x) p ->
    acc / D <= u ->
    let j := NpLib.searchsorted_right
               (map (fun x => x / D) (NpLib.cumsum_from acc p)) u in
    (j < length p)%nat -> 0 < nth j p 0.
Proof.
  induction p as [|x p IH]; intros acc Hp Hacc j Hj; [simpl in Hj; lia|].
  inversion Hp as [|? ? Hx Hp']; subst.
  subst j. cbn [NpLib.cumsum_from map NpLib.searchsorted_right] in *.
  destruct (Qle_bool ((acc + x) / D) u) eqn:E.
  - apply Qle_bool_iff in E. cbn [nth].
    apply (IH (acc + x) Hp' E). simpl in Hj. lia.
  - apply Qle_bool_gt in E. cbn [nth].
    destruct (Qle_lt_or_eq _ _ Hx) as [Hpos|Hz]; [exact Hpos|].
    exfalso. apply (Qlt_irrefl u).
    eapply Qlt_le_trans; [exact E|].
    assert (Heq : (acc + x) / D == acc / D) by (rewrite <- Hz; unfold Qdiv; ring).
    rewrite Heq. exact Hacc.
Qed.

Lemma existsb_negative (p : list Q) :
  existsb (fun x => Np.Qltb x 0) p = false -> Forall (fun x => 0 <= x) p.
Proof.
  induction p as [|x p IH]; [constructor|].
  cbn [existsb]. intros H. apply orb_false_iff in H as [Hx Hp].
  constructor; [now apply Qltb_ge | now apply IH].
Qed.

Lemma choice_support (a p : list Q) (u x : Q) :
  0 <= u ->
  NpLib.choice a p u = Ok x ->
  exists j, nth_error a j = Some x /\ (j < length p)%nat /\ 0 < nth j p 0.
Proof.
  intros Hu H. unfold NpLib.choice in H.
  destruct a as [|a0 a']; [discriminate|]. remember (a0 :: a') as a eqn:Ea.
  destruct (Nat.eqb_spec (length a) (length p)) as [Hlen|_]; [|discriminate].
  cbn [negb] in H.
  destruct (existsb (fun x => Np.Qltb x 0) p) eqn:Hneg; [discriminate|].
  destruct (negb (Qeq_bool (Np.sum p) 1)); [discriminate|].
  unfold get_item in H.
  set (j := NpLib.searchsorted_right _ u) in H.
  destruct (nth_error a j) as [y|] eqn:Hj; [|discriminate].
  inversion H; subst y. exists j.
  assert (Hlt : (j < length p)%nat)
    by (rewrite <- Hlen; apply nth_error_Some; congruence).
  split; [exact Hj|]. split; [exact Hlt|].
  apply (searchsorted_right_support (last (NpLib.cumsum p) 0) u p 0).
  - now apply existsb_negative.
  - unfold Qdiv. rewrite Qmult_0_l. exact Hu.
  - exact Hlt.
Qed.

Lemma index_array_nth (n j : nat) (x : Q) :
  nth_error (index_array n) j = Some x -> Z.to_nat (NpLib.int x) = j.
Proof.
  unfold index_array. intros H.
  rewrite nth_error_map in H.
  destruct (nth_error (seq 0 n) j) as [k|] eqn:Hk; [|discriminate].
  assert (Hlt : (j < length (seq 0 n))%nat) by (apply nth_error_Some; congruence).
  rewrite (nth_error_nth' _ 0%nat Hlt) in Hk.
  rewrite length_seq in Hlt.
  rewrite seq_nth in Hk by exact Hlt. simpl in Hk, H.
  inversion Hk; subst k. inversion H; subst x.
  unfold NpLib.int, Np.of_nat. simpl. rewrite Z.quot_1_r. apply Nat2Z.id.
Qed.

(** A cell of a rectangular grid from its index in the flattened grid. *)
Lemma concat_nth_error {A : Type} (ncols : nat) :
  forall (g : list (list A)) (j : nat),
    (0 < ncols)%nat ->
    Forall (fun row => length row = ncols) g ->
    nth_error (concat g) j
    = match nth_error g (j / ncols) with
      | Some row => nth_error row (j mod ncols)
      | None => None
      end.
Proof.
  intros g j Hpos. revert j.
  induction g as [|row g IH]; intros j Hg.
  - simpl. now destruct (j / ncols)%nat; destruct j.
  - inversion Hg as [|? ? Hrow Hg']; subst. cbn [concat].
    destruct (Nat.lt_ge_cases j (length row)) as [Hlt|Hge].
    + rewrite nth_error_app1 by exact Hlt.
      rewrite Nat.div_small, Nat.mod_small by exact Hlt. reflexivity.
    + rewrite nth_error_app2 by exact Hge.
      rewrite (IH _ Hg').
      set (L := length row) in *.
      assert (Hd : (j / L = S ((j - L) / L))%nat).
      { replace j with ((j - L) + 1 * L)%nat at 1 by lia.
        rewrite Nat.div_add by lia. lia. }
      assert (Hm : (j mod L = (j - L) mod L)%nat).
      { replace j with ((j - L) + 1 * L)%nat at 1 by lia.
        apply Nat.Div0.mod_add. }
      rewrite Hd, Hm. reflexivity.
Qed.

Lemma concat_zero_cols {A : Type} (g : list (list A)) :
  Forall (fun row => length row = 0%nat) g -> concat g = [].
Proof.
  induction 1 as [|row g Hrow _ IH]; [reflexivity|].
  cbn [concat]. rewrite IH. destruct row; [reflexivity | discriminate].
Qed.

Lemma domainGen_draw_spec (self : LandauFilm) (e er : list Q) (prob : Ma.ndarray)
      (n : nat) (u : Q) (row : list Q) (d : LandauDomain) :
  0 <= u ->
  domainGen_draw self e er prob (index_array (length (concat prob))) (concat prob)
                 n u = Ok (row, d) ->
  exists j egrain ergrain,
    (j < length (concat prob))%nat
    /\ 0 < nth j (concat prob) 0
    /\ nth_error e (j mod Ma.shape1 prob) = Some egrain
    /\ nth_error er (j / Ma.shape1 prob) = Some ergrain
    /\ row = [egrain; ergrain; (egrain - ergrain) / 2; (egrain + ergrain) / 2]
    /\ d = LandauDomain_init self (area self / Np.of_nat n)
             ((egrain - ergrain) / 2) ((egrain + ergrain) / 2).
Proof.
  intros Hu H. unfold domainGen_draw in H.
  apply bind_Ok in H as (x & Hx & H).
  destruct (choice_support _ _ _ _ Hu Hx) as (j & Hj & Hlt & Hpos).
  rewrite (index_array_nth _ _ _ Hj) in H.
  destruct (Ma.shape1 prob =? 0)%nat; [discriminate|].
  apply bind_Ok in H as (egrain & He & H).
  apply bind_Ok in H as (ergrain & Her & H).
  inversion H; subst row d; clear H.
  exists j, egrain, ergrain.
  unfold get_item in He, Her.
  destruct (nth_error e _); [|discriminate].
  destruct (nth_error er _); [|discriminate].
  inversion He; inversion Her; subst. repeat split; assumption.
Qed.

Lemma domainGen_loop_spec (self : LandauFilm) (e er : list Q) (prob : Ma.ndarray)
      (n : nat) (rand : nat -> Q) :
  forall (todo i : nat) (domainList : list LandauDomain) (domains : list (list Q)),
    domainGen_loop self e er prob (index_array (length (concat prob)))
                   (concat prob) n rand i todo = Ok (domainList, domains) ->
    length domainList = todo
    /\ forall k d, nth_error domainList k = Some d ->
                   exists row,
                     domainGen_draw self e er prob
                       (index_array (length (concat prob))) (concat prob)
                       n (rand (i + k)%nat) = Ok (row, d)
                     /\ nth_error domains k = Some row.
Proof.
  induction todo as [|todo IH]; intros i domainList domains H; simpl in H.
  - inversion H; subst. split; [reflexivity|]. now intros [|k] d Hd.
  - apply bind_Ok in H as ([row d0] & Hdraw & H).
    apply bind_Ok in H as ([dl ds] & Hrest & H).
    inversion H; subst domainList domains; clear H.
    destruct (IH _ _ _ Hrest) as [Hlen Hall].
    split; [simpl; now rewrite Hlen|].
    intros [|k] d Hd; simpl in Hd.
    + inversion Hd; subst d0. exists row. now rewrite Nat.add_0_r.
    + destruct (Hall k d Hd) as (row' & H1 & H2).
      exists row'. split; [|exact H2].
      now replace (i + S k)%nat with (S i + k)%nat by lia.
Qed.

(** C6.  When [domainGen] returns, it returns [n] domains.  The [i]-th one
    comes from a flat index [j] of the grid flattened row by row, drawn where
    the probability is positive; in a rectangular grid that is the cell in
    row [j div n_cols] and column [j mod n_cols].  The domain has
    [E = e[j mod n_cols]], [Er = er[j div n_cols]], [ec = (E - Er) / 2],
    [ebias = (E + Er) / 2], the film area over [n] as its area and the [pr]
    of the film.  If one cell of a rectangular grid is the only one that is
    not zero, every domain has the [ec] and [ebias] of its coordinates. *)
Theorem domainGen_domains :
  forall (self : LandauFilm) (e er : list Q) (prob : Ma.marray) (n : nat)
         (rand : nat -> Q) (domainList : list LandauDomain)
         (domains : list (list Q)),
    (forall i, 0 <= rand i) ->
    domainGen self e er prob n rand = Ok (domainList, domains) ->
    let probm := Ma.filled prob 0 in
    let ncols := Ma.shape1 probm in
    length domainList = n
    /\ (forall i d,
          nth_error domainList i = Some d ->
          exists j egrain ergrain,
            (j < length (concat probm))%nat
            /\ 0 < nth j (concat probm) 0
            /\ (Forall (fun row => length row = ncols) probm ->
                exists row,
                  nth_error probm (j / ncols) = Some row
                  /\ nth_error row (j mod ncols) = Some (nth j (concat probm) 0))
            /\ nth_error e (j mod ncols) = Some egrain
            /\ nth_error er (j / ncols) = Some ergrain
            /\ d_ec d = (egrain - ergrain) / 2
            /\ d_ebias d = (egrain + ergrain) / 2
            /\ d_area d = area self / Np.of_nat n
            /\ d_pr d = pr self)
    /\ (forall r c,
          Forall (fun row => length row = ncols) probm ->
          single_cell probm r c ->
          forall d, In d domainList ->
                    exists egrain ergrain,
                      nth_error e c = Some egrain
                      /\ nth_error er r = Some ergrain
                      /\ d_ec d = (egrain - ergrain) / 2
                      /\ d_ebias d = (egrain + ergrain) / 2).
Proof.
  intros self e er prob n rand domainList domains Hrand H probm ncols.
  unfold domainGen in H. fold probm in H.
  destruct (domainGen_loop_spec _ _ _ _ _ _ _ _ _ _ H) as [Hlen Hall].
  assert (Hcell : forall j,
             (j < length (concat probm))%nat ->
             Forall (fun row => length row = ncols) probm ->
             exists row,
               nth_error probm (j / ncols) = Some row
               /\ nth_error row (j mod ncols) = Some (nth j (concat probm) 0)).
  { intros j Hj Hrect.
    assert (Hncols : (0 < ncols)%nat).
    { destruct (Nat.eq_0_gt_0_cases ncols) as [Hz|Hp]; [|exact Hp].
      exfalso. rewrite Hz in Hrect.
      rewrite (concat_zero_cols _ Hrect) in Hj. simpl in Hj. lia. }
    pose proof (concat_nth_error ncols probm j Hncols Hrect) as Hc.
    rewrite (nth_error_nth' _ 0 Hj) in Hc.
    destruct (nth_error probm (j / ncols)) as [row|]; [|discriminate].
    exists row. split; [reflexivity | now symmetry]. }
  assert (Hdom : forall i d,
             nth_error domainList i = Some d ->
             exists j egrain ergrain,
               (j < length (concat probm))%nat
               /\ 0 < nth j (concat probm) 0
               /\ nth_error e (j mod ncols) = Some egrain
               /\ nth_error er (j / ncols) = Some ergrain
               /\ d_ec d = (egrain - ergrain) / 2
               /\ d_ebias d = (egrain + ergrain) / 2
               /\ d_area d = area self / Np.of_nat n
               /\ d_pr d = pr self).
  { intros i d Hd. destruct (Hall i d Hd) as (row & Hdraw & _).
    destruct (domainGen_draw_spec _ _ _ _ _ _ _ _ (Hrand _) Hdraw)
      as (j & egrain & ergrain & H1 & H2 & H3 & H4 & _ & ->).
    exists j, egrain, ergrain. repeat split; assumption. }
  split; [exact Hlen|]. split.
  - intros i d Hd.
    destruct (Hdom i d Hd)
      as (j & egrain & ergrain & Hj & Hpos & He & Her & Hec & Heb & Ha & Hp).
    exists j, egrain, ergrain.
    split; [exact Hj|]. split; [exact Hpos|].
    split; [exact (Hcell j Hj)|]. repeat split; assumption.
  - intros r c Hrect Hsingle d Hin.
    apply In_nth_error in Hin as [i Hd].
    destruct (Hdom i d Hd)
      as (j & egrain & ergrain & Hj & Hpos & He & Her & Hec & Heb & _).
    destruct (Hcell j Hj Hrect) as (row & Hrow & Hcol).
    destruct (Hsingle _ _ _ _ Hrow Hcol) as [Hr Hc].
    { intros Hz. rewrite Hz in Hpos. now apply Qlt_irrefl in Hpos. }
    exists egrain, ergrain. rewrite <- Hr, <- Hc. repeat split; assumption.
Qed.

Lemma domainGen_domains_witness :
  (forall i, 0 <= Np.of_nat i / 4)
  /\ exists domainList domains,
      domainGen (mkFilm 1 6 0 1) [10; 20; 30] [1; 2] one_cell_grid 3
                (fun i => Np.of_nat i / 4) = Ok (domainList, domains)
      /\ length domainList = 3%nat
      /\ forall d, In d domainList ->
                   d_ec d = (30 - 2) / 2 /\ d_ebias d = (30 + 2) / 2.
Proof.
  assert (Hrand : forall i, 0 <= Np.of_nat i / 4).
  { intros i. apply Qle_shift_div_l; [reflexivity|].
    rewrite Qmult_0_l. unfold Np.of_nat. change 0 with (inject_Z 0).
    rewrite <- Zle_Qle. lia. }
  split; [exact Hrand|].
  assert (Hrun : exists domainList domains,
             domainGen (mkFilm 1 6 0 1) [10; 20; 30] [1; 2] one_cell_grid 3
                       (fun i => Np.of_nat i / 4) = Ok (domainList, domains))
    by (eexists _, _; vm_compute; reflexivity).
  destruct Hrun as (domainList & domains & Hrun).
  exists domainList, domains. split; [exact Hrun|].
  destruct (domainGen_domains _ _ _ _ _ _ _ _ Hrand Hrun) as (Hlen & _ & Hone).
  split; [exact Hlen|].
  intros d Hd.
  destruct (Hone 1%nat 2%nat) with (d := d) as (egrain & ergrain & He & Her & Hec & Heb).
  - repeat constructor.
  - intros r' c' row x Hrow Hx Hnz.
    destruct r' as [|[|[|r']]]; simpl in Hrow; try discriminate;
      inversion Hrow; subst row;
      destruct c' as [|[|[|[|c']]]]; simpl in Hx; try discriminate;
      inversion Hx; subst x; try (exfalso; apply Hnz; reflexivity).
    split; reflexivity.
  - exact Hd.
  - simpl in He, Her. inversion He; inversion Her; subst.
    split; assumption.
Defined.

(** ** cCalc: the least-squares line *)

Lemma sum_cons (x : Q) (l : list Q) : Np.sum (x :: l) = x + Np.sum l.
Proof. reflexivity. Qed.

Section Points.
Variable l : list (Q * Q).

Let n : Q := Np.of_nat (length l).







End Points.












(** ** The Preisach sweep *)

Lemma step_states_length (dir e : Q) :
  forall (domains : list LandauDomain) (state : list Q),
    length (step_states dir e domains state) = length state.
Proof.
  induction domains as [|d ds IH]; intros [|s ss]; simpl; try reflexivity.
  now rewrite IH.
Qed.

Lemma states_after_length (g : nat -> Q * Q) (domains : list LandauDomain)
      (state : list Q) (k : nat) :
  length (states_after g domains state k) = length state.
Proof.
  induction k as [|k IH]; simpl; [reflexivity|].
  now rewrite step_states_length.
Qed.

Lemma update_middle {A : Type} (done : list A) (s v : A) (ss : list A) :
  update (done ++ s :: ss) (length done) v = done ++ v :: ss.
Proof.
  unfold update.
  rewrite firstn_app, firstn_all, Nat.sub_diag, firstn_O, app_nil_r.
  rewrite skipn_app, skipn_all2 by lia.
  replace (S (length done) - length done)%nat with 1%nat by lia.
  reflexivity.
Qed.

(** The loop over the domains, with its in-place stores, is the rule
    applied to every domain. *)
Lemma domain_loop_spec (dir e : Q) :
  forall (domains : list LandauDomain) (done state : list Q) (pj : Q),
    (length domains <= length state)%nat ->
    domain_loop dir e (length done) domains (done ++ state) pj
    = Ok (done ++ step_states dir e domains state,
          net_charge_from pj domains (step_states dir e domains state)).
Proof.
  induction domains as [|d ds IH]; intros done state pj Hlen.
  - reflexivity.
  - destruct state as [|s ss]; [simpl in Hlen; lia|].
    simpl in Hlen.
    assert (Hset : forall v, set_item (done ++ s :: ss) (length done) v
                             = Ok (done ++ v :: ss)).
    { intros v. unfold set_item. rewrite update_middle.
      destruct (Nat.ltb_spec (length done) (length (done ++ s :: ss)));
        [reflexivity|].
      rewrite length_app in *. cbn [length] in *. lia. }
    assert (Hget : forall v, get_item (done ++ v :: ss) (length done) = Ok v).
    { intros v. unfold get_item.
      rewrite nth_error_app2, Nat.sub_diag by lia. reflexivity. }
    assert (Hstate1 :
              (if Np.Qltb 0 dir then
                 if Qle_bool (d_ec d + d_ebias d) e
                 then set_item (done ++ s :: ss) (length done) 1
                 else Ok (done ++ s :: ss)
               else if Np.Qltb dir 0 then
                 if Qle_bool e (- d_ec d + d_ebias d)
                 then set_item (done ++ s :: ss) (length done) (-1)
                 else Ok (done ++ s :: ss)
               else Ok (done ++ s :: ss))
              = Ok (done ++ hysteron dir e d s :: ss)).
    { unfold hysteron. rewrite !Hset.
      destruct (Np.Qltb 0 dir) eqn:Hup.
      - destruct (Qle_bool (d_ec d + d_ebias d) e); cbn [andb]; [reflexivity|].
        assert (Hdn : Np.Qltb dir 0 = false).
        { apply Qltb_ge. apply Qltb_lt in Hup. now apply Qlt_le_weak. }
        now rewrite Hdn.
      - cbn [andb].
        destruct (Np.Qltb dir 0); [|reflexivity].
        destruct (Qle_bool e (- d_ec d + d_ebias d)); reflexivity. }
    cbn [domain_loop]. rewrite Hstate1. cbn [bind]. rewrite Hget. cbn [bind].
    replace (done ++ hysteron dir e d s :: ss)
      with ((done ++ [hysteron dir e d s]) ++ ss)
      by (rewrite <- app_assoc; reflexivity).
    replace (S (length done)) with (length (done ++ [hysteron dir e d s]))
      by (rewrite length_app; simpl; lia).
    rewrite IH by lia.
    cbn [step_states]. rewrite <- app_assoc. reflexivity.
Qed.

Lemma sweep_loop_spec (g : nat -> Q * Q) (domains : list LandauDomain) :
  forall (k a : nat) (state : list Q),
    (length domains <= length state)%nat ->
    sweep_loop (map g (seq a k)) domains (states_after g domains state a)
    = Ok (map (fun j => net_charge domains (states_after g domains state (S j)))
              (seq a k),
          states_after g domains state (a + k)).
Proof.
  induction k as [|k IH]; intros a state Hlen.
  - simpl. now rewrite Nat.add_0_r.
  - cbn [seq map sweep_loop]. destruct (g a) as [e dir] eqn:Hg.
    pose proof (domain_loop_spec dir e domains []
                  (states_after g domains state a) 0) as Hstep.
    cbn [length app] in Hstep.
    rewrite Hstep by (rewrite states_after_length; exact Hlen).
    cbn [bind].
    assert (Hnext : step_states dir e domains (states_after g domains state a)
                    = states_after g domains state (S a))
      by (cbn [states_after]; now rewrite Hg).
    rewrite Hnext, (IH (S a) state Hlen). cbn [bind].
    now replace (S a + k)%nat with (a + S k)%nat by lia.
Qed.

Lemma combine_gradient (esweep : list Q) :
  combine esweep (map (Np.gradient_at esweep) (seq 0 (length esweep)))
  = map (fun j => (nth j esweep 0,
                   nth j (map (Np.gradient_at esweep) (seq 0 (length esweep))) 0))
        (seq 0 (length esweep)).
Proof.
  set (dirs := map (Np.gradient_at esweep) (seq 0 (length esweep))).
  assert (Hlen : length dirs = length esweep)
    by (unfold dirs; now rewrite length_map, length_seq).
  clearbody dirs. revert dirs Hlen.
  induction esweep as [|x l IH]; intros dirs Hlen; [reflexivity|].
  destruct dirs as [|y dirs]; [discriminate|].
  simpl in Hlen. injection Hlen as Hlen.
  cbn [length seq map combine nth]. f_equal.
  rewrite (IH dirs Hlen), <- seq_shift, map_map. reflexivity.
Qed.

(** The code runs the sweep of the specification. *)
Lemma calcEfePreisach_spec (self : LandauFilm) (esweep : list Q)
      (domains : list LandauDomain) (initState : init_state) (state : list Q) :
  initial_state domains initState = Ok state ->
  (length domains <= length state)%nat ->
  (2 <= length esweep)%nat ->
  ~ area self == 0 ->
  exists sweepDir,
    Np.gradient esweep = Ok sweepDir
    /\ sweepDir = map (Np.gradient_at esweep) (seq 0 (length esweep))
    /\ calcEfePreisach self esweep domains initState
       = Ok (preisach self esweep sweepDir domains state).
Proof.
  intros Hinit Hlen Hsweep Harea.
  exists (map (Np.gradient_at esweep) (seq 0 (length esweep))).
  assert (Hgrad : Np.gradient esweep
                  = Ok (map (Np.gradient_at esweep) (seq 0 (length esweep)))).
  { unfold Np.gradient.
    destruct (Nat.ltb_spec (length esweep) 2); [lia | reflexivity]. }
  split; [exact Hgrad|]. split; [reflexivity|].
  unfold calcEfePreisach. rewrite Hinit, Hgrad. cbn [bind].
  rewrite combine_gradient.
  set (g := fun j => (nth j esweep 0,
                      nth j (map (Np.gradient_at esweep) (seq 0 (length esweep))) 0)).
  pose proof (sweep_loop_spec g domains (length esweep) 0 state Hlen) as Hrun.
  cbn [states_after] in Hrun. rewrite Hrun. cbn [bind].
  unfold Np.div_scalar, preisach. fold g.
  destruct (Qeq_bool (area self) 0) eqn:E;
    [apply Qeq_bool_iff in E; contradiction|].
  destruct esweep as [|e0 rest]; [simpl in Hsweep; lia|].
  cbn [length seq map bind]. rewrite map_map. reflexivity.
Qed.

Lemma hysteron_rule (dir e : Q) (d : LandauDomain) (s : Q) :
  (0 < dir -> d_ec d + d_ebias d <= e -> hysteron dir e d s = 1)
  /\ (dir < 0 -> e <= - d_ec d + d_ebias d -> hysteron dir e d s = -1)
  /\ (~ (0 < dir /\ d_ec d + d_ebias d <= e) ->
      ~ (dir < 0 /\ e <= - d_ec d + d_ebias d) ->
      hysteron dir e d s = s).
Proof.
  unfold hysteron. split; [|split].
  - intros Hd He. apply Qltb_lt in Hd. apply Qle_bool_iff in He.
    now rewrite Hd, He.
  - intros Hd He.
    assert (Hup : Np.Qltb 0 dir = false)
      by (apply Qltb_ge; now apply Qlt_le_weak).
    apply Qltb_lt in Hd. apply Qle_bool_iff in He.
    now rewrite Hup, Hd, He.
  - intros Hnup Hndown.
    destruct (Np.Qltb 0 dir && Qle_bool (d_ec d + d_ebias d) e) eqn:E1.
    + exfalso. apply Hnup. apply andb_true_iff in E1 as [H1 H2].
      split; [now apply Qltb_lt | now apply Qle_bool_iff].
    + destruct (Np.Qltb dir 0 && Qle_bool e (- d_ec d + d_ebias d)) eqn:E2;
        [|reflexivity].
      exfalso. apply Hndown. apply andb_true_iff in E2 as [H1 H2].
      split; [now apply Qltb_lt | now apply Qle_bool_iff].
Qed.

Lemma increasing_nth (l : list Q) :
  increasing l ->
  forall i, (S i < length l)%nat -> nth i l 0 < nth (S i) l 0.
Proof.
  induction l as [|a [|b t] IH]; intros H i Hi; simpl in Hi; try lia.
  destruct H as [Hab Ht].
  destruct i as [|i]; [exact Hab|].
  change (nth (S i) (a :: b :: t) 0) with (nth i (b :: t) 0).
  change (nth (S (S i)) (a :: b :: t) 0) with (nth (S i) (b :: t) 0).
  apply (IH Ht). simpl. lia.
Qed.

Lemma nonincreasing_nth (l : list Q) :
  nonincreasing l ->
  forall i, (S i < length l)%nat -> nth (S i) l 0 <= nth i l 0.
Proof.
  induction l as [|a [|b t] IH]; intros H i Hi; simpl in Hi; try lia.
  destruct H as [Hab Ht].
  destruct i as [|i]; [exact Hab|].
  change (nth (S i) (a :: b :: t) 0) with (nth i (b :: t) 0).
  change (nth (S (S i)) (a :: b :: t) 0) with (nth (S i) (b :: t) 0).
  apply (IH Ht). simpl. lia.
Qed.

Lemma nth_pred_last (l : list Q) :
  l <> [] -> nth (length l - 1) l 0 = last l 0.
Proof.
  induction l as [|a [|b t] IH]; intros H; [congruence | reflexivity|].
  change (last (a :: b :: t) 0) with (last (b :: t) 0).
  rewrite <- IH by discriminate. simpl. now rewrite Nat.sub_0_r.
Qed.

Lemma Forall2_seq {A : Type} (R : Q -> A -> Prop) (f : nat -> A) :
  forall (l : list Q) (a : nat),
    (forall i, (i < length l)%nat -> R (nth i l 0) (f (a + i)%nat)) ->
    Forall2 R l (map f (seq a (length l))).
Proof.
  induction l as [|x l IH]; intros a H; [constructor|].
  cbn [length seq map]. constructor.
  - specialize (H 0%nat). rewrite Nat.add_0_r in H. apply H. simpl. lia.
  - apply IH. intros i Hi. specialize (H (S i)).
    rewrite Nat.add_succ_r in H. apply H. simpl. lia.
Qed.

Lemma firstn_skipn_app {A : Type} (l1 l2 : list A) (n : nat) :
  length l1 = n -> firstn n (l1 ++ l2) = l1 /\ skipn n (l1 ++ l2) = l2.
Proof.
  intros <-. split.
  - rewrite firstn_app, firstn_all, Nat.sub_diag, firstn_O. apply app_nil_r.
  - rewrite skipn_app, skipn_all, Nat.sub_diag. reflexivity.
Qed.

(** *** One domain with thresholds +1 and -1 on a rising, then falling
    sweep *)

Section SquareLoop.

Variable d : LandauDomain.
Variables (up down : list Q) (peak : Q).

Hypothesis Hec : d_ec d == 1.
Hypothesis Hebias : d_ebias d == 0.
Hypothesis Hup_ne : up <> [].
Hypothesis Hdown_ne : down <> [].
Hypothesis Hup : increasing (up ++ [peak]).
Hypothesis Hdown : nonincreasing (peak :: down).
Hypothesis Hpeak : 1 <= peak.
Hypothesis Hcross : 1 <= last up 0 \/ last up 0 < hd 0 down.

Let esweep : list Q := up ++ peak :: down.
Let m : nat := length up.
Let g : nat -> Q * Q :=
  fun j => (nth j esweep 0,
            nth j (map (Np.gradient_at esweep) (seq 0 (length esweep))) 0).

Lemma esweep_length : length esweep = (m + S (length down))%nat.
Proof.
  unfold esweep, m. rewrite length_app. reflexivity.
Qed.

Lemma m_pos : (0 < m)%nat.
Proof.
  unfold m. destruct up; [congruence | simpl; lia].
Qed.

Lemma down_pos : (0 < length down)%nat.
Proof.
  destruct down; [congruence | simpl; lia].
Qed.

Lemma rising (j : nat) : (j < m)%nat -> nth j esweep 0 < nth (S j) esweep 0.
Proof.
  intros Hj. unfold esweep.
  replace (up ++ peak :: down) with ((up ++ [peak]) ++ down)
    by (rewrite <- app_assoc; reflexivity).
  assert (Hl : length (up ++ [peak]) = S m)
    by (rewrite length_app; simpl; unfold m; lia).
  rewrite (app_nth1 (up ++ [peak]) down 0 (n := j)) by lia.
  rewrite (app_nth1 (up ++ [peak]) down 0 (n := S j)) by lia.
  apply increasing_nth; [exact Hup | lia].
Qed.

Lemma falling (j : nat) :
  (m <= j)%nat -> (S j < length esweep)%nat ->
  nth (S j) esweep 0 <= nth j esweep 0.
Proof.
  intros Hj Hlt. rewrite esweep_length in Hlt. unfold esweep.
  rewrite !app_nth2 by (fold m; lia). fold m.
  replace (S j - m)%nat with (S (j - m)) by lia.
  apply nonincreasing_nth; [exact Hdown | simpl; lia].
Qed.

Lemma at_peak : nth m esweep 0 = peak.
Proof.
  unfold esweep, m. apply nth_middle.
Qed.

Lemma before_peak : nth (m - 1) esweep 0 = last up 0.
Proof.
  pose proof m_pos as Hm. unfold esweep.
  rewrite app_nth1 by (fold m; lia).
  unfold m. now rewrite nth_pred_last.
Qed.

Lemma after_peak : nth (S m) esweep 0 = hd 0 down.
Proof.
  unfold esweep. rewrite app_nth2 by (fold m; lia). fold m.
  replace (S m - m)%nat with 1%nat by lia.
  destruct down; [congruence | reflexivity].
Qed.

Lemma direction (j : nat) :
  (j < length esweep)%nat -> snd (g j) = Np.gradient_at esweep j.
Proof.
  intros Hj. unfold g. cbn [snd].
  rewrite (nth_indep _ 0 (Np.gradient_at esweep 0%nat))
    by (rewrite length_map, length_seq; exact Hj).
  rewrite map_nth, seq_nth by exact Hj. reflexivity.
Qed.

Lemma direction_up (j : nat) : (j < m)%nat -> 0 < Np.gradient_at esweep j.
Proof.
  intros Hj. pose proof esweep_length as Hn. pose proof down_pos as Hd.
  unfold Np.gradient_at.
  destruct (Nat.eqb_spec j 0) as [->|Hj0].
  - pose proof (rising 0 Hj). lra.
  - destruct (Nat.eqb_spec j (length esweep - 1)) as [Hend|_]; [lia|].
    pose proof (rising (j - 1)) as H1. pose proof (rising j Hj) as H2.
    replace (S (j - 1)) with j in H1 by lia.
    replace (j + 1)%nat with (S j) by lia.
    specialize (H1 ltac:(lia)).
    apply Qlt_shift_div_l; lra.
Qed.

(** At the turning point the central difference compares the sample
    after it with the sample before it. *)
Lemma direction_peak :
  Np.gradient_at esweep m == (hd 0 down - last up 0) / 2.
Proof.
  pose proof m_pos as Hm. pose proof esweep_length as Hn.
  pose proof down_pos as Hd.
  unfold Np.gradient_at.
  destruct (Nat.eqb_spec m 0) as [H0|_]; [lia|].
  destruct (Nat.eqb_spec m (length esweep - 1)) as [Hend|_]; [lia|].
  replace (m + 1)%nat with (S m) by lia.
  rewrite after_peak, before_peak. reflexivity.
Qed.

(** After the turning point the direction is never positive, and where
    it is zero the sample repeats the one before it. *)
Lemma direction_down (j : nat) :
  (m < j)%nat -> (j < length esweep)%nat ->
  Np.gradient_at esweep j <= 0
  /\ (~ Np.gradient_at esweep j < 0 -> nth j esweep 0 == nth (j - 1) esweep 0).
Proof.
  intros Hj Hlt. pose proof m_pos as Hm.
  pose proof (falling (j - 1)) as H1.
  replace (S (j - 1)) with j in H1 by lia.
  specialize (H1 ltac:(lia) ltac:(lia)).
  unfold Np.gradient_at.
  destruct (Nat.eqb_spec j 0) as [->|Hj0]; [lia|].
  destruct (Nat.eqb_spec j (length esweep - 1)) as [Hend|Hend].
  - replace (length esweep - 1)%nat with j by lia.
    replace (length esweep - 2)%nat with (j - 1)%nat by lia.
    split; [lra|]. intros Hn. lra.
  - pose proof (falling j) as H2.
    replace (j + 1)%nat with (S j) by lia.
    specialize (H2 ltac:(lia) ltac:(lia)).
    split.
    + apply Qle_shift_div_r; lra.
    + intros Hn.
      assert (Hge : 0 <= (nth (S j) esweep 0 - nth (j - 1) esweep 0) / 2)
        by (apply Qnot_lt_le; exact Hn).
      assert (Hnum : 0 <= nth (S j) esweep 0 - nth (j - 1) esweep 0).
      { apply Qnot_lt_le. intros Hneg. apply (Qlt_not_le _ _ Hneg).
        setoid_replace (nth (S j) esweep 0 - nth (j - 1) esweep 0)
          with (2 * ((nth (S j) esweep 0 - nth (j - 1) esweep 0) / 2))
          by (field; discriminate).
        lra. }
      lra.
Qed.

Lemma hysteron_up (dir e s : Q) :
  0 < dir -> hysteron dir e d s = if Qle_bool 1 e then 1 else s.
Proof.
  intros Hd. unfold hysteron.
  rewrite (proj2 (Qltb_lt 0 dir) Hd).
  rewrite (proj2 (Qltb_ge dir 0)) by (now apply Qlt_le_weak).
  assert (E : d_ec d + d_ebias d == 1) by (rewrite Hec, Hebias; reflexivity).
  rewrite (Qleb_comp _ _ E e e (Qeq_refl e)).
  now destruct (Qle_bool 1 e).
Qed.

Lemma hysteron_not_up (dir e s : Q) :
  dir <= 0 ->
  hysteron dir e d s = if Np.Qltb dir 0 && Qle_bool e (-1) then -1 else s.
Proof.
  intros Hd. unfold hysteron.
  rewrite (proj2 (Qltb_ge 0 dir) Hd). cbn [andb].
  assert (E : - d_ec d + d_ebias d == -1) by (rewrite Hec, Hebias; reflexivity).
  rewrite (Qleb_comp e e (Qeq_refl e) _ _ E). reflexivity.
Qed.

Lemma hysteron_above (dir e : Q) : 1 <= e -> hysteron dir e d 1 = 1.
Proof.
  intros He. unfold hysteron.
  assert (E : - d_ec d + d_ebias d == -1) by (rewrite Hec, Hebias; reflexivity).
  destruct (Np.Qltb 0 dir && Qle_bool (d_ec d + d_ebias d) e); [reflexivity|].
  destruct (Np.Qltb dir 0); [|reflexivity].
  rewrite (Qleb_comp e e (Qeq_refl e) _ _ E).
  rewrite (proj2 (Qle_bool_gt e (-1))) by lra. reflexivity.
Qed.

Lemma up_phase (j : nat) :
  (j < m)%nat ->
  states_after g [d] [-1] (S j)
  = [if Qle_bool 1 (nth j esweep 0) then 1 else -1].
Proof.
  pose proof esweep_length as Hn.
  induction j as [|j IH]; intros Hj.
  - cbn [states_after step_states].
    rewrite direction by lia.
    rewrite hysteron_up by (apply direction_up; exact Hj). reflexivity.
  - change (states_after g [d] [-1] (S (S j)))
      with (step_states (snd (g (S j))) (fst (g (S j))) [d]
              (states_after g [d] [-1] (S j))).
    rewrite IH by lia. cbn [step_states].
    rewrite direction by lia.
    rewrite hysteron_up by (apply direction_up; exact Hj).
    change (fst (g (S j))) with (nth (S j) esweep 0).
    destruct (Qle_bool 1 (nth (S j) esweep 0)) eqn:E1; [reflexivity|].
    destruct (Qle_bool 1 (nth j esweep 0)) eqn:E0; [|reflexivity].
    exfalso. apply Qle_bool_iff in E0. apply Qle_bool_gt in E1.
    pose proof (rising j ltac:(lia)). lra.
Qed.

Lemma peak_step : states_after g [d] [-1] (S m) = [1].
Proof.
  pose proof m_pos as Hm. pose proof esweep_length as Hn.
  change (states_after g [d] [-1] (S m))
    with (step_states (snd (g m)) (fst (g m)) [d] (states_after g [d] [-1] m)).
  replace m with (S (m - 1)) at 3 by lia.
  rewrite up_phase by lia. cbn [step_states].
  change (fst (g m)) with (nth m esweep 0).
  rewrite at_peak, before_peak.
  destruct Hcross as [Hbefore|Hafter].
  - rewrite (proj2 (Qle_bool_iff 1 (last up 0)) Hbefore).
    now rewrite hysteron_above.
  - rewrite direction by lia.
    rewrite hysteron_up.
    + now rewrite (proj2 (Qle_bool_iff 1 peak) Hpeak).
    + rewrite direction_peak. apply Qlt_shift_div_l; lra.
Qed.

Lemma down_phase (k : nat) :
  (S (m + k) < length esweep)%nat ->
  states_after g [d] [-1] (S (S (m + k)))
  = [if Qle_bool (nth (S (m + k)) esweep 0) (-1) then -1 else 1].
Proof.
  induction k as [|k IH]; intros Hk.
  - change (states_after g [d] [-1] (S (S (m + 0))))
      with (step_states (snd (g (S (m + 0)))) (fst (g (S (m + 0)))) [d]
              (states_after g [d] [-1] (S (m + 0)))).
    rewrite Nat.add_0_r in *. rewrite peak_step. cbn [step_states].
    rewrite direction by lia.
    destruct (direction_down (S m)) as [Hdir Hflat]; [lia | lia |].
    rewrite hysteron_not_up by exact Hdir.
    change (fst (g (S m))) with (nth (S m) esweep 0).
    destruct (Qle_bool (nth (S m) esweep 0) (-1)) eqn:E1;
      [|now rewrite andb_false_r].
    destruct (Np.Qltb (Np.gradient_at esweep (S m)) 0) eqn:E2; [reflexivity|].
    exfalso. apply Qle_bool_iff in E1. apply Qltb_ge in E2.
    assert (Heq : nth (S m) esweep 0 == nth (S m - 1) esweep 0)
      by (apply Hflat; now apply Qle_not_lt).
    replace (S m - 1)%nat with m in Heq by lia.
    rewrite at_peak in Heq. lra.
  - change (states_after g [d] [-1] (S (S (m + S k))))
      with (step_states (snd (g (S (m + S k)))) (fst (g (S (m + S k)))) [d]
              (states_after g [d] [-1] (S (m + S k)))).
    replace (S (m + S k)) with (S (S (m + k))) in * by lia.
    rewrite IH by lia. cbn [step_states].
    rewrite direction by lia.
    destruct (direction_down (S (S (m + k)))) as [Hdir Hflat]; [lia | lia |].
    rewrite hysteron_not_up by exact Hdir.
    change (fst (g (S (S (m + k))))) with (nth (S (S (m + k))) esweep 0).
    replace (S (S (m + k)) - 1)%nat with (S (m + k)) in Hflat by lia.
    pose proof (falling (S (m + k)) ltac:(lia) ltac:(lia)) as Hfall.
    destruct (Qle_bool (nth (S (S (m + k))) esweep 0) (-1)) eqn:E1.
    + destruct (Np.Qltb (Np.gradient_at esweep (S (S (m + k)))) 0) eqn:E2;
        [reflexivity|]. cbn [andb].
      apply Qle_bool_iff in E1. apply Qltb_ge in E2.
      assert (Heq : nth (S (S (m + k))) esweep 0 == nth (S (m + k)) esweep 0)
        by (apply Hflat; now apply Qle_not_lt).
      rewrite (proj2 (Qle_bool_iff (nth (S (m + k)) esweep 0) (-1)))
        by (rewrite <- Heq; exact E1).
      reflexivity.
    + rewrite andb_false_r. apply Qle_bool_gt in E1.
      rewrite (proj2 (Qle_bool_gt (nth (S (m + k)) esweep 0) (-1))) by lra.
      reflexivity.
Qed.

End SquareLoop.

Lemma single_domain_output (self : LandauFilm) (d : LandauDomain) (s : Q) :
  d_pr d == 1 -> d_area d == area self -> ~ area self == 0 ->
  net_charge [d] [s] / area self == s.
Proof.
  intros Hpr Harea Hnz. unfold net_charge, net_charge_from. cbn [combine fold_left fst snd].
  rewrite Hpr, Harea. field. exact Hnz.
Qed.

(** Between the thresholds nothing switches. *)
Lemma quiet_states (d : LandauDomain) (g : nat -> Q * Q) (s0 : Q) :
  d_ec d == 1 -> d_ebias d == 0 ->
  forall k,
    (forall j, (j < k)%nat -> -1 < fst (g j) /\ fst (g j) < 1) ->
    states_after g [d] [s0] k = [s0].
Proof.
  intros Hec Hebias. induction k as [|k IH]; intros Hq; [reflexivity|].
  cbn [states_after]. rewrite IH by (intros j Hj; apply Hq; lia).
  cbn [step_states]. f_equal.
  destruct (Hq k ltac:(lia)) as [Hlo Hhi].
  apply hysteron_rule; intros [_ H]; rewrite Hec, Hebias in H; lra.
Qed.

(** C1, as amended.  (1) When the initial state covers the domains, the
    sweep has two samples or more and the film area is not zero,
    [calcEfePreisach] returns the sweep of the specification: with the
    direction of [np.gradient], at each step every domain follows the rule
    [hysteron], and the output is the net charge over the film area.
    (2) The rule sets +1 in a rising step at or above [ec + ebias], -1 in a
    falling step at or below [-ec + ebias], and keeps the state otherwise.
    (3) For one domain with [ec = 1], [ebias = 0], [pr = 1] and the area of
    the film, started at -1, take a sweep that rises strictly to a turning
    point at or above +1 and does not rise after it.  If a sample before
    the turning point is at or above +1, or the sample after the turning
    point lies above the sample before it (as when the turning point is
    sampled twice), the output is the square loop: +1 from the first rising
    sample at or above +1 on, -1 from the first falling sample at or below
    -1 on.  (4) On a sweep that stays strictly between -1 and +1 the output
    stays at the initial state. *)
Theorem calcEfePreisach_hysteresis :
  (forall (self : LandauFilm) (esweep : list Q) (domains : list LandauDomain)
          (initState : init_state) (state : list Q),
      initial_state domains initState = Ok state ->
      (length domains <= length state)%nat ->
      (2 <= length esweep)%nat ->
      ~ area self == 0 ->
      exists sweepDir,
        Np.gradient esweep = Ok sweepDir
        /\ calcEfePreisach self esweep domains initState
           = Ok (preisach self esweep sweepDir domains state))
  /\ (forall (dir e : Q) (d : LandauDomain) (s : Q),
         (0 < dir -> d_ec d + d_ebias d <= e -> hysteron dir e d s = 1)
         /\ (dir < 0 -> e <= - d_ec d + d_ebias d -> hysteron dir e d s = -1)
         /\ (~ (0 < dir /\ d_ec d + d_ebias d <= e) ->
             ~ (dir < 0 /\ e <= - d_ec d + d_ebias d) ->
             hysteron dir e d s = s))
  /\ (forall (self : LandauFilm) (d : LandauDomain) (up down : list Q) (peak : Q),
         d_ec d == 1 -> d_ebias d == 0 -> d_pr d == 1 ->
         d_area d == area self -> ~ area self == 0 ->
         up <> [] -> down <> [] ->
         increasing (up ++ [peak]) -> nonincreasing (peak :: down) ->
         1 <= peak ->
         1 <= last up 0 \/ last up 0 < hd 0 down ->
         exists p state,
           calcEfePreisach self (up ++ peak :: down) [d] PyNone = Ok (p, state)
           /\ square_loop up peak down p)
  /\ (forall (self : LandauFilm) (d : LandauDomain) (esweep : list Q)
             (initState : init_state) (s0 : Q),
         d_ec d == 1 -> d_ebias d == 0 -> d_pr d == 1 ->
         d_area d == area self -> ~ area self == 0 ->
         initial_state [d] initState = Ok [s0] ->
         (2 <= length esweep)%nat ->
         Forall (fun e => -1 < e /\ e < 1) esweep ->
         exists p,
           calcEfePreisach self esweep [d] initState = Ok (p, [s0])
           /\ length p = length esweep
           /\ Forall (fun q => q == s0) p).
Proof.
  split; [|split; [|split]].
  - intros self esweep domains initState state Hinit Hlen Hsweep Harea.
    destruct (calcEfePreisach_spec self esweep domains initState state
                Hinit Hlen Hsweep Harea) as (sweepDir & Hg & _ & Hrun).
    now exists sweepDir.
  - exact hysteron_rule.
  - intros self d up down peak Hec Hebias Hpr Hda Harea Hup_ne Hdown_ne
           Hup Hdown Hpeak Hcross.
    assert (Hn : length (up ++ peak :: down) = (S (length up) + length down)%nat)
      by (rewrite length_app; simpl; lia).
    assert (Hdn : (0 < length down)%nat)
      by (destruct down; [congruence | simpl; lia]).
    destruct (calcEfePreisach_spec self (up ++ peak :: down) [d] PyNone [-1])
      as (sweepDir & _ & -> & Hrun);
      [reflexivity | simpl; lia | lia | exact Harea |].
    eexists _, _. split; [exact Hrun|].
    unfold preisach. cbn [fst].
    set (f := fun j => net_charge [d] (states_after _ [d] [-1] (S j)) / area self).
    rewrite Hn, seq_app, map_app.
    destruct (firstn_skipn_app (map f (seq 0 (S (length up))))
                (map f (seq (0 + S (length up)) (length down))) (S (length up)))
      as [Hfirst Hskip]; [now rewrite length_map, length_seq|].
    unfold square_loop. rewrite Hfirst, Hskip. split.
    + replace (S (length up)) with (length (up ++ [peak]))
        by (rewrite length_app; simpl; lia).
      apply Forall2_seq. intros i Hi.
      rewrite length_app in Hi. simpl in Hi. cbn [Nat.add].
      assert (Hnth : nth i (up ++ [peak]) 0 = nth i (up ++ peak :: down) 0).
      { replace (up ++ peak :: down) with ((up ++ [peak]) ++ down)
          by (rewrite <- app_assoc; reflexivity).
        symmetry. apply app_nth1. rewrite length_app. simpl. lia. }
      rewrite Hnth. unfold f.
      destruct (Nat.eq_dec i (length up)) as [->|Hne].
      * rewrite (peak_step d up down peak) by assumption.
        rewrite single_domain_output by assumption.
        rewrite (at_peak up down peak).
        now rewrite (proj2 (Qle_bool_iff 1 peak) Hpeak).
      * rewrite (up_phase d up down peak) by (try assumption; lia).
        rewrite single_domain_output by assumption. reflexivity.
    + apply Forall2_seq. intros i Hi.
      assert (Hnth : nth i down 0
                     = nth (S (length up + i)) (up ++ peak :: down) 0).
      { rewrite app_nth2 by lia.
        replace (S (length up + i) - length up)%nat with (S i) by lia.
        reflexivity. }
      rewrite Hnth. unfold f.
      replace (0 + S (length up) + i)%nat with (S (length up + i)) by lia.
      rewrite (down_phase d up down peak) by (try assumption; rewrite Hn; lia).
      rewrite single_domain_output by assumption. reflexivity.
  - intros self d esweep initState s0 Hec Hebias Hpr Hda Harea Hinit Hsweep Hq.
    destruct (calcEfePreisach_spec self esweep [d] initState [s0])
      as (sweepDir & _ & -> & Hrun);
      [exact Hinit | simpl; lia | exact Hsweep | exact Harea |].
    unfold preisach in Hrun.
    set (g := fun j => (nth j esweep 0, _)) in Hrun.
    assert (Hquiet : forall k, (k <= length esweep)%nat ->
                               states_after g [d] [s0] k = [s0]).
    { intros k Hk. apply quiet_states; [exact Hec | exact Hebias|].
      intros j Hj. unfold g. cbn [fst].
      rewrite Forall_forall in Hq. apply Hq, nth_In. lia. }
    rewrite (Hquiet (length esweep) (Nat.le_refl _)) in Hrun.
    eexists. split; [exact Hrun|].
    split; [now rewrite length_map, length_seq|].
    apply Forall_forall. intros q Hin.
    apply in_map_iff in Hin as (j & <- & Hj). apply in_seq in Hj.
    rewrite Hquiet by lia. now apply single_domain_output.
Qed.

Lemma calcEfePreisach_hysteresis_witness :
  increasing ([-2; 0] ++ [2])
  /\ nonincreasing (2 :: [2; 0; -2])
  /\ (1 <= last [-2; 0] 0 \/ last [-2; 0] 0 < hd 0 [2; 0; -2])
  /\ exists p state,
      calcEfePreisach unit_film ([-2; 0] ++ 2 :: [2; 0; -2])
        [unit_domain] PyNone = Ok (p, state)
      /\ square_loop [-2; 0] 2 [2; 0; -2] p.
Proof.
  assert (Hup : increasing ([-2; 0] ++ [2]))
    by (simpl; repeat split; reflexivity).
  assert (Hdown : nonincreasing (2 :: [2; 0; -2]))
    by (simpl; repeat split; discriminate).
  assert (Hcross : 1 <= last [-2; 0] 0 \/ last [-2; 0] 0 < hd 0 [2; 0; -2])
    by (right; reflexivity).
  split; [exact Hup|]. split; [exact Hdown|]. split; [exact Hcross|].
  apply (proj1 (proj2 (proj2 calcEfePreisach_hysteresis)) unit_film unit_domain
           [-2; 0] [2; 0; -2] 2);
    try reflexivity; try discriminate; assumption.
Defined.

(** A sweep from -2 to +2 and back in steps of 2, with the turning point
    sampled once, passes +1 between two samples and turns at +2, where the
    central difference is zero: the domain never switches and the output
    stays at -1. *)
Lemma calcEfePreisach_coarse_sweep :
  increasing ([-2; 0] ++ [2])
  /\ nonincreasing (2 :: [0; -2])
  /\ exists p state,
      calcEfePreisach unit_film ([-2; 0] ++ 2 :: [0; -2]) [unit_domain] PyNone
      = Ok (p, state)
      /\ Forall (fun q => q == -1) p
      /\ ~ square_loop [-2; 0] 2 [0; -2] p.
Proof.
  split; [simpl; repeat split; reflexivity|].
  split; [simpl; repeat split; discriminate|].
  eexists _, _. split; [vm_compute; reflexivity|].
  split; [repeat constructor|].
  intros [H _]. simpl in H.
  inversion H as [|? ? ? ? _ H1]; subst.
  inversion H1 as [|? ? ? ? _ H2]; subst.
  inversion H2 as [|? ? ? ? Hpeak _]; subst.
  discriminate Hpeak.
Qed.

(** * Further properties *)

(** ** The scan for reversal points *)

Lemma skipn_nth {A : Type} (l : list A) (i : nat) (d : A) :
  (i < length l)%nat -> skipn i l = nth i l d :: skipn (S i) l.
Proof.
  revert i. induction l as [|x l IH]; intros i Hi; simpl in Hi; [lia|].
  destruct i as [|i]; [reflexivity|].
  cbn [skipn nth]. apply IH. lia.
Qed.

Lemma get_item_nth {A : Type} (l : list A) (i : nat) (d : A) :
  (i < length l)%nat -> get_item l i = Ok (nth i l d).
Proof.
  intros Hi. unfold get_item. now rewrite (nth_error_nth' l d Hi).
Qed.

Lemma extrema_loop_scan (voltage : list Q) :
  forall (k i : nat) (mins maxs : list nat),
    (1 <= i)%nat ->
    (i + k = length voltage - 2)%nat ->
    HysteresisData.extrema_loop voltage i (skipn i voltage) mins maxs
    = Ok (mins ++ filter (strict_minimum voltage) (seq i k),
          maxs ++ filter (strict_maximum voltage) (seq i k)).
Proof.
  induction k as [|k IH]; intros i mins maxs Hi Hk.
  - rewrite (skipn_nth voltage i 0) by lia.
    cbn [HysteresisData.extrema_loop seq filter].
    destruct (Nat.eqb_spec i 0) as [E|_]; [lia|].
    replace (length voltage - 2)%nat with i by lia.
    rewrite Nat.eqb_refl, !app_nil_r. reflexivity.
  - rewrite (skipn_nth voltage i 0) by lia.
    cbn [HysteresisData.extrema_loop].
    destruct (Nat.eqb_spec i 0) as [E|_]; [lia|].
    destruct (Nat.eqb_spec i (length voltage - 2)) as [E|_]; [lia|].
    rewrite (get_item_nth voltage (i - 1) 0), (get_item_nth voltage (i + 1) 0)
      by lia.
    cbn [bind]. rewrite IH by lia.
    cbn [seq filter]. unfold strict_minimum at 2, strict_maximum at 2.
    destruct (Np.Qltb (nth i voltage 0) (nth (i - 1) voltage 0)
              && Np.Qltb (nth i voltage 0) (nth (i + 1) voltage 0));
      destruct (Np.Qltb (nth (i - 1) voltage 0) (nth i voltage 0)
                && Np.Qltb (nth (i + 1) voltage 0) (nth i voltage 0));
      rewrite <- ?app_assoc; reflexivity.
Qed.

Lemma find_extrema_filter (voltage : list Q) :
  length voltage <> 2%nat ->
  HysteresisData.find_extrema voltage
  = Ok (filter (strict_minimum voltage) (seq 1 (length voltage - 3)),
        filter (strict_maximum voltage) (seq 1 (length voltage - 3))).
Proof.
  intros Hlen. unfold HysteresisData.find_extrema.
  destruct voltage as [|v0 [|v1 [|v2 rest]]]; try reflexivity.
  - simpl in Hlen. lia.
  - change (HysteresisData.extrema_loop (v0 :: v1 :: v2 :: rest) 0
              (v0 :: v1 :: v2 :: rest) [] [])
      with (HysteresisData.extrema_loop (v0 :: v1 :: v2 :: rest) 1
              (skipn 1 (v0 :: v1 :: v2 :: rest)) [] []).
    rewrite (extrema_loop_scan _ (length (v0 :: v1 :: v2 :: rest) - 3) 1)
      by (simpl; lia).
    reflexivity.
Qed.

(** X1.  On a record that does not have exactly two samples the scan
    returns, in increasing order, the indices from 1 to [len - 3] at which
    the voltage lies strictly below both neighbours, and those at which it
    lies strictly above both: the first sample and the last two are never
    candidates. *)
Theorem find_extrema_interior_extrema :
  forall (voltage : list Q),
    length voltage <> 2%nat ->
    exists minimaIndex maximaIndex,
      HysteresisData.find_extrema voltage = Ok (minimaIndex, maximaIndex)
      /\ minimaIndex
         = filter (strict_minimum voltage) (seq 1 (length voltage - 3))
      /\ maximaIndex
         = filter (strict_maximum voltage) (seq 1 (length voltage - 3))
      /\ (forall i, In i minimaIndex <->
                    (1 <= i <= length voltage - 3)%nat
                    /\ nth i voltage 0 < nth (i - 1) voltage 0
                    /\ nth i voltage 0 < nth (i + 1) voltage 0)
      /\ (forall i, In i maximaIndex <->
                    (1 <= i <= length voltage - 3)%nat
                    /\ nth (i - 1) voltage 0 < nth i voltage 0
                    /\ nth (i + 1) voltage 0 < nth i voltage 0).
Proof.
  intros voltage Hlen. eexists _, _.
  split; [exact (find_extrema_filter voltage Hlen)|].
  split; [reflexivity|]. split; [reflexivity|].
  split; intros i; rewrite filter_In, in_seq;
    unfold strict_minimum, strict_maximum;
    rewrite andb_true_iff, !Qltb_lt; split.
  - intros [Hi H]. split; [lia | exact H].
  - intros [Hi H]. split; [lia | exact H].
  - intros [Hi H]. split; [lia | exact H].
  - intros [Hi H]. split; [lia | exact H].
Qed.

Lemma find_extrema_interior_extrema_witness :
  length [2; 3; 2; 1; 2; 3; 1; 0; 1; 3; 2; 2; 2] <> 2%nat
  /\ exists minimaIndex maximaIndex,
      HysteresisData.find_extrema [2; 3; 2; 1; 2; 3; 1; 0; 1; 3; 2; 2; 2]
      = Ok (minimaIndex, maximaIndex)
      /\ minimaIndex = [3; 7]%nat
      /\ maximaIndex = [1; 5; 9]%nat.
Proof.
  assert (Hlen : length [2; 3; 2; 1; 2; 3; 1; 0; 1; 3; 2; 2; 2] <> 2%nat)
    by (simpl; lia).
  split; [exact Hlen|].
  destruct (find_extrema_interior_extrema
              [2; 3; 2; 1; 2; 3; 1; 0; 1; 3; 2; 2; 2] Hlen)
    as (minimaIndex & maximaIndex & Hrun & Hmin & Hmax & _).
  exists minimaIndex, maximaIndex.
  split; [exact Hrun|]. split; [rewrite Hmin | rewrite Hmax]; reflexivity.
Defined.

(** Two neighbouring samples cannot both be strict minima: a record of
    fewer than six samples has fewer than two. *)
Lemma short_record_minima (voltage : list Q) :
  (length voltage < 6)%nat ->
  (length (filter (strict_minimum voltage) (seq 1 (length voltage - 3))) < 2)%nat.
Proof.
  intros Hlen.
  destruct voltage as [|a [|b [|c0 [|d [|e [|f rest]]]]]];
    try (simpl; lia); try (simpl in Hlen; lia).
  - cbn [length Nat.sub seq filter].
    destruct (strict_minimum [a; b; c0; d] 1); simpl; lia.
  - cbn [length Nat.sub seq filter].
    destruct (strict_minimum [a; b; c0; d; e] 1) eqn:E1;
      destruct (strict_minimum [a; b; c0; d; e] 2) eqn:E2;
      try (simpl; lia).
    unfold strict_minimum in E1, E2. cbn [nth Nat.sub Nat.add] in E1, E2.
    apply andb_true_iff in E1 as [_ E1]. apply andb_true_iff in E2 as [E2 _].
    apply Qltb_lt in E1, E2. lra.
Qed.

(** X2.  A record of fewer than six samples never reaches the gridding:
    with exactly two samples the scan reads past the end of the voltage
    array and the call ends in an IndexError, with any other length below
    six the scan finds fewer than two minima and the call raises the
    ValueError of [forc_calc]. *)
Theorem forc_calc_short_record :
  forall griddata gradient2 uniform_filter
         (self : HysteresisData.HysteresisData) (linear : bool)
         (filtIter : option nat) (filtDim : nat * nat),
    (length (HysteresisData.voltage self) < 6)%nat ->
    HysteresisData.forc_calc griddata gradient2 uniform_filter
      self linear filtIter filtDim
    = if (length (HysteresisData.voltage self) =? 2)%nat
      then Raise index_error
      else Raise two_minima_error.
Proof.
  intros griddata gradient2 uniform_filter self linear filtIter filtDim Hlen.
  unfold HysteresisData.forc_calc, HysteresisData.forc_spans.
  destruct (Nat.eqb_spec (length (HysteresisData.voltage self)) 2) as [E|E].
  - destruct (HysteresisData.voltage self) as [|a [|b [|c0 rest]]];
      try discriminate E. reflexivity.
  - rewrite (find_extrema_filter _ E). cbn [bind].
    pose proof (short_record_minima _ Hlen) as Hmin.
    destruct (Nat.ltb_spec
                (length (filter (strict_minimum (HysteresisData.voltage self))
                           (seq 1 (length (HysteresisData.voltage self) - 3))))
                2) as [_|Hge]; [reflexivity | lia].
Qed.

Lemma forc_calc_short_record_witness :
  HysteresisData.forc_calc Reference.griddata Reference.gradient2
    Reference.uniform_filter
    (HysteresisData.mkHyst 1 1 300 100 1 [0; 1; 2; 3; 4] [0; -1; 0; -1; 0]
       [0; 0; 0; 0; 0] [0; 0; 0; 0; 0])
    true None (1%nat, 1%nat)
  = Raise two_minima_error.
Proof.
  apply (forc_calc_short_record Reference.griddata Reference.gradient2
           Reference.uniform_filter
           (HysteresisData.mkHyst 1 1 300 100 1 [0; 1; 2; 3; 4] [0; -1; 0; -1; 0]
              [0; 0; 0; 0; 0] [0; 0; 0; 0; 0])
           true None (1%nat, 1%nat)).
  simpl. lia.
Defined.

(** ** The axes of forc_calc *)







Lemma insert_nondecreasing (x : Q) (l : list Q) :
  nondecreasing l -> nondecreasing (NpLib.insert x l).
Proof.
  induction l as [|y t IH]; intros Hl; [exact I|].
  cbn [NpLib.insert]. destruct (Qle_bool x y) eqn:E.
  - apply Qle_bool_iff in E. split; assumption.
  - apply Qle_bool_gt in E.
    destruct t as [|z t'].
    + cbn [NpLib.insert]. split; [now apply Qlt_le_weak | exact I].
    + destruct Hl as [Hyz Ht]. specialize (IH Ht).
      cbn [NpLib.insert] in *. destruct (Qle_bool x z).
      * split; [now apply Qlt_le_weak | exact IH].
      * split; [exact Hyz | exact IH].
Qed.

Lemma sort_nondecreasing (l : list Q) : nondecreasing (NpLib.sort l).
Proof.
  unfold NpLib.sort. induction l as [|x t IH]; [exact I|].
  cbn [fold_right]. now apply insert_nondecreasing.
Qed.

Lemma unique_increasing (l : list Q) :
  nondecreasing l ->
  increasing (NpLib.unique l) /\ hd 0 (NpLib.unique l) == hd 0 l
  /\ (l <> [] -> NpLib.unique l <> []).
Proof.
  induction l as [|x t IH]; intros Hl; [now repeat split|].
  destruct t as [|y t']; [split; [exact I | split; [reflexivity | discriminate]]|].
  destruct Hl as [Hxy Ht]. destruct (IH Ht) as (Hinc & Hhd & Hne).
  change (NpLib.unique (x :: y :: t'))
    with (if Qeq_bool x y then NpLib.unique (y :: t')
          else x :: NpLib.unique (y :: t')).
  destruct (Qeq_bool x y) eqn:E.
  - apply Qeq_bool_iff in E. split; [exact Hinc|].
    split; [|intros _; apply Hne; discriminate].
    rewrite Hhd. cbn [hd]. now symmetry.
  - apply Qeq_bool_neq in E.
    split; [|split; [reflexivity | discriminate]].
    destruct (NpLib.unique (y :: t')) as [|z u] eqn:Eu;
      [exfalso; apply Hne; [discriminate | reflexivity]|].
    change (x < z /\ increasing (z :: u)).
    split; [|exact Hinc]. cbn [hd] in Hhd. rewrite Hhd.
    destruct (Qle_lt_or_eq _ _ Hxy) as [Hlt|Heq]; [exact Hlt | contradiction].
Qed.

Lemma insert_In (x y : Q) (l : list Q) :
  In y (NpLib.insert x l) -> y = x \/ In y l.
Proof.
  induction l as [|z t IH]; simpl.
  - intros [->|[]]. now left.
  - destruct (Qle_bool x z); simpl.
    + intros [->|H]; [now left | now right].
    + intros [->|H]; [right; now left|].
      destruct (IH H) as [->|Hin]; [now left | right; now right].
Qed.

Lemma sort_In (y : Q) (l : list Q) : In y (NpLib.sort l) -> In y l.
Proof.
  unfold NpLib.sort. induction l as [|x t IH]; simpl; [tauto|].
  intros H. apply insert_In in H as [->|H]; [now left | right; now apply IH].
Qed.

Lemma unique_In (y : Q) (l : list Q) : In y (NpLib.unique l) -> In y l.
Proof.
  induction l as [|x t IH]; [tauto|].
  destruct t as [|z t']; [tauto|].
  change (NpLib.unique (x :: z :: t'))
    with (if Qeq_bool x z then NpLib.unique (z :: t')
          else x :: NpLib.unique (z :: t')).
  destruct (Qeq_bool x z).
  - intros H. right. now apply IH.
  - intros [->|H]; [now left | right; now apply IH].
Qed.

Lemma linspace_ends (start stop : Q) (n : nat) :
  length (NpLib.linspace start stop (S (S n))) = S (S n)
  /\ hd 0 (NpLib.linspace start stop (S (S n))) == start
  /\ last (NpLib.linspace start stop (S (S n))) 0 == stop.
Proof.
  unfold NpLib.linspace.
  set (step := (stop - start) / Np.of_nat (S (S n) - 1)).
  split; [now rewrite length_map, length_seq|].
  split.
  - cbn [seq map hd]. unfold Np.of_nat. simpl. ring.
  - rewrite (seq_S (S n) 0), map_app. cbn [map]. rewrite last_last.
    unfold step. replace (S (S n) - 1)%nat with (0 + S n)%nat by lia.
    assert (Hpos : 0 < Np.of_nat (0 + S n)) by (apply of_nat_pos; lia).
    field. lra.
Qed.

Lemma div_scalar_Ok (a : list Q) (d : Q) (q : list Q) :
  Np.div_scalar a d = Ok q -> q = map (fun x => x / d) a.
Proof.
  unfold Np.div_scalar. destruct a as [|x t]; [now intros [= <-]|].
  destruct (Qeq_bool d 0); [discriminate|]. now intros [= <-].
Qed.

(** X4.  The axes that [forc_calc] returns: the field axis has 200 points
    and runs from the least to the greatest field of the reversal curves;
    the axis of reversal fields is strictly increasing, and each of its
    values is a reversal voltage of a curve over the thickness. *)
Theorem forc_calc_axes :
  forall griddata gradient2 uniform_filter
         (self : HysteresisData.HysteresisData) (linear : bool)
         (filtIter : option nat) (filtDim : nat * nat)
         (uniformE uniformEr : list Q) (prob : Ma.marray),
    HysteresisData.forc_calc griddata gradient2 uniform_filter
      self linear filtIter filtDim = Ok (uniformE, uniformEr, prob) ->
    exists spans emin emax,
      HysteresisData.forc_spans (HysteresisData.voltage self)
        (HysteresisData.polarization self) = Ok spans
      /\ NpLib.amin (map (fun v => v / HysteresisData.thickness self)
                         (flat_map HysteresisData.s_v spans)) = Ok emin
      /\ NpLib.amax (map (fun v => v / HysteresisData.thickness self)
                         (flat_map HysteresisData.s_v spans)) = Ok emax
      /\ length uniformE = 200%nat
      /\ hd 0 uniformE == emin
      /\ last uniformE 0 == emax
      /\ increasing uniformEr
      /\ Forall (fun er => exists vr,
                     In vr (flat_map HysteresisData.s_vr spans)
                     /\ er = vr / HysteresisData.thickness self)
                uniformEr.
Proof.
  intros griddata gradient2 uniform_filter self linear filtIter filtDim
         uniformE uniformEr prob H.
  unfold HysteresisData.forc_calc in H.
  apply bind_Ok in H as (spans & Hspans & H).
  apply bind_Ok in H as (eFORC & He & H).
  apply bind_Ok in H as (erFORC & Her & H).
  apply bind_Ok in H as (emin & Hmin & H).
  apply bind_Ok in H as (emax & Hmax & H).
  apply bind_Ok in H as (vmin & _ & H).
  apply bind_Ok in H as (vmax & _ & H).
  apply bind_Ok in H as (grid & _ & H).
  apply bind_Ok in H as (vr1 & _ & H).
  apply bind_Ok in H as (vr0 & _ & H).
  apply bind_Ok in H as (v1 & _ & H).
  apply bind_Ok in H as (v0 & _ & H).
  apply bind_Ok in H as ([dE dEr] & _ & H).
  apply bind_Ok in H as ([dEdE dEdEr] & _ & H).
  apply bind_Ok in H as (dEdEr' & _ & H).
  inversion H; subst uniformE uniformEr prob; clear H.
  apply div_scalar_Ok in He, Her. subst eFORC erFORC.
  exists spans, emin, emax.
  destruct (linspace_ends emin emax 198) as (Hlen & Hhd & Hlast).
  split; [exact Hspans|]. split; [exact Hmin|]. split; [exact Hmax|].
  split; [exact Hlen|]. split; [exact Hhd|]. split; [exact Hlast|].
  split.
  - apply unique_increasing, sort_nondecreasing.
  - apply Forall_forall. intros er Hin.
    apply unique_In, sort_In, in_map_iff in Hin as (vr & <- & Hvr).
    now exists vr.
Qed.

Lemma forc_calc_axes_witness :
  exists uniformE uniformEr prob,
    HysteresisData.forc_calc Reference.griddata Reference.gradient2
      Reference.uniform_filter
      (forc_record [10; 11; 12; 13; 14; 15; 16; 17; 19; 19; 20; 21; 22])
      true None (1%nat, 1%nat)
    = Ok (uniformE, uniformEr, prob)
    /\ length uniformE = 200%nat
    /\ hd 0 uniformE == 0
    /\ last uniformE 0 == 2
    /\ increasing uniformEr.
Proof.
  assert (H : exists uniformE uniformEr prob,
             HysteresisData.forc_calc Reference.griddata Reference.gradient2
               Reference.uniform_filter
               (forc_record [10; 11; 12; 13; 14; 15; 16; 17; 19; 19; 20; 21; 22])
               true None (1%nat, 1%nat)
             = Ok (uniformE, uniformEr, prob))
    by (eexists _, _, _; vm_compute; reflexivity).
  destruct H as (uniformE & uniformEr & prob & Hrun).
  destruct (forc_calc_axes _ _ _ _ _ _ _ _ _ _ Hrun)
    as (spans & emin & emax & Hspans & Hmin & Hmax & Hlen & Hhd & Hlast & Hinc & _).
  exists uniformE, uniformEr, prob.
  split; [exact Hrun|]. split; [exact Hlen|].
  assert (Hs : spans = [HysteresisData.mkSpan [2; 2] [1; 2] [13; 14];
                        HysteresisData.mkSpan [1; 1] [0; 1] [17; 19]]).
  { vm_compute in Hspans. now inversion Hspans. }
  subst spans. vm_compute in Hmin, Hmax.
  inversion Hmin; inversion Hmax; subst emin emax.
  split; [rewrite Hhd; reflexivity|]. split; [rewrite Hlast; reflexivity|].
  exact Hinc.
Defined.

(** ** Maxima, minima and running sums *)

Lemma fold_max_spec (t : list Q) :
  forall x : Q,
    let m := fold_left (fun m y => if Np.Qltb m y then y else m) t x in
    (m = x \/ In m t) /\ x <= m /\ Forall (fun y => y <= m) t.
Proof.
  induction t as [|y t IH]; intros x; cbn [fold_left].
  - split; [now left|]. split; [apply Qle_refl | constructor].
  - destruct (Np.Qltb x y) eqn:E.
    + apply Qltb_lt in E. destruct (IH y) as (Hin & Hle & Hall).
      split; [right; destruct Hin as [->|Hin]; [now left | now right]|].
      split; [lra|]. constructor; assumption.
    + apply Qltb_ge in E. destruct (IH x) as (Hin & Hle & Hall).
      split; [destruct Hin as [->|Hin]; [now left | right; now right]|].
      split; [exact Hle|]. constructor; [lra | exact Hall].
Qed.

Lemma fold_min_spec (t : list Q) :
  forall x : Q,
    let m := fold_left (fun m y => if Np.Qltb y m then y else m) t x in
    (m = x \/ In m t) /\ m <= x /\ Forall (fun y => m <= y) t.
Proof.
  induction t as [|y t IH]; intros x; cbn [fold_left].
  - split; [now left|]. split; [apply Qle_refl | constructor].
  - destruct (Np.Qltb y x) eqn:E.
    + apply Qltb_lt in E. destruct (IH y) as (Hin & Hle & Hall).
      split; [right; destruct Hin as [->|Hin]; [now left | now right]|].
      split; [lra|]. constructor; assumption.
    + apply Qltb_ge in E. destruct (IH x) as (Hin & Hle & Hall).
      split; [destruct Hin as [->|Hin]; [now left | right; now right]|].
      split; [exact Hle|]. constructor; [lra | exact Hall].
Qed.

Lemma max_of_spec (l : list Q) (m : Q) :
  Np.max_of l = Ok m -> In m l /\ Forall (fun y => y <= m) l.
Proof.
  destruct l as [|x t]; [discriminate|]. cbn [Np.max_of]. intros [= <-].
  destruct (fold_max_spec t x) as (Hin & Hle & Hall).
  split; [destruct Hin as [->|Hin]; [now left | now right]|].
  constructor; assumption.
Qed.

Lemma min_of_spec (l : list Q) (m : Q) :
  Np.min_of l = Ok m -> In m l /\ Forall (fun y => m <= y) l.
Proof.
  destruct l as [|x t]; [discriminate|]. cbn [Np.min_of]. intros [= <-].
  destruct (fold_min_spec t x) as (Hin & Hle & Hall).
  split; [destruct Hin as [->|Hin]; [now left | now right]|].
  constructor; assumption.
Qed.

Lemma min_le_max (l : list Q) (mx mn : Q) :
  Np.max_of l = Ok mx -> Np.min_of l = Ok mn -> mn <= mx.
Proof.
  intros Hmx Hmn.
  destruct (max_of_spec _ _ Hmx) as [Hin Hall].
  destruct (min_of_spec _ _ Hmn) as [_ Hall'].
  rewrite Forall_forall in Hall'. now apply Hall'.
Qed.

Lemma Qltb_shift (a b c0 : Q) : Np.Qltb (a - c0) (b - c0) = Np.Qltb a b.
Proof.
  apply eq_true_iff_eq. rewrite !Qltb_lt. split; intros H; lra.
Qed.

Lemma max_of_shift (l : list Q) (m c0 : Q) :
  Np.max_of l = Ok m -> Np.max_of (map (fun p => p - c0) l) = Ok (m - c0).
Proof.
  destruct l as [|x t]; [discriminate|]. cbn [Np.max_of map]. intros [= <-].
  f_equal. revert x. induction t as [|y t IH]; intros x; [reflexivity|].
  cbn [map fold_left]. rewrite Qltb_shift.
  destruct (Np.Qltb x y); apply IH.
Qed.

Lemma min_of_shift (l : list Q) (m c0 : Q) :
  Np.min_of l = Ok m -> Np.min_of (map (fun p => p - c0) l) = Ok (m - c0).
Proof.
  destruct l as [|x t]; [discriminate|]. cbn [Np.min_of map]. intros [= <-].
  f_equal. revert x. induction t as [|y t IH]; intros x; [reflexivity|].
  cbn [map fold_left]. rewrite Qltb_shift.
  destruct (Np.Qltb y x); apply IH.
Qed.

Lemma cumulate_steps (current : list Q) (dt area : Q) :
  forall (prev : Q) (i : nat),
    (i < length current)%nat ->
    nth i (HysteresisData.cumulate prev current dt area) 0
    = nth i (prev :: HysteresisData.cumulate prev current dt area) 0
      + nth i current 0 * dt / area.
Proof.
  induction current as [|x rest IH]; intros prev i Hi; simpl in Hi; [lia|].
  destruct i as [|i]; [reflexivity|].
  cbn [HysteresisData.cumulate nth].
  rewrite (IH (prev + x * dt / area) i) by lia. reflexivity.
Qed.

Lemma length_cumulate (current : list Q) (dt area : Q) :
  forall prev, length (HysteresisData.cumulate prev current dt area)
               = length current.
Proof.
  induction current as [|x rest IH]; intros prev; [reflexivity|].
  cbn [HysteresisData.cumulate length]. now rewrite IH.
Qed.

(** The charge integral starts at zero, skips the first current sample and
    adds [current[i] * dt / area] at every later one. *)
Lemma integrate_steps (current : list Q) (dt area : Q) (testpol : list Q) :
  HysteresisData.integrate current dt area = Ok testpol ->
  length testpol = length current
  /\ (current <> [] -> nth 0 testpol 0 = 0)
  /\ forall i, (S i < length current)%nat ->
               nth (S i) testpol 0
               = nth i testpol 0 + nth (S i) current 0 * dt / area.
Proof.
  unfold HysteresisData.integrate.
  destruct current as [|x [|y rest]].
  - intros [= <-]. split; [reflexivity|]. split; [congruence|].
    intros i Hi. simpl in Hi. lia.
  - intros [= <-]. split; [reflexivity|]. split; [reflexivity|].
    intros i Hi. simpl in Hi. lia.
  - destruct (Qeq_bool area 0); [discriminate|]. intros [= <-].
    split; [cbn [length]; now rewrite length_cumulate|].
    split; [reflexivity|].
    intros i Hi. cbn [length] in Hi.
    apply (cumulate_steps (y :: rest) dt area 0 i). cbn [length]. lia.
Qed.

(** ** What the compensation routines store *)

Lemma update_last {A : Type} (l : list A) (x y : A) :
  update (l ++ [x]) (length l) y = l ++ [y].
Proof. apply (update_middle l x y []). Qed.

(** A run of [cCompensation] that returns, step by step. *)
Lemma cCompensation_Ok (self : LandauFilm) (data r : ref) (prv : Q)
      (w w' : world HysteresisData.HysteresisData) :
  cCompensation self data w = (Ok (r, prv), w') ->
  exists d q dvdt testpol mx mn,
    nth_error (heap w) data = Some d
    /\ Np.div_scalar (Np.diff (HysteresisData.voltage d)) (HysteresisData.dt d)
       = Ok q
    /\ Np.mean (map Qabs q) = Ok dvdt
    /\ HysteresisData.integrate
         (map (compensate (c self * dvdt)) (HysteresisData.current d))
         (HysteresisData.dt d) (HysteresisData.area d) = Ok testpol
    /\ Np.max_of testpol = Ok mx
    /\ Np.min_of testpol = Ok mn
    /\ prv = (mx - mn) / 2
    /\ r = length (heap w)
    /\ w' = mkWorld
              (heap w
               ++ [HysteresisData.set_polarization
                     (map (fun p => p - (mx - (mx - mn) / 2)) testpol)
                     (HysteresisData.set_current
                        (map (compensate (c self * dvdt))
                             (HysteresisData.current d)) d)])
              (warnings w).
Proof.
  intros Hrun. unfold cCompensation in Hrun.
  apply bindM_Ok in Hrun as (compData & w1 & Hcopy & Hrun).
  apply deepcopy_Ok in Hcopy as (d & Hd & -> & ->).
  apply bindM_Ok in Hrun as (d' & w2 & Hd' & Hrun).
  apply deref_Ok in Hd' as [Hd' ->]. cbn [heap] in Hd'.
  assert (Hdata : (data < length (heap w))%nat)
    by (apply nth_error_Some; congruence).
  rewrite nth_error_app1, Hd in Hd' by exact Hdata. inversion Hd'; subst d'.
  lifted_step Hrun q Hq.
  lifted_step Hrun dvdt Hdvdt.
  apply bindM_Ok in Hrun as (u1 & w2 & Hm1 & Hrun).
  apply modify_Ok in Hm1 as (o1 & Ho1 & ->). cbn [heap warnings] in *.
  rewrite nth_error_last in Ho1. inversion Ho1; subst o1.
  rewrite update_last in Hrun.
  apply bindM_Ok in Hrun as (cd & w2 & Hcd & Hrun).
  apply deref_Ok in Hcd as [Hcd ->]. cbn [heap] in Hcd.
  rewrite nth_error_last in Hcd. inversion Hcd; subst cd.
  cbn [HysteresisData.set_current HysteresisData.current HysteresisData.dt
       HysteresisData.area] in Hrun.
  lifted_step Hrun testpol Htp.
  lifted_step Hrun mx Hmx.
  lifted_step Hrun mn Hmn.
  apply bindM_Ok in Hrun as (u2 & w2 & Hm2 & Hrun).
  apply modify_Ok in Hm2 as (o2 & Ho2 & ->). cbn [heap warnings] in *.
  rewrite nth_error_last in Ho2. inversion Ho2; subst o2.
  rewrite update_last in Hrun.
  unfold ret in Hrun. inversion Hrun; subst r prv w'; clear Hrun.
  exists d, q, dvdt, testpol, mx, mn. repeat split; assumption.
Qed.

(** A run of [leakage_compensation] on a fit model that returns. *)
Lemma leakage_compensation_Ok (self r : ref) (ld : HysteresisData.LeakageData)
      (w w' : world HysteresisData.HysteresisData) :
  HysteresisData.lcmParms ld <> [] ->
  HysteresisData.leakage_compensation self ld w = (Ok r, w') ->
  exists orig current1 current2 testpol mx mn,
    nth_error (heap w) self = Some orig
    /\ HysteresisData.subtract_leakage (HysteresisData.voltage orig)
         (HysteresisData.lcmParms ld) 0 (HysteresisData.current orig)
       = Ok current1
    /\ HysteresisData.subtract_mean current1 = Ok current2
    /\ HysteresisData.integrate current2 (HysteresisData.dt orig)
         (HysteresisData.area orig) = Ok testpol
    /\ Np.max_of testpol = Ok mx
    /\ Np.min_of testpol = Ok mn
    /\ r = length (heap w)
    /\ w' = mkWorld
              (heap w
               ++ [HysteresisData.set_polarization
                     (map (fun p => p - (mx - (mx - mn) / 2)) testpol)
                     (HysteresisData.set_current current2 orig)])
              (warnings w).
Proof.
  intros Hparms Hrun.
  unfold HysteresisData.leakage_compensation in Hrun.
  destruct (HysteresisData.lcmParms ld) as [|p0 parms] eqn:Eparms; [congruence|].
  apply bindM_Ok in Hrun as (compData & w1 & Hcopy & Hrun).
  apply deepcopy_Ok in Hcopy as (orig & Hself & -> & ->).
  apply bindM_Ok in Hrun as (me & w2 & Hme & Hrun).
  apply deref_Ok in Hme as [Hme ->]. cbn [heap] in Hme.
  assert (Hself' : (self < length (heap w))%nat)
    by (apply nth_error_Some; congruence).
  rewrite nth_error_app1, Hself in Hme by exact Hself'. inversion Hme; subst me.
  apply bindM_Ok in Hrun as (cd & w2 & Hcd & Hrun).
  apply deref_Ok in Hcd as [Hcd ->]. cbn [heap] in Hcd.
  rewrite nth_error_last in Hcd. inversion Hcd; subst cd.
  lifted_step Hrun current1 Hc1.
  lifted_step Hrun current2 Hc2.
  apply bindM_Ok in Hrun as (u1 & w2 & Hm1 & Hrun).
  apply modify_Ok in Hm1 as (o1 & Ho1 & ->). cbn [heap warnings] in *.
  rewrite nth_error_last in Ho1. inversion Ho1; subst o1.
  rewrite update_last in Hrun.
  lifted_step Hrun testpol Htp.
  lifted_step Hrun mx Hmx.
  lifted_step Hrun mn Hmn.
  apply bindM_Ok in Hrun as (u2 & w2 & Hm2 & Hrun).
  apply modify_Ok in Hm2 as (o2 & Ho2 & ->). cbn [heap warnings] in *.
  rewrite nth_error_last in Ho2. inversion Ho2; subst o2.
  rewrite update_last in Hrun.
  unfold ret in Hrun. inversion Hrun; subst r w'; clear Hrun.
  exists orig, current1, current2, testpol, mx, mn. repeat split; assumption.
Qed.

Lemma nth_shift (l : list Q) (c0 : Q) (i : nat) :
  (i < length l)%nat ->
  nth i (map (fun p => p - c0) l) 0 = nth i l 0 - c0.
Proof.
  intros Hi.
  rewrite (nth_indep _ 0 (0 - c0)) by (now rewrite length_map).
  apply (map_nth (fun p => p - c0)).
Qed.

(** The stored polarization is the charge integral moved to the middle of
    its range. *)
Lemma centred_integral (current testpol : list Q) (dt area mx mn : Q) :
  HysteresisData.integrate current dt area = Ok testpol ->
  Np.max_of testpol = Ok mx ->
  Np.min_of testpol = Ok mn ->
  let pol := map (fun p => p - (mx - (mx - mn) / 2)) testpol in
  length pol = length current
  /\ (exists mx', Np.max_of pol = Ok mx' /\ mx' == (mx - mn) / 2)
  /\ (exists mn', Np.min_of pol = Ok mn' /\ mn' == - ((mx - mn) / 2))
  /\ 0 <= (mx - mn) / 2
  /\ forall i, (S i < length current)%nat ->
               nth (S i) pol 0 - nth i pol 0
               == nth (S i) current 0 * dt / area.
Proof.
  intros Hint Hmx Hmn pol.
  destruct (integrate_steps _ _ _ _ Hint) as (Hlen & _ & Hstep).
  pose proof (min_le_max _ _ _ Hmx Hmn) as Hle.
  split; [unfold pol; now rewrite length_map|].
  split; [eexists; split; [apply max_of_shift; exact Hmx | field]|].
  split; [eexists; split; [apply min_of_shift; exact Hmn | field]|].
  split; [apply Qle_shift_div_l; [reflexivity | lra]|].
  intros i Hi. unfold pol.
  rewrite !nth_shift by lia. rewrite (Hstep i Hi). ring.
Qed.

(** X5.  The remanent polarization that [cCompensation] returns is half
    the range of the charge integral of the compensated current, and it is
    never negative.  The polarization stored in the returned sample is that
    integral centred: its maximum is [pr], its minimum [-pr], it has one
    value per current sample, and from each sample to the next it grows by
    [current[i] * dt / area], so the first current sample never counts. *)
Theorem cCompensation_remanent_polarization :
  forall (self : LandauFilm) (data r : ref) (prv : Q)
         (w w' : world HysteresisData.HysteresisData),
    cCompensation self data w = (Ok (r, prv), w') ->
    exists comp mx mn,
      nth_error (heap w') r = Some comp
      /\ 0 <= prv
      /\ Np.max_of (HysteresisData.polarization comp) = Ok mx
      /\ mx == prv
      /\ Np.min_of (HysteresisData.polarization comp) = Ok mn
      /\ mn == - prv
      /\ length (HysteresisData.polarization comp)
         = length (HysteresisData.current comp)
      /\ forall i,
          (S i < length (HysteresisData.current comp))%nat ->
          nth (S i) (HysteresisData.polarization comp) 0
          - nth i (HysteresisData.polarization comp) 0
          == nth (S i) (HysteresisData.current comp) 0
             * HysteresisData.dt comp / HysteresisData.area comp.
Proof.
  intros self data r prv w w' Hrun.
  destruct (cCompensation_Ok _ _ _ _ _ _ Hrun)
    as (d & q & dvdt & testpol & mx & mn & Hd & _ & _ & Hint & Hmx & Hmn
        & -> & -> & ->).
  destruct (centred_integral _ _ _ _ _ _ Hint Hmx Hmn)
    as (Hlen & (mx' & Hmx' & Emx) & (mn' & Hmn' & Emn) & Hpos & Hstep).
  eexists _, mx', mn'. cbn [heap].
  split; [apply nth_error_last|].
  cbn [HysteresisData.polarization HysteresisData.current HysteresisData.dt
       HysteresisData.area HysteresisData.set_polarization
       HysteresisData.set_current].
  repeat split; assumption.
Qed.

Lemma cCompensation_remanent_polarization_witness :
  exists r prv w' comp mx mn,
    cCompensation (mkFilm 1 1 1 1) 0%nat (mkWorld [square_current_sample] [])
    = (Ok (r, prv), w')
    /\ prv == 2
    /\ nth_error (heap w') r = Some comp
    /\ 0 <= prv
    /\ Np.max_of (HysteresisData.polarization comp) = Ok mx
    /\ mx == prv
    /\ Np.min_of (HysteresisData.polarization comp) = Ok mn
    /\ mn == - prv.
Proof.
  assert (Hrun : exists r prv w',
             cCompensation (mkFilm 1 1 1 1) 0%nat
               (mkWorld [square_current_sample] []) = (Ok (r, prv), w')
             /\ prv == 2)
    by (eexists _, _, _; split; [vm_compute; reflexivity | reflexivity]).
  destruct Hrun as (r & prv & w' & Hrun & Hprv).
  destruct (cCompensation_remanent_polarization _ _ _ _ _ _ Hrun)
    as (comp & mx & mn & Hcomp & Hpos & Hmx & Emx & Hmn & Emn & _).
  exists r, prv, w', comp, mx, mn. repeat split; assumption.
Defined.






Lemma bindM_Raise {Obj A B : Type} (m : M Obj A) (k : A -> M Obj B) w e w1 :
  m w = (Raise e, w1) -> (x <~ m ;; k x) w = (Raise e, w1).
Proof.
  unfold bindM. now intros ->.
Qed.

Lemma mean_abs_rate (voltage : list Q) (dt : Q) :
  (2 <= length voltage)%nat ->
  ~ dt == 0 ->
  exists q dvdt,
    Np.div_scalar (Np.diff voltage) dt = Ok q
    /\ Np.mean (map Qabs q) = Ok dvdt.
Proof.
  intros Hlen Hdt.
  destruct voltage as [|a [|b rest]]; try (simpl in Hlen; lia).
  cbn [Np.diff]. unfold Np.div_scalar.
  destruct (Qeq_bool dt 0) eqn:E; [apply Qeq_bool_iff in E; contradiction|].
  eexists _, _. split; reflexivity.
Qed.

(** X8.  A sample without current samples cannot be compensated: both
    routines make their copy, integrate nothing, and end in the ValueError
    of [max] on an empty sequence.  For [cCompensation] this is so once the
    voltage has two samples and [dt] is not zero; for [leakage_compensation]
    once the model has parameters. *)
Theorem compensation_empty_current :
  (forall (self : LandauFilm) (data : ref) (d : HysteresisData.HysteresisData)
          (w : world HysteresisData.HysteresisData),
      nth_error (heap w) data = Some d ->
      HysteresisData.current d = [] ->
      (2 <= length (HysteresisData.voltage d))%nat ->
      ~ HysteresisData.dt d == 0 ->
      exists msg w1,
        cCompensation self data w = (Raise (ValueError msg), w1))
  /\ (forall (self : ref) (ld : HysteresisData.LeakageData)
             (orig : HysteresisData.HysteresisData)
             (w : world HysteresisData.HysteresisData),
         nth_error (heap w) self = Some orig ->
         HysteresisData.current orig = [] ->
         HysteresisData.lcmParms ld <> [] ->
         exists msg w1,
           HysteresisData.leakage_compensation self ld w
           = (Raise (ValueError msg), w1)).
Proof.
  split.
  - intros self data d w Hd Hcur Hlen Hdt.
    destruct (mean_abs_rate _ _ Hlen Hdt) as (q & dvdt & Hq & Hdvdt).
    assert (Hdata : (data < length (heap w))%nat)
      by (apply nth_error_Some; congruence).
    unfold cCompensation.
    rewrite (bindM_eq _ _ _ _ _ (deepcopy_eq _ _ _ Hd)).
    erewrite bindM_eq
      by (apply deref_eq; cbn [heap]; rewrite nth_error_app1; eassumption).
    erewrite bindM_eq by (unfold lift; rewrite Hq; reflexivity).
    erewrite bindM_eq by (unfold lift; rewrite Hdvdt; reflexivity).
    erewrite bindM_eq by (apply modify_eq; cbn [heap]; apply nth_error_last).
    cbn [heap warnings]. rewrite update_last.
    erewrite bindM_eq by (apply deref_eq; cbn [heap]; apply nth_error_last).
    rewrite Hcur.
    cbn [map HysteresisData.set_current HysteresisData.current
         HysteresisData.integrate].
    erewrite bindM_eq by reflexivity.
    eexists _, _. apply bindM_Raise. reflexivity.
  - intros self ld orig w Hself Hcur Hparms.
    assert (Hself' : (self < length (heap w))%nat)
      by (apply nth_error_Some; congruence).
    unfold HysteresisData.leakage_compensation.
    destruct (HysteresisData.lcmParms ld) as [|p0 parms]; [congruence|].
    rewrite (bindM_eq _ _ _ _ _ (deepcopy_eq _ _ _ Hself)).
    erewrite bindM_eq
      by (apply deref_eq; cbn [heap]; rewrite nth_error_app1; eassumption).
    erewrite bindM_eq by (apply deref_eq; cbn [heap]; apply nth_error_last).
    rewrite Hcur. cbn [HysteresisData.subtract_leakage].
    erewrite bindM_eq by reflexivity.
    erewrite bindM_eq by reflexivity.
    erewrite bindM_eq by (apply modify_eq; cbn [heap]; apply nth_error_last).
    erewrite bindM_eq by reflexivity.
    eexists _, _. apply bindM_Raise. reflexivity.
Qed.

Lemma compensation_empty_current_witness :
  (exists msg w1,
      cCompensation (mkFilm 1 1 1 1) 0%nat
        (mkWorld [HysteresisData.mkHyst 1 1 300 100 1 [0; 1] [0; 1] [] []] [])
      = (Raise (ValueError msg), w1))
  /\ (exists msg w1,
         HysteresisData.leakage_compensation 0%nat linear_leakage
           (mkWorld [HysteresisData.mkHyst 1 1 300 100 1 [0; 1] [0; 1] [] []] [])
         = (Raise (ValueError msg), w1)).
Proof.
  split.
  - apply (proj1 compensation_empty_current (mkFilm 1 1 1 1) 0%nat
             (HysteresisData.mkHyst 1 1 300 100 1 [0; 1] [0; 1] [] [])
             (mkWorld [HysteresisData.mkHyst 1 1 300 100 1 [0; 1] [0; 1] [] []] [])).
    + reflexivity.
    + reflexivity.
    + simpl. lia.
    + discriminate.
  - apply (proj2 compensation_empty_current 0%nat linear_leakage
             (HysteresisData.mkHyst 1 1 300 100 1 [0; 1] [0; 1] [] [])
             (mkWorld [HysteresisData.mkHyst 1 1 300 100 1 [0; 1] [0; 1] [] []] [])).
    + reflexivity.
    + reflexivity.
    + discriminate.
Defined.

(** X9.  The polarization that [leakage_compensation] stores in the copy
    is the charge integral of the corrected current, centred: its maximum
    and its minimum are opposite, it has one value per current sample, and
    from each sample to the next it grows by [current[i] * dt / area] with
    the [dt] and the area of the sample. *)
Theorem leakage_compensation_polarization :
  forall (self r : ref) (ld : HysteresisData.LeakageData)
         (w w' : world HysteresisData.HysteresisData),
    HysteresisData.lcmParms ld <> [] ->
    HysteresisData.leakage_compensation self ld w = (Ok r, w') ->
    exists orig comp mx mn,
      nth_error (heap w) self = Some orig
      /\ nth_error (heap w') r = Some comp
      /\ Np.max_of (HysteresisData.polarization comp) = Ok mx
      /\ Np.min_of (HysteresisData.polarization comp) = Ok mn
      /\ mx + mn == 0
      /\ length (HysteresisData.polarization comp)
         = length (HysteresisData.current comp)
      /\ forall i,
          (S i < length (HysteresisData.current comp))%nat ->
          nth (S i) (HysteresisData.polarization comp) 0
          - nth i (HysteresisData.polarization comp) 0
          == nth (S i) (HysteresisData.current comp) 0
             * HysteresisData.dt orig / HysteresisData.area orig.
Proof.
  intros self r ld w w' Hparms Hrun.
  destruct (leakage_compensation_Ok _ _ _ _ _ Hparms Hrun)
    as (orig & current1 & current2 & testpol & mx & mn & Hself & _ & _
        & Hint & Hmx & Hmn & -> & ->).
  destruct (centred_integral _ _ _ _ _ _ Hint Hmx Hmn)
    as (Hlen & (mx' & Hmx' & Emx) & (mn' & Hmn' & Emn) & _ & Hstep).
  eexists orig, _, mx', mn'. cbn [heap].
  split; [exact Hself|]. split; [apply nth_error_last|].
  cbn [HysteresisData.polarization HysteresisData.current
       HysteresisData.set_polarization HysteresisData.set_current].
  split; [exact Hmx'|]. split; [exact Hmn'|].
  split; [rewrite Emx, Emn; ring|].
  split; assumption.
Qed.

Lemma leakage_compensation_polarization_witness :
  HysteresisData.lcmParms linear_leakage <> []
  /\ exists r w' comp mx mn,
      HysteresisData.leakage_compensation 0%nat linear_leakage
        (mkWorld [three_point_sample] []) = (Ok r, w')
      /\ nth_error (heap w') r = Some comp
      /\ Np.max_of (HysteresisData.polarization comp) = Ok mx
      /\ Np.min_of (HysteresisData.polarization comp) = Ok mn
      /\ mx + mn == 0.
Proof.
  assert (Hparms : HysteresisData.lcmParms linear_leakage <> [])
    by discriminate.
  split; [exact Hparms|].
  assert (Hrun : exists r w',
             HysteresisData.leakage_compensation 0%nat linear_leakage
               (mkWorld [three_point_sample] []) = (Ok r, w'))
    by (eexists _, _; vm_compute; reflexivity).
  destruct Hrun as (r & w' & Hrun).
  destruct (leakage_compensation_polarization _ _ _ _ _ Hparms Hrun)
    as (orig & comp & mx & mn & _ & Hcomp & Hmx & Hmn & Hsum & _).
  exists r, w', comp, mx, mn. repeat split; assumption.
Defined.

(** ** The offset of the leakage model *)









(** ** calcEfePreisach: the inputs it refuses *)

Lemma length_set_item {A : Type} (a a' : list A) (i : nat) (v : A) :
  set_item a i v = Ok a' -> length a' = length a.
Proof.
  unfold set_item. destruct (Nat.ltb_spec i (length a)) as [Hi|Hi];
    [|discriminate].
  intros [= <-]. now apply length_update.
Qed.

(** A state array shorter than the list of domains is read or written out
    of range. *)
Lemma domain_loop_short (dir e : Q) :
  forall (domains : list LandauDomain) (i : nat) (state : list Q) (pj : Q),
    (i <= length state)%nat ->
    (length state < i + length domains)%nat ->
    domain_loop dir e i domains state pj = Raise index_error.
Proof.
  induction domains as [|d rest IH]; intros i state pj Hi Hlen;
    [simpl in Hlen; lia|].
  cbn [domain_loop length] in *.
  set (state1 := if Np.Qltb 0 dir then _ else _).
  assert (Hs : (exists s1, state1 = Ok s1 /\ length s1 = length state)
               \/ state1 = Raise index_error).
  { subst state1.
    assert (Hset : forall v,
               (exists s1, set_item state i v = Ok s1
                           /\ length s1 = length state)
               \/ set_item state i v = Raise index_error).
    { intros v. destruct (set_item state i v) as [s1| |] eqn:E.
      - left. exists s1. split; [reflexivity|]. eapply length_set_item; eassumption.
      - right. unfold set_item in E.
        destruct (i <? length state)%nat; [discriminate | now rewrite <- E].
      - unfold set_item in E. destruct (i <? length state)%nat; discriminate. }
    destruct (Np.Qltb 0 dir).
    - destruct (Qle_bool (d_ec d + d_ebias d) e); [apply Hset|].
      left. now exists state.
    - destruct (Np.Qltb dir 0); [|left; now exists state].
      destruct (Qle_bool e (- d_ec d + d_ebias d)); [apply Hset|].
      left. now exists state. }
  destruct Hs as [(s1 & -> & Hl)| ->]; [|reflexivity].
  cbn [bind].
  destruct (get_item_cases s1 i) as [(s & Hs & ->)|[_ ->]]; [|reflexivity].
  cbn [bind].
  assert (Hlt : (i < length s1)%nat) by (apply nth_error_Some; congruence).
  apply IH; lia.
Qed.

Lemma gradient_Ok (esweep : list Q) :
  (2 <= length esweep)%nat ->
  Np.gradient esweep
  = Ok (map (Np.gradient_at esweep) (seq 0 (length esweep))).
Proof.
  intros H. unfold Np.gradient.
  destruct (Nat.ltb_spec (length esweep) 2); [lia | reflexivity].
Qed.

(** X11.  [calcEfePreisach] refuses three kinds of input.  A sweep of
    fewer than two samples ends in the ValueError of [np.gradient], before
    any domain is looked at.  An initial state with fewer entries than there
    are domains, as an array of one element for two domains, ends in an
    IndexError at the first step of the sweep.  A film of zero area divides
    the net charge by zero, and no finite polarization comes out. *)
Theorem calcEfePreisach_refused_inputs :
  (forall (self : LandauFilm) (esweep : list Q) (domains : list LandauDomain)
          (initState : init_state) (state : list Q),
      initial_state domains initState = Ok state ->
      (length esweep < 2)%nat ->
      calcEfePreisach self esweep domains initState = Raise gradient_error)
  /\ (forall (self : LandauFilm) (esweep : list Q) (domains : list LandauDomain)
             (initState : init_state) (state : list Q),
         initial_state domains initState = Ok state ->
         (length state < length domains)%nat ->
         (2 <= length esweep)%nat ->
         calcEfePreisach self esweep domains initState = Raise index_error)
  /\ (forall (self : LandauFilm) (esweep : list Q) (domains : list LandauDomain)
             (initState : init_state) (state : list Q),
         initial_state domains initState = Ok state ->
         (length domains <= length state)%nat ->
         (2 <= length esweep)%nat ->
         area self == 0 ->
         calcEfePreisach self esweep domains initState = NonFinite).
Proof.
  split; [|split].
  - intros self esweep domains initState state Hinit Hlen.
    unfold calcEfePreisach. rewrite Hinit. cbn [bind]. unfold Np.gradient.
    destruct (Nat.ltb_spec (length esweep) 2); [reflexivity | lia].
  - intros self esweep domains initState state Hinit Hshort Hlen.
    unfold calcEfePreisach. rewrite Hinit, (gradient_Ok _ Hlen). cbn [bind].
    destruct esweep as [|e0 rest]; [simpl in Hlen; lia|].
    cbn [length seq map combine sweep_loop].
    rewrite domain_loop_short by lia. reflexivity.
  - intros self esweep domains initState state Hinit Hcover Hlen Harea.
    unfold calcEfePreisach. rewrite Hinit, (gradient_Ok _ Hlen). cbn [bind].
    rewrite combine_gradient.
    set (g := fun j => (nth j esweep 0,
                        nth j (map (Np.gradient_at esweep)
                                   (seq 0 (length esweep))) 0)).
    pose proof (sweep_loop_spec g domains (length esweep) 0 state Hcover) as Hrun.
    cbn [states_after] in Hrun. rewrite Hrun. cbn [bind].
    destruct esweep as [|e0 rest]; [simpl in Hlen; lia|].
    cbn [length seq map]. unfold Np.div_scalar.
    now rewrite (Qeq_eq_bool _ _ Harea).
Qed.

Lemma calcEfePreisach_refused_inputs_witness :
  calcEfePreisach unit_film [0] [unit_domain] PyNone = Raise gradient_error
  /\ calcEfePreisach unit_film [-2; 0; 2] [unit_domain; unit_domain]
       (PyArray [1]) = Raise index_error
  /\ calcEfePreisach (mkFilm 1 0 0 1) [-2; 0; 2] [unit_domain] PyNone
     = NonFinite.
Proof.
  split; [|split].
  - apply (proj1 calcEfePreisach_refused_inputs unit_film [0] [unit_domain]
             PyNone [-1]); [reflexivity | simpl; lia].
  - apply (proj1 (proj2 calcEfePreisach_refused_inputs) unit_film [-2; 0; 2]
             [unit_domain; unit_domain] (PyArray [1]) [1]);
      [reflexivity | simpl; lia | simpl; lia].
  - apply (proj2 (proj2 calcEfePreisach_refused_inputs) (mkFilm 1 0 0 1)
             [-2; 0; 2] [unit_domain] PyNone [-1]);
      [reflexivity | simpl; lia | simpl; lia | reflexivity].
Defined.

(** ** Generated domains in the Preisach sweep *)

Lemma get_item_In {A : Type} (a : list A) (i : nat) (x : A) :
  get_item a i = Ok x -> In x a.
Proof.
  unfold get_item. destruct (nth_error a i) eqn:E; [|discriminate].
  intros [= <-]. eapply nth_error_In; exact E.
Qed.

Lemma domainGen_loop_drawn (self : LandauFilm) (e er : list Q) (prob : Ma.ndarray)
      (index probf : list Q) (n : nat) (rand : nat -> Q) :
  forall (todo i : nat) (domainList : list LandauDomain) (domains : list (list Q)),
    domainGen_loop self e er prob index probf n rand i todo
    = Ok (domainList, domains) ->
    length domainList = todo
    /\ Forall2 (drawn_from self e er n) domainList domains.
Proof.
  induction todo as [|todo IH]; intros i domainList domains H; simpl in H.
  - inversion H; subst. split; [reflexivity | constructor].
  - apply bind_Ok in H as ([row d0] & Hdraw & H).
    apply bind_Ok in H as ([dl ds] & Hrest & H).
    inversion H; subst domainList domains; clear H.
    destruct (IH _ _ _ Hrest) as [Hlen Hall].
    split; [simpl; now rewrite Hlen|].
    constructor; [|exact Hall].
    unfold domainGen_draw in Hdraw.
    apply bind_Ok in Hdraw as (x & _ & Hdraw).
    destruct (Ma.shape1 prob =? 0)%nat; [discriminate|].
    apply bind_Ok in Hdraw as (egrain & He & Hdraw).
    apply bind_Ok in Hdraw as (ergrain & Her & Hdraw).
    inversion Hdraw; subst row d0.
    exists egrain, ergrain.
    split; [eapply get_item_In; exact He|].
    split; [eapply get_item_In; exact Her|]. split; reflexivity.
Qed.

Lemma domainGen_drawn (self : LandauFilm) (e er : list Q) (prob : Ma.marray)
      (n : nat) (rand : nat -> Q) (domainList : list LandauDomain)
      (domains : list (list Q)) :
  domainGen self e er prob n rand = Ok (domainList, domains) ->
  length domainList = n /\ Forall2 (drawn_from self e er n) domainList domains.
Proof.
  unfold domainGen. apply domainGen_loop_drawn.
Qed.

Lemma Forall2_In_left {A B : Type} (R : A -> B -> Prop) (l : list A)
      (l' : list B) (x : A) :
  Forall2 R l l' -> In x l -> exists y, In y l' /\ R x y.
Proof.
  induction 1 as [|a b l l' Hab _ IH]; intros Hin; [destruct Hin|].
  destruct Hin as [->|Hin].
  - exists b. split; [now left | exact Hab].
  - destruct (IH Hin) as (y & Hy & Hxy). exists y. split; [now right | exact Hxy].
Qed.




Lemma hysteron_up_or_down (dir e : Q) (d : LandauDomain) (s : Q) :
  up_or_down s -> up_or_down (hysteron dir e d s).
Proof.
  intros Hs. unfold hysteron.
  destruct (Np.Qltb 0 dir && Qle_bool (d_ec d + d_ebias d) e);
    [left; reflexivity|].
  destruct (Np.Qltb dir 0 && Qle_bool e (- d_ec d + d_ebias d));
    [right; reflexivity | exact Hs].
Qed.

Lemma step_states_up_or_down (dir e : Q) :
  forall (domains : list LandauDomain) (state : list Q),
    Forall up_or_down state ->
    Forall up_or_down (step_states dir e domains state).
Proof.
  induction domains as [|d ds IH]; intros state Hs; [exact Hs|].
  destruct Hs as [|s ss Hs Hss]; [constructor|].
  cbn [step_states]. constructor; [now apply hysteron_up_or_down | now apply IH].
Qed.

Lemma states_after_up_or_down (g : nat -> Q * Q) (domains : list LandauDomain)
      (state : list Q) (k : nat) :
  Forall up_or_down state ->
  Forall up_or_down (states_after g domains state k).
Proof.
  intros Hs. induction k as [|k IH]; [exact Hs|].
  cbn [states_after]. now apply step_states_up_or_down.
Qed.

Lemma initial_up_or_down (domains : list LandauDomain) :
  Forall up_or_down (map (fun _ => -1) domains).
Proof.
  induction domains; constructor; [right; reflexivity | assumption].
Qed.






(** ** The polarization follows the sweep *)

Lemma up_or_down_bounds (s : Q) : up_or_down s -> -1 <= s /\ s <= 1.
Proof.
  intros [H|H]; rewrite H; split; lra.
Qed.

Lemma step_states_rising (dir e : Q) :
  0 < dir ->
  forall (domains : list LandauDomain) (state : list Q),
    Forall up_or_down state ->
    Forall2 Qle state (step_states dir e domains state).
Proof.
  intros Hdir.
  assert (Hup : Np.Qltb 0 dir = true) by now apply Qltb_lt.
  assert (Hdn : Np.Qltb dir 0 = false)
    by (apply Qltb_ge; now apply Qlt_le_weak).
  induction domains as [|d ds IH]; intros state Hs.
  - cbn [step_states]. induction Hs; constructor; [apply Qle_refl | assumption].
  - destruct Hs as [|s ss Hs Hss]; [constructor|].
    cbn [step_states]. constructor; [|now apply IH].
    unfold hysteron. rewrite Hup, Hdn. cbn [andb].
    destruct (Qle_bool (d_ec d + d_ebias d) e);
      [apply up_or_down_bounds, Hs | apply Qle_refl].
Qed.

Lemma step_states_falling (dir e : Q) :
  dir < 0 ->
  forall (domains : list LandauDomain) (state : list Q),
    Forall up_or_down state ->
    Forall2 Qle (step_states dir e domains state) state.
Proof.
  intros Hdir.
  assert (Hup : Np.Qltb 0 dir = false)
    by (apply Qltb_ge; now apply Qlt_le_weak).
  assert (Hdn : Np.Qltb dir 0 = true) by now apply Qltb_lt.
  induction domains as [|d ds IH]; intros state Hs.
  - cbn [step_states]. induction Hs; constructor; [apply Qle_refl | assumption].
  - destruct Hs as [|s ss Hs Hss]; [constructor|].
    cbn [step_states]. constructor; [|now apply IH].
    unfold hysteron. rewrite Hup, Hdn. cbn [andb].
    destruct (Qle_bool e (- d_ec d + d_ebias d));
      [apply up_or_down_bounds, Hs | apply Qle_refl].
Qed.

Lemma step_states_still (dir e : Q) :
  dir == 0 ->
  forall (domains : list LandauDomain) (state : list Q),
    step_states dir e domains state = state.
Proof.
  intros Hdir.
  assert (Hup : Np.Qltb 0 dir = false)
    by (apply Qltb_ge; rewrite Hdir; apply Qle_refl).
  assert (Hdn : Np.Qltb dir 0 = false)
    by (apply Qltb_ge; rewrite Hdir; apply Qle_refl).
  induction domains as [|d ds IH]; intros [|s ss]; try reflexivity.
  cbn [step_states]. unfold hysteron. rewrite Hup, Hdn, IH. reflexivity.
Qed.

Lemma net_charge_mono :
  forall (domains : list LandauDomain) (st st' : list Q) (acc acc' : Q),
    Forall (fun d => 0 <= d_pr d * d_area d) domains ->
    Forall2 Qle st st' ->
    acc <= acc' ->
    net_charge_from acc domains st <= net_charge_from acc' domains st'.
Proof.
  unfold net_charge_from.
  induction domains as [|d ds IH]; intros st st' acc acc' Hw Hle Hacc.
  - exact Hacc.
  - destruct Hle as [|s s' ss ss' Hs Hss]; [exact Hacc|].
    inversion Hw as [|? ? Hd Hds]; subst.
    cbn [combine fold_left fst snd]. apply IH; [exact Hds | exact Hss|].
    nra.
Qed.

Lemma Qdiv_le_compat (a b c0 : Q) : 0 < c0 -> a <= b -> a / c0 <= b / c0.
Proof.
  intros Hc Hab. apply Qle_shift_div_l; [exact Hc|].
  assert (E : a / c0 * c0 == a) by (field; lra). now rewrite E.
Qed.

Lemma nth_map_seq (f : nat -> Q) (n j : nat) :
  (j < n)%nat -> nth j (map f (seq 0 n)) 0 = f j.
Proof.
  intros Hj.
  rewrite (nth_indep _ 0 (f 0%nat)) by (now rewrite length_map, length_seq).
  rewrite (map_nth f), seq_nth by exact Hj. reflexivity.
Qed.

(** X14.  The polarization follows the sweep.  Started from [None], with a
    positive film area and domains whose [pr * area] is not negative: where
    the direction [np.gradient] gives a step is positive, the polarization
    of that step is not below the one before it; where it is negative, not
    above; and where it is zero, as at a turning point sampled once, the
    polarization does not change. *)
Theorem calcEfePreisach_follows_sweep :
  forall (self : LandauFilm) (esweep : list Q) (domains : list LandauDomain)
         (p state : list Q),
    calcEfePreisach self esweep domains PyNone = Ok (p, state) ->
    0 < area self ->
    Forall (fun d => 0 <= d_pr d * d_area d) domains ->
    forall j,
      (S j < length esweep)%nat ->
      (0 < Np.gradient_at esweep (S j) -> nth j p 0 <= nth (S j) p 0)
      /\ (Np.gradient_at esweep (S j) < 0 -> nth (S j) p 0 <= nth j p 0)
      /\ (Np.gradient_at esweep (S j) == 0 -> nth (S j) p 0 == nth j p 0).
Proof.
  intros self esweep domains p state Hrun Harea Hw j Hj.
  destruct (calcEfePreisach_spec self esweep domains PyNone
              (map (fun _ => -1) domains))
    as (sweepDir & _ & Hdir & Hspec);
    [reflexivity | now rewrite length_map | lia | lra |].
  rewrite Hspec in Hrun. unfold preisach in Hrun.
  set (g := fun j => (nth j esweep 0, nth j sweepDir 0)) in Hrun.
  set (s0 := map (fun _ => -1) domains) in *.
  assert (Hp : p = map (fun j => net_charge domains
                                    (states_after g domains s0 (S j))
                                  / area self)
                       (seq 0 (length esweep))) by congruence.
  rewrite Hp, !nth_map_seq by lia.
  assert (Hg : snd (g (S j)) = Np.gradient_at esweep (S j)).
  { unfold g. cbn [snd]. rewrite Hdir. apply nth_map_seq. lia. }
  assert (Hpm : Forall up_or_down (states_after g domains s0 (S j)))
    by (apply states_after_up_or_down, initial_up_or_down).
  change (states_after g domains s0 (S (S j)))
    with (step_states (snd (g (S j))) (fst (g (S j))) domains
            (states_after g domains s0 (S j))).
  rewrite Hg. unfold net_charge.
  split; [|split]; intros Hsign.
  - apply Qdiv_le_compat; [exact Harea|].
    apply net_charge_mono; [exact Hw | | apply Qle_refl].
    now apply step_states_rising.
  - apply Qdiv_le_compat; [exact Harea|].
    apply net_charge_mono; [exact Hw | | apply Qle_refl].
    now apply step_states_falling.
  - rewrite (step_states_still _ _ Hsign). reflexivity.
Qed.

Lemma calcEfePreisach_follows_sweep_witness :
  exists p state,
    calcEfePreisach unit_film [-2; 0; 2; 2; 0; -2] [unit_domain] PyNone
    = Ok (p, state)
    /\ nth 1 p 0 <= nth 2 p 0
    /\ nth 4 p 0 <= nth 3 p 0.
Proof.
  assert (Hrun : exists p state,
             calcEfePreisach unit_film [-2; 0; 2; 2; 0; -2] [unit_domain] PyNone
             = Ok (p, state))
    by (eexists _, _; vm_compute; reflexivity).
  destruct Hrun as (p & state & Hrun).
  assert (Harea : 0 < area unit_film) by reflexivity.
  assert (Hw : Forall (fun d => 0 <= d_pr d * d_area d) [unit_domain])
    by (repeat constructor; discriminate).
  exists p, state. split; [exact Hrun|]. split.
  - apply (calcEfePreisach_follows_sweep _ _ _ _ _ Hrun Harea Hw 1%nat);
      [simpl; lia | reflexivity].
  - apply (calcEfePreisach_follows_sweep _ _ _ _ _ Hrun Harea Hw 3%nat);
      [simpl; lia | reflexivity].
Defined.

(** ** What domainGen returns and refuses *)




Lemma filled_blank (prob : Ma.marray) :
  Forall (Forall blank_cell) prob ->
  Forall (fun x => x == 0) (concat (Ma.filled prob 0)).
Proof.
  induction 1 as [|row rows Hrow _ IH]; [constructor|].
  cbn [Ma.filled map concat]. apply Forall_app. split; [|exact IH].
  induction Hrow as [|c0 cs Hc _ IHr]; [constructor|].
  cbn [map]. constructor; [|exact IHr].
  destruct c0 as [x|]; [exact Hc | reflexivity].
Qed.

Lemma sum_zero (p : list Q) :
  Forall (fun x => x == 0) p -> Np.sum p == 0.
Proof.
  induction 1 as [|x l Hx _ IH]; [reflexivity|].
  rewrite sum_cons, Hx, IH. ring.
Qed.

Lemma no_negative_zero (p : list Q) :
  Forall (fun x => x == 0) p -> existsb (fun x => Np.Qltb x 0) p = false.
Proof.
  induction 1 as [|x l Hx _ IH]; [reflexivity|].
  cbn [existsb]. rewrite IH, orb_false_r.
  apply Qltb_ge. rewrite Hx. apply Qle_refl.
Qed.

(** X16.  A density without probability anywhere, every cell masked or
    zero, cannot be drawn from: for [n > 0] the first draw of [domainGen]
    ends in the ValueError of [np.random.choice], whatever the axes are. *)
Theorem domainGen_blank_density :
  forall (self : LandauFilm) (e er : list Q) (prob : Ma.marray) (n : nat)
         (rand : nat -> Q),
    (0 < n)%nat ->
    Forall (Forall blank_cell) prob ->
    exists msg, domainGen self e er prob n rand = Raise (ValueError msg).
Proof.
  intros self e er prob n rand Hn Hblank.
  pose proof (filled_blank prob Hblank) as Hz.
  unfold domainGen. destruct n as [|n']; [lia|].
  cbn [domainGen_loop]. unfold domainGen_draw.
  set (probf := concat (Ma.filled prob 0)) in *.
  assert (Hc : exists msg,
             NpLib.choice (index_array (length probf)) probf (rand 0%nat)
             = Raise (ValueError msg)).
  { unfold NpLib.choice, index_array.
    destruct probf as [|x0 rest] eqn:E; [eexists; reflexivity|].
    cbn [length seq map]. rewrite length_map, length_seq, Nat.eqb_refl.
    cbn [negb]. rewrite (no_negative_zero _ Hz).
    assert (Hs : Qeq_bool (Np.sum (x0 :: rest)) 1 = false).
    { destruct (Qeq_bool (Np.sum (x0 :: rest)) 1) eqn:E1; [|reflexivity].
      apply Qeq_bool_iff in E1. rewrite (sum_zero _ Hz) in E1. discriminate E1. }
    rewrite Hs. eexists. reflexivity. }
  destruct Hc as (msg & ->). exists msg. reflexivity.
Qed.

Lemma domainGen_blank_density_witness :
  exists msg,
    domainGen (mkFilm 1 6 0 1) [10; 20] [1; 2] [[None; Some 0]; [None; None]] 1
              (fun _ => 0) = Raise (ValueError msg).
Proof.
  apply (domainGen_blank_density (mkFilm 1 6 0 1) [10; 20] [1; 2]
           [[None; Some 0]; [None; None]] 1 (fun _ => 0)).
  - lia.
  - repeat constructor.
Defined.

(** ** cCalc on exact data and on too little data *)







(** ** Records without reversal points *)

Lemma nondecreasing_nth (l : list Q) :
  nondecreasing l ->
  forall i, (S i < length l)%nat -> nth i l 0 <= nth (S i) l 0.
Proof.
  induction l as [|a [|b t] IH]; intros H i Hi; simpl in Hi; try lia.
  destruct H as [Hab Ht].
  destruct i as [|i]; [exact Hab|].
  change (nth (S i) (a :: b :: t) 0) with (nth i (b :: t) 0).
  change (nth (S (S i)) (a :: b :: t) 0) with (nth (S i) (b :: t) 0).
  apply (IH Ht). simpl. lia.
Qed.

Lemma filter_none {A : Type} (f : A -> bool) (l : list A) :
  (forall x, In x l -> f x = false) -> filter f l = [].
Proof.
  induction l as [|x l IH]; intros H; [reflexivity|].
  cbn [filter]. rewrite (H x) by now left.
  apply IH. intros y Hy. apply H. now right.
Qed.

(** X19.  A voltage record that never turns has no reversal curve: if the
    samples never fall, or never rise, the scan finds no minimum, and
    [forc_calc] raises its ValueError (the record of exactly two samples
    apart, which ends in the IndexError of the scan). *)
Theorem forc_calc_monotone_record :
  forall griddata gradient2 uniform_filter
         (self : HysteresisData.HysteresisData) (linear : bool)
         (filtIter : option nat) (filtDim : nat * nat),
    nondecreasing (HysteresisData.voltage self)
    \/ nonincreasing (HysteresisData.voltage self) ->
    length (HysteresisData.voltage self) <> 2%nat ->
    HysteresisData.find_extrema (HysteresisData.voltage self) = Ok ([], [])
    /\ HysteresisData.forc_calc griddata gradient2 uniform_filter
         self linear filtIter filtDim
       = Raise two_minima_error.
Proof.
  intros griddata gradient2 uniform_filter self linear filtIter filtDim Hmono Hlen.
  assert (Hext : HysteresisData.find_extrema (HysteresisData.voltage self)
                 = Ok ([], [])).
  { rewrite (find_extrema_filter _ Hlen).
    set (v := HysteresisData.voltage self) in *.
    rewrite !filter_none; [reflexivity | |];
      intros i Hi; apply in_seq in Hi;
      unfold strict_maximum, strict_minimum; apply andb_false_iff.
    - destruct Hmono as [Hup|Hdown].
      + right. apply Qltb_ge.
        pose proof (nondecreasing_nth v Hup i) as H.
        replace (i + 1)%nat with (S i) by lia. apply H. lia.
      + left. apply Qltb_ge.
        pose proof (nonincreasing_nth v Hdown (i - 1)) as H.
        replace (S (i - 1)) with i in H by lia. apply H. lia.
    - destruct Hmono as [Hup|Hdown].
      + left. apply Qltb_ge.
        pose proof (nondecreasing_nth v Hup (i - 1)) as H.
        replace (S (i - 1)) with i in H by lia. apply H. lia.
      + right. apply Qltb_ge.
        pose proof (nonincreasing_nth v Hdown i) as H.
        replace (i + 1)%nat with (S i) by lia. apply H. lia. }
  split; [exact Hext|].
  unfold HysteresisData.forc_calc, HysteresisData.forc_spans.
  rewrite Hext. reflexivity.
Qed.

Lemma forc_calc_monotone_record_witness :
  HysteresisData.forc_calc Reference.griddata Reference.gradient2
    Reference.uniform_filter
    (HysteresisData.mkHyst 1 1 300 100 1 [0; 1; 2; 3; 4; 5; 6]
       [0; 1; 2; 2; 3; 4; 5] [] [0; 1; 2; 3; 4; 5; 6])
    true None (1%nat, 1%nat)
  = Raise two_minima_error.
Proof.
  apply (forc_calc_monotone_record Reference.griddata Reference.gradient2
           Reference.uniform_filter
           (HysteresisData.mkHyst 1 1 300 100 1 [0; 1; 2; 3; 4; 5; 6]
              [0; 1; 2; 2; 3; 4; 5] [] [0; 1; 2; 3; 4; 5; 6])
           true None (1%nat, 1%nat)).
  - left. simpl. repeat split; discriminate.
  - simpl. lia.
Defined.

(** ** The energy landscape *)

(** X20.  [getEfe] is the slope of [getUfe].  Both return one value per
    polarization value, and for a domain and two polarizations [p] and
    [p + h], the energies differ by [h] times the field at [p] and a term of
    second order in [h]; without bias the energy is even in [p] and the
    field odd. *)
Theorem getEfe_slope_of_getUfe :
  forall (d : LandauDomain) (pvals : list Q),
    length (LandauDomain_getUfe d pvals) = length pvals
    /\ length (LandauDomain_getEfe d pvals) = length pvals
    /\ (forall p h,
          nth 1 (LandauDomain_getUfe d [p; p + h]) 0
          - nth 0 (LandauDomain_getUfe d [p; p + h]) 0
          == h * nth 0 (LandauDomain_getEfe d [p]) 0
             + h * h * energy_remainder d p h)
    /\ (d_ebias d == 0 ->
        forall p,
          nth 1 (LandauDomain_getUfe d [p; - p]) 0
          == nth 0 (LandauDomain_getUfe d [p; - p]) 0
          /\ nth 1 (LandauDomain_getEfe d [p; - p]) 0
             == - nth 0 (LandauDomain_getEfe d [p; - p]) 0).
Proof.
  intros d pvals. unfold LandauDomain_getUfe, LandauDomain_getEfe.
  split; [apply length_map|]. split; [apply length_map|]. split.
  - intros p h. cbn [map nth]. unfold energy_remainder. ring.
  - intros Hb p. cbn [map nth]. rewrite Hb. split; ring.
Qed.

Lemma getEfe_slope_of_getUfe_witness :
  d_ebias (mkDomain 1 1 1 1 0 (-2) 1 0 1) == 0
  /\ nth 1 (LandauDomain_getUfe (mkDomain 1 1 1 1 0 (-2) 1 0 1) [3; - (3)]) 0
     == nth 0 (LandauDomain_getUfe (mkDomain 1 1 1 1 0 (-2) 1 0 1) [3; - (3)]) 0.
Proof.
  split; [reflexivity|].
  exact (proj1 (proj2 (proj2 (proj2 (getEfe_slope_of_getUfe
                                       (mkDomain 1 1 1 1 0 (-2) 1 0 1) [])))
                  (Qeq_refl 0) 3)).
Defined.

Lemma add_same_length (u v : list Q) :
  length u = length v ->
  Arr.add u v = Ok (map (fun p => fst p + snd p) (combine u v)).
Proof.
  intros H. unfold Arr.add, Arr.broadcast. now rewrite H, Nat.eqb_refl.
Qed.

Lemma nth_add (u v : list Q) (k : nat) :
  length u = length v ->
  nth k (map (fun p => fst p + snd p) (combine u v)) 0 == nth k u 0 + nth k v 0.
Proof.
  revert v k. induction u as [|x u IH]; intros [|y v] k H; try discriminate H.
  - destruct k; simpl; ring.
  - destruct k as [|k]; [reflexivity|].
    cbn [combine map nth]. apply IH. simpl in H. lia.
Qed.

Lemma getUfe_loop_sum (pvals : list Q) :
  forall (domains : list LandauDomain) (u : list Q),
    length u = length pvals ->
    exists u',
      getUfe_loop pvals domains u = Ok u'
      /\ length u' = length pvals
      /\ forall k,
          nth k u' 0
          == nth k u 0
             + Np.sum (map (fun d => nth k (LandauDomain_getUfe d pvals) 0)
                           domains).
Proof.
  induction domains as [|d ds IH]; intros u Hu.
  - exists u. split; [reflexivity|]. split; [exact Hu|].
    intros k. simpl. ring.
  - assert (Hlen : length u = length (LandauDomain_getUfe d pvals))
      by (unfold LandauDomain_getUfe; now rewrite length_map).
    cbn [getUfe_loop]. rewrite (add_same_length _ _ Hlen). cbn [bind].
    destruct (IH (map (fun p => fst p + snd p)
                      (combine u (LandauDomain_getUfe d pvals))))
      as (u' & Hrun & Hl & Hnth).
    { rewrite length_map, length_combine, <- Hlen, Nat.min_id. exact Hu. }
    exists u'. split; [exact Hrun|]. split; [exact Hl|].
    intros k. rewrite Hnth, (nth_add _ _ k Hlen), map_cons, sum_cons. ring.
Qed.

Lemma nth_zeros (pvals : list Q) (k : nat) :
  nth k (map (fun _ : Q => 0) pvals) 0 = 0.
Proof.
  revert k. induction pvals as [|p t IH]; intros [|k]; try reflexivity.
  apply IH.
Qed.

(** X21.  The energy of the film is the sum of the energies of its domains,
    value by value: [LandauFilm.getUfe] always returns, with one energy per
    polarization value, and a film without domains has zero energy
    throughout. *)
Theorem getUfe_sums_domains :
  forall (self : LandauFilm) (pvals : list Q) (domains : list LandauDomain),
    getUfe self pvals [] = Ok (map (fun _ => 0) pvals)
    /\ exists u,
        getUfe self pvals domains = Ok u
        /\ length u = length pvals
        /\ forall k,
            nth k u 0
            == Np.sum (map (fun d => nth k (LandauDomain_getUfe d pvals) 0)
                           domains).
Proof.
  intros self pvals domains. split; [reflexivity|]. unfold getUfe.
  destruct (getUfe_loop_sum pvals domains (map (fun _ => 0) pvals))
    as (u & Hrun & Hlen & Hnth); [apply length_map|].
  exists u. split; [exact Hrun|]. split; [exact Hlen|].
  intros k. rewrite Hnth, nth_zeros. ring.
Qed.

Lemma nth_getUfe_blank (d : LandauDomain) (pvals : list Q) (k : nat) :
  d_a d = 0 -> d_b d = 0 -> d_g d = 0 ->
  nth k (LandauDomain_getUfe d pvals) 0 == - (d_ebias d * nth k pvals 0).
Proof.
  intros Ha Hb Hg. unfold LandauDomain_getUfe. rewrite Ha, Hb, Hg.
  revert k. induction pvals as [|p t IH]; intros [|k]; cbn [map nth];
    try ring.
  apply IH.
Qed.

(** X22.  The domains that [domainGen] returns have no Landau coefficients
    yet, and until they are given some the energy of the film is a straight
    line in the polarization: at every polarization value [p] it is [-p]
    times the sum of the bias fields of the domains. *)
Theorem getUfe_of_generated_domains :
  forall (self : LandauFilm) (e er : list Q) (prob : Ma.marray) (n : nat)
         (rand : nat -> Q) (domainList : list LandauDomain)
         (domains : list (list Q)) (pvals : list Q),
    domainGen self e er prob n rand = Ok (domainList, domains) ->
    exists u,
      getUfe self pvals domainList = Ok u
      /\ length u = length pvals
      /\ forall k,
          nth k u 0 == - (nth k pvals 0 * Np.sum (map d_ebias domainList)).
Proof.
  intros self e er prob n rand domainList domains pvals Hgen.
  destruct (domainGen_drawn _ _ _ _ _ _ _ _ Hgen) as [_ Hall].
  assert (Hblank : Forall (fun d => d_a d = 0 /\ d_b d = 0 /\ d_g d = 0)
                          domainList).
  { apply Forall_forall. intros d Hin.
    destruct (Forall2_In_left _ _ _ _ Hall Hin)
      as (row & _ & (eg & erg & _ & _ & _ & ->)).
    repeat split; reflexivity. }
  unfold getUfe.
  destruct (getUfe_loop_sum pvals domainList (map (fun _ => 0) pvals))
    as (u & Hrun & Hlen & Hnth); [apply length_map|].
  exists u. split; [exact Hrun|]. split; [exact Hlen|].
  intros k. rewrite Hnth, nth_zeros. clear Hnth Hrun Hall Hgen.
  induction Hblank as [|d ds (Ha & Hb & Hg) _ IH].
  - simpl. ring.
  - rewrite !map_cons, !sum_cons, (nth_getUfe_blank d pvals k Ha Hb Hg).
    assert (E : 0 + Np.sum (map (fun d0 => nth k (LandauDomain_getUfe d0 pvals) 0) ds)
                == - (nth k pvals 0 * Np.sum (map d_ebias ds))) by exact IH.
    lra.
Qed.

Lemma getUfe_of_generated_domains_witness :
  exists domainList domains u,
    domainGen (mkFilm 1 6 0 1) [10; 20; 30] [1; 2] one_cell_grid 3
              (fun i => Np.of_nat i / 4) = Ok (domainList, domains)
    /\ getUfe (mkFilm 1 6 0 1) [1; 2] domainList = Ok u
    /\ length u = 2%nat
    /\ nth 1 u 0 == - (2 * Np.sum (map d_ebias domainList)).
Proof.
  assert (Hrun : exists domainList domains,
             domainGen (mkFilm 1 6 0 1) [10; 20; 30] [1; 2] one_cell_grid 3
                       (fun i => Np.of_nat i / 4) = Ok (domainList, domains))
    by (eexists _, _; vm_compute; reflexivity).
  destruct Hrun as (domainList & domains & Hrun).
  destruct (getUfe_of_generated_domains _ _ _ _ _ _ _ _ [1; 2] Hrun)
    as (u & Hu & Hlen & Hnth).
  exists domainList, domains, u.
  split; [exact Hrun|]. split; [exact Hu|]. split; [exact Hlen|].
  exact (Hnth 1%nat).
Defined.

(** ** LandauSimple.aCalc *)

(** X23.  [aCalc] returns the [a] with [4 * c * t * a = -1], which is
    negative for a positive capacitance and thickness, where [c] and [t] are
    the arguments given or, for each one left out, the attribute of the film.
    When either of them is zero, as the capacitance of a film made with the
    constructor's defaults, the call does not return a value. *)
Theorem aCalc_negative_reciprocal :
  forall (self : LandauFilm) (cArg tArg : option Q),
    (~ argument_or cArg (c self) == 0 ->
     ~ argument_or tArg (thickness self) == 0 ->
     exists a,
       LandauSimple_aCalc self cArg tArg = Ok a
       /\ 4 * argument_or cArg (c self) * argument_or tArg (thickness self) * a
          == -1
       /\ (0 < argument_or cArg (c self) * argument_or tArg (thickness self) ->
           a < 0))
    /\ (argument_or cArg (c self) == 0
        \/ argument_or tArg (thickness self) == 0 ->
        forall a, LandauSimple_aCalc self cArg tArg <> Ok a).
Proof.
  intros self cArg tArg. unfold LandauSimple_aCalc.
  change (match cArg with Some c0 => c0 | None => c self end)
    with (argument_or cArg (c self)).
  change (match tArg with Some t0 => t0 | None => thickness self end)
    with (argument_or tArg (thickness self)).
  set (cv := argument_or cArg (c self)).
  set (tv := argument_or tArg (thickness self)).
  split.
  - intros Hc Ht.
    assert (Hct : ~ 4 * cv * tv == 0).
    { intros E. destruct (Qmult_integral _ _ E) as [E1|E1]; [|contradiction].
      destruct (Qmult_integral _ _ E1) as [E2|E2]; [discriminate E2 | contradiction]. }
    destruct (Qeq_bool (4 * cv * tv) 0) eqn:E;
      [apply Qeq_bool_iff in E; contradiction|].
    eexists. split; [reflexivity|]. split; [field; split; assumption|].
    intros Hpos.
    assert (E1 : -1 / (4 * cv * tv) == - (1 / (4 * (cv * tv))))
      by (field; split; assumption).
    rewrite E1.
    assert (H4 : 0 < 1 / (4 * (cv * tv)))
      by (apply Qlt_shift_div_l; lra).
    lra.
  - intros Hz a.
    assert (E : Qeq_bool (4 * cv * tv) 0 = true).
    { apply Qeq_eq_bool. destruct Hz as [Hz|Hz]; rewrite Hz; ring. }
    rewrite E. discriminate.
Qed.

Lemma aCalc_negative_reciprocal_witness :
  (exists a,
      LandauSimple_aCalc (mkFilm 2 1 3 0) None None = Ok a
      /\ 4 * 3 * 2 * a == -1
      /\ a < 0)
  /\ forall a, LandauSimple_aCalc (mkFilm 2 1 0 0) None None <> Ok a.
Proof.
  split.
  - destruct (proj1 (aCalc_negative_reciprocal (mkFilm 2 1 3 0) None None))
      as (a & Ha & Hrec & Hneg); [discriminate | discriminate |].
    exists a. split; [exact Ha|]. split; [exact Hrec|].
    apply Hneg. reflexivity.
  - apply (proj2 (aCalc_negative_reciprocal (mkFilm 2 1 0 0) None None)).
    left. reflexivity.
Defined.

(** ** The capacitance curve of ncv_plot *)

Lemma length_diff (l : list Q) : length (Np.diff l) = (length l - 1)%nat.
Proof.
  induction l as [|x [|y t] IH]; try reflexivity.
  change (Np.diff (x :: y :: t)) with ((y - x) :: Np.diff (y :: t)).
  cbn [length] in *. rewrite IH. lia.
Qed.

Lemma diff_line (C q0 : Q) (V P : list Q) :
  Forall2 (fun v p => p == C * v + q0) V P ->
  Forall2 (fun dp dv => dp == C * dv) (Np.diff P) (Np.diff V).
Proof.
  induction 1 as [|v p V P Hvp Hrest IH]; [constructor|].
  destruct Hrest as [|v' p' V P Hvp' Hrest]; [constructor|].
  change (Np.diff (p :: p' :: P)) with ((p' - p) :: Np.diff (p' :: P)).
  change (Np.diff (v :: v' :: V)) with ((v' - v) :: Np.diff (v' :: V)).
  constructor; [|exact IH]. rewrite Hvp, Hvp'. ring.
Qed.

Lemma divide_line (C : Q) (dP dV : list Q) :
  Forall2 (fun dp dv => dp == C * dv) dP dV ->
  Forall (fun dv => ~ dv == 0) dV ->
  exists ncv,
    Arr.divide dP dV = Ok ncv
    /\ length ncv = length dV
    /\ Forall (fun y => y == C) ncv.
Proof.
  intros Hline Hnz. unfold Arr.divide, Arr.broadcast.
  rewrite (Forall2_length Hline), Nat.eqb_refl. cbn [bind].
  assert (H : existsb (fun p => Qeq_bool (snd p) 0) (combine dP dV) = false
              /\ length (map (fun p => fst p / snd p) (combine dP dV))
                 = length dV
              /\ Forall (fun y => y == C)
                        (map (fun p => fst p / snd p) (combine dP dV))).
  { induction Hline as [|dp dv dP dV Hd _ IH]; [now repeat split|].
    inversion Hnz as [|? ? Hdv Hrest]; subst.
    destruct (IH Hrest) as (H1 & H2 & H3).
    cbn [combine existsb map length snd fst]. rewrite H1, H2.
    destruct (Qeq_bool dv 0) eqn:E; [apply Qeq_bool_iff in E; contradiction|].
    repeat split. constructor; [|exact H3].
    rewrite Hd. field. exact Hdv. }
  destruct H as (H1 & H2 & H3). rewrite H1.
  eexists. split; [reflexivity|]. split; assumption.
Qed.

Lemma length_removelast_tl (l : list Q) :
  length (removelast l) = (length l - 1)%nat
  /\ length (tl l) = (length l - 1)%nat.
Proof.
  split; [|destruct l; simpl; lia].
  induction l as [|x [|y t] IH]; try reflexivity.
  change (removelast (x :: y :: t)) with (x :: removelast (y :: t)).
  cbn [length] in *. rewrite IH. lia.
Qed.

Lemma nth_removelast (l : list Q) :
  forall i, (S i < length l)%nat -> nth i (removelast l) 0 = nth i l 0.
Proof.
  induction l as [|x [|y t] IH]; intros i Hi; simpl in Hi; try lia.
  change (removelast (x :: y :: t)) with (x :: removelast (y :: t)).
  destruct i as [|i]; [reflexivity|].
  cbn [nth]. apply IH. simpl. lia.
Qed.

Lemma midpoints (V : list Q) :
  exists s,
    Arr.add (tl V) (removelast V) = Ok s
    /\ length s = (length V - 1)%nat
    /\ forall i, (S i < length V)%nat ->
                 nth i s 0 == nth (S i) V 0 + nth i V 0.
Proof.
  destruct (length_removelast_tl V) as [Hr Ht].
  assert (Hlen : length (tl V) = length (removelast V)) by congruence.
  rewrite (add_same_length _ _ Hlen). eexists. split; [reflexivity|].
  split; [now rewrite length_map, length_combine, <- Hlen, Nat.min_id|].
  intros i Hi. rewrite (nth_add _ _ i Hlen), (nth_removelast V i Hi).
  destruct V as [|x t]; [simpl in Hi; lia|]. reflexivity.
Qed.

Lemma nth_scale (k : Q) (l : list Q) (i : nat) :
  nth i (map (fun x => k * x) l) 0 == k * nth i l 0.
Proof.
  revert i. induction l as [|x t IH]; intros [|i]; cbn [map nth]; try ring.
  apply IH.
Qed.

Lemma zero_divisor (a b : list Q) :
  length a = length b ->
  Exists (fun dv => dv == 0) b ->
  existsb (fun p => Qeq_bool (snd p) 0) (combine a b) = true.
Proof.
  intros Hlen Hex. revert a Hlen.
  induction Hex as [dv b Hdv|dv b _ IH]; intros [|x a] Hlen;
    try discriminate Hlen; cbn [combine existsb snd].
  - now rewrite (Qeq_eq_bool _ _ Hdv).
  - rewrite IH by (simpl in Hlen; lia). apply orb_true_r.
Qed.

(** X24.  The curve of [ncv_plot] for a linear capacitor is flat.  If the
    polarization of the sample is [C * v + q0] at every voltage [v] and no
    two consecutive voltage samples are equal, the curve has one point per
    step of the record: its ordinates are all [1E6 * C], and its abscissas
    are the midpoints of the steps.  If polarization and voltage have one
    length and two consecutive voltage samples are equal, the quotient
    [np.diff(polarization) / np.diff(voltage)] divides by zero and the curve
    is not finite. *)
Theorem ncv_plot_linear_capacitor :
  (forall (self : HysteresisData.HysteresisData) (C q0 : Q),
      Forall2 (fun v p => p == C * v + q0)
              (HysteresisData.voltage self) (HysteresisData.polarization self) ->
      Forall (fun dv => ~ dv == 0) (Np.diff (HysteresisData.voltage self)) ->
      exists xs ys,
        HysteresisData.ncv_plot self false = Ok (xs, ys)
        /\ length xs = (length (HysteresisData.voltage self) - 1)%nat
        /\ length ys = (length (HysteresisData.voltage self) - 1)%nat
        /\ Forall (fun y => y == 1000000 * C) ys
        /\ forall i,
            (S i < length (HysteresisData.voltage self))%nat ->
            nth i xs 0
            == (nth i (HysteresisData.voltage self) 0
                + nth (S i) (HysteresisData.voltage self) 0) / 2)
  /\ (forall (self : HysteresisData.HysteresisData) (plotE : bool),
         length (HysteresisData.polarization self)
         = length (HysteresisData.voltage self) ->
         Exists (fun dv => dv == 0) (Np.diff (HysteresisData.voltage self)) ->
         HysteresisData.ncv_plot self plotE = NonFinite).
Proof.
  split.
  - intros self C q0 Hline Hnz. unfold HysteresisData.ncv_plot.
    destruct (divide_line C _ _ (diff_line C q0 _ _ Hline) Hnz)
      as (ncv & -> & Hlen & Hflat).
    destruct (midpoints (HysteresisData.voltage self)) as (s & -> & Hs & Hmid).
    cbn [bind]. eexists _, _. split; [reflexivity|].
    split; [now rewrite length_map|].
    split; [now rewrite length_map, Hlen, length_diff|].
    split.
    + apply Forall_map. eapply Forall_impl; [|exact Hflat].
      intros y Hy. cbv beta in Hy. now rewrite Hy.
    + intros i Hi. rewrite nth_scale, (Hmid i Hi). field.
  - intros self plotE Hlen Hex. unfold HysteresisData.ncv_plot, Arr.divide.
    unfold Arr.broadcast at 1. rewrite !length_diff, Hlen, Nat.eqb_refl.
    cbn [bind]. rewrite zero_divisor; [reflexivity | | exact Hex].
    now rewrite !length_diff, Hlen.
Qed.

Lemma ncv_plot_linear_capacitor_witness :
  (exists xs ys,
      HysteresisData.ncv_plot
        (HysteresisData.mkHyst 1 1 300 100 1 [0; 1; 2] [0; 1; 3] [0; 0; 0]
           [1; 3; 7]) false = Ok (xs, ys)
      /\ Forall (fun y => y == 1000000 * 2) ys
      /\ nth 1 xs 0 == (1 + 3) / 2)
  /\ HysteresisData.ncv_plot
       (HysteresisData.mkHyst 1 1 300 100 1 [0; 1; 2] [0; 2; 2] [0; 0; 0]
          [1; 3; 7]) true = NonFinite.
Proof.
  split.
  - destruct (proj1 ncv_plot_linear_capacitor
                (HysteresisData.mkHyst 1 1 300 100 1 [0; 1; 2] [0; 1; 3]
                   [0; 0; 0] [1; 3; 7]) 2 1)
      as (xs & ys & Hrun & _ & _ & Hflat & Hmid).
    + repeat constructor.
    + repeat constructor; discriminate.
    + exists xs, ys. split; [exact Hrun|]. split; [exact Hflat|].
      apply (Hmid 1%nat). simpl. lia.
  - apply (proj2 ncv_plot_linear_capacitor
             (HysteresisData.mkHyst 1 1 300 100 1 [0; 1; 2] [0; 2; 2]
                [0; 0; 0] [1; 3; 7]) true).
    + reflexivity.
    + right. left. reflexivity.
Defined.

(** ** The points of the reversal curves *)

Lemma length_slice {A : Type} (l : list A) (lo hi : nat) :
  (hi <= length l)%nat -> length (slice l lo hi) = (hi - lo)%nat.
Proof.
  intros H. unfold slice. rewrite length_firstn, length_skipn. lia.
Qed.

(** X25.  The span loop pairs the [k]-th minimum with the [(k+1)]-th
    maximum, whatever their order in the record.  When it returns there is
    one curve per minimum; with a polarization array as long as the voltage
    array, the three arrays of a curve (reversal voltage, voltage,
    polarization) have one length, the distance from the minimum to that
    maximum, which is zero when the maximum does not come after the
    minimum. *)
Theorem forc_spans_curves :
  forall (voltage polarization : list Q) (minimaIndex maximaIndex : list nat)
         (spans : list HysteresisData.span),
    HysteresisData.find_extrema voltage = Ok (minimaIndex, maximaIndex) ->
    HysteresisData.forc_spans voltage polarization = Ok spans ->
    length polarization = length voltage ->
    length spans = length minimaIndex
    /\ forall k v sp,
        nth_error minimaIndex k = Some v ->
        nth_error spans k = Some sp ->
        exists m,
          nth_error maximaIndex (k + 1) = Some m
          /\ length (HysteresisData.s_vr sp) = (m - v)%nat
          /\ length (HysteresisData.s_v sp) = (m - v)%nat
          /\ length (HysteresisData.s_p sp) = (m - v)%nat.
Proof.
  intros voltage polarization minimaIndex maximaIndex spans Hext Hrun Hlen.
  assert (Hne : length voltage <> 2%nat).
  { intros E. destruct voltage as [|a [|b [|c0 rest]]]; try discriminate E.
    discriminate Hext. }
  rewrite (find_extrema_filter _ Hne) in Hext.
  assert (Hmax : forall m, In m maximaIndex -> (m <= length voltage)%nat).
  { intros m Hm. assert (E : maximaIndex
                             = filter (strict_maximum voltage)
                                      (seq 1 (length voltage - 3)))
      by congruence.
    rewrite E in Hm. apply filter_In in Hm as [Hm _].
    apply in_seq in Hm. lia. }
  unfold HysteresisData.forc_spans in Hrun.
  rewrite (find_extrema_filter _ Hne) in Hrun. cbn [bind] in Hrun.
  assert (Emin : minimaIndex
                 = filter (strict_minimum voltage) (seq 1 (length voltage - 3)))
    by congruence.
  assert (Emax : maximaIndex
                 = filter (strict_maximum voltage) (seq 1 (length voltage - 3)))
    by congruence.
  rewrite <- Emin, <- Emax in Hrun.
  destruct (length minimaIndex <? 2)%nat; [discriminate|].
  destruct (span_loop_spans _ _ _ _ _ _ Hrun) as [Hl Hspans].
  split; [exact Hl|].
  intros k v sp Hk Hsp.
  destruct (Hspans k v sp Hk Hsp) as (before & m & _ & Hm & Hvr & Hv & Hp).
  exists m. cbn [Nat.add] in Hm. split; [exact Hm|].
  pose proof (Hmax m (nth_error_In _ _ Hm)) as Hle.
  rewrite Hvr, Hv, Hp, repeat_length, !length_slice by lia.
  repeat split.
Qed.

Lemma forc_spans_curves_witness :
  exists spans,
    HysteresisData.forc_spans [2; 3; 2; 1; 2; 3; 1; 0; 1; 3; 2; 2; 2]
      [10; 11; 12; 13; 14; 15; 16; 17; 19; 19; 20; 21; 22] = Ok spans
    /\ length spans = 2%nat.
Proof.
  assert (Hrun : exists spans,
             HysteresisData.forc_spans [2; 3; 2; 1; 2; 3; 1; 0; 1; 3; 2; 2; 2]
               [10; 11; 12; 13; 14; 15; 16; 17; 19; 19; 20; 21; 22] = Ok spans)
    by (eexists; reflexivity).
  destruct Hrun as (spans & Hrun).
  exists spans. split; [exact Hrun|].
  apply (proj1 (forc_spans_curves [2; 3; 2; 1; 2; 3; 1; 0; 1; 3; 2; 2; 2]
                  [10; 11; 12; 13; 14; 15; 16; 17; 19; 19; 20; 21; 22]
                  [3; 7]%nat [1; 5; 9]%nat spans eq_refl Hrun eq_refl)).
Defined.

(** ** Saturation *)






(** ** When the compensation routines return, and what stops them *)

Lemma integrate_total (current : list Q) (dt area : Q) :
  current <> [] ->
  ~ area == 0 ->
  exists t0 tp,
    HysteresisData.integrate current dt area = Ok (t0 :: tp).
Proof.
  intros Hne Harea. unfold HysteresisData.integrate.
  destruct current as [|x [|y rest]]; [congruence | now eexists _, _|].
  destruct (Qeq_bool area 0) eqn:E; [apply Qeq_bool_iff in E; contradiction|].
  now eexists _, _.
Qed.

(** X27.  [cCompensation] returns for every sample of the heap with two
    voltage samples or more, a [dt] and an area that are not zero, and at
    least one current sample. *)
Theorem cCompensation_returns :
  forall (self : LandauFilm) (data : ref) (d : HysteresisData.HysteresisData)
         (w : world HysteresisData.HysteresisData),
    nth_error (heap w) data = Some d ->
    (2 <= length (HysteresisData.voltage d))%nat ->
    ~ HysteresisData.dt d == 0 ->
    HysteresisData.current d <> [] ->
    ~ HysteresisData.area d == 0 ->
    exists r prv w', cCompensation self data w = (Ok (r, prv), w').
Proof.
  intros self data d w Hd Hlen Hdt Hcur Harea.
  destruct (mean_abs_rate _ _ Hlen Hdt) as (q & dvdt & Hq & Hdvdt).
  assert (Hdata : (data < length (heap w))%nat)
    by (apply nth_error_Some; congruence).
  destruct (integrate_total
              (map (compensate (c self * dvdt)) (HysteresisData.current d))
              (HysteresisData.dt d) (HysteresisData.area d))
    as (t0 & tp & Hint); [|exact Harea|].
  { destruct (HysteresisData.current d); [congruence | discriminate]. }
  unfold cCompensation.
  rewrite (bindM_eq _ _ _ _ _ (deepcopy_eq _ _ _ Hd)).
  erewrite bindM_eq
    by (apply deref_eq; cbn [heap]; rewrite nth_error_app1; eassumption).
  erewrite bindM_eq by (unfold lift; rewrite Hq; reflexivity).
  erewrite bindM_eq by (unfold lift; rewrite Hdvdt; reflexivity).
  erewrite bindM_eq by (apply modify_eq; cbn [heap]; apply nth_error_last).
  cbn [heap warnings]. rewrite update_last.
  erewrite bindM_eq by (apply deref_eq; cbn [heap]; apply nth_error_last).
  cbn [HysteresisData.set_current HysteresisData.current HysteresisData.dt
       HysteresisData.area].
  erewrite bindM_eq by (unfold lift; rewrite Hint; reflexivity).
  erewrite bindM_eq by reflexivity.
  erewrite bindM_eq by reflexivity.
  erewrite bindM_eq by (apply modify_eq; cbn [heap]; apply nth_error_last).
  eexists _, _, _. reflexivity.
Qed.

Lemma cCompensation_returns_witness :
  exists r prv w',
    cCompensation (mkFilm 1 1 1 1) 0%nat (mkWorld [square_current_sample] [])
    = (Ok (r, prv), w').
Proof.
  apply (cCompensation_returns (mkFilm 1 1 1 1) 0%nat square_current_sample
           (mkWorld [square_current_sample] [])).
  - reflexivity.
  - simpl. lia.
  - discriminate.
  - discriminate.
  - discriminate.
Defined.

Lemma call_leakage_func_arity (x : Q) (parms : list Q) :
  length parms <> 7%nat ->
  HysteresisData.call_leakage_func x parms
  = Raise (TypeError "leakage_func() takes 8 positional arguments").
Proof.
  intros H.
  destruct parms as [|a [|b [|c0 [|d0 [|e [|f [|g [|h t]]]]]]]];
    try reflexivity.
  simpl in H. lia.
Qed.

Lemma subtract_leakage_short_voltage (voltage : list Q) (a b c0 d0 e f g : Q) :
  forall (current : list Q) (j : nat),
    (j <= length voltage)%nat ->
    (length voltage < j + length current)%nat ->
    HysteresisData.subtract_leakage voltage [a; b; c0; d0; e; f; g] j current
    = Raise index_error.
Proof.
  induction current as [|i rest IH]; intros j Hj Hlen; [simpl in Hlen; lia|].
  cbn [HysteresisData.subtract_leakage].
  destruct (get_item_cases voltage j) as [(v & Hv & ->)|[_ ->]]; [|reflexivity].
  cbn [bind HysteresisData.call_leakage_func].
  assert (Hlt : (j < length voltage)%nat) by (apply nth_error_Some; congruence).
  rewrite IH by (simpl in Hlen; lia). reflexivity.
Qed.

(** X28.  What stops [leakage_compensation] on a model with parameters.
    A parameter list of any length but seven does not fit [leakage_func]:
    with a current and a voltage sample to start from, the first call ends
    in a TypeError.  With seven parameters and more current samples than
    voltage samples, the loop reads the voltage out of range and ends in an
    IndexError.  In both cases the copy has been made and the sample given
    is as it was. *)
Theorem leakage_compensation_stopped :
  (forall (self : ref) (ld : HysteresisData.LeakageData)
          (orig : HysteresisData.HysteresisData)
          (w : world HysteresisData.HysteresisData),
      nth_error (heap w) self = Some orig ->
      HysteresisData.lcmParms ld <> [] ->
      length (HysteresisData.lcmParms ld) <> 7%nat ->
      HysteresisData.current orig <> [] ->
      HysteresisData.voltage orig <> [] ->
      exists msg,
        HysteresisData.leakage_compensation self ld w
        = (Raise (TypeError msg), mkWorld (heap w ++ [orig]) (warnings w)))
  /\ (forall (self : ref) (ld : HysteresisData.LeakageData)
             (orig : HysteresisData.HysteresisData)
             (w : world HysteresisData.HysteresisData),
         nth_error (heap w) self = Some orig ->
         length (HysteresisData.lcmParms ld) = 7%nat ->
         (length (HysteresisData.voltage orig)
          < length (HysteresisData.current orig))%nat ->
         HysteresisData.leakage_compensation self ld w
         = (Raise index_error, mkWorld (heap w ++ [orig]) (warnings w))).
Proof.
  split.
  - intros self ld orig w Hself Hne Harity Hcur Hvol.
    assert (Hself' : (self < length (heap w))%nat)
      by (apply nth_error_Some; congruence).
    unfold HysteresisData.leakage_compensation.
    destruct (HysteresisData.lcmParms ld) as [|p0 parms] eqn:E; [congruence|].
    rewrite (bindM_eq _ _ _ _ _ (deepcopy_eq _ _ _ Hself)).
    erewrite bindM_eq
      by (apply deref_eq; cbn [heap]; rewrite nth_error_app1; eassumption).
    erewrite bindM_eq by (apply deref_eq; cbn [heap]; apply nth_error_last).
    destruct (HysteresisData.current orig) as [|i rest]; [congruence|].
    destruct (HysteresisData.voltage orig) as [|v vs]; [congruence|].
    cbn [HysteresisData.subtract_leakage get_item nth_error bind].
    rewrite (call_leakage_func_arity v (p0 :: parms) Harity).
    eexists. reflexivity.
  - intros self ld orig w Hself Harity Hshort.
    assert (Hself' : (self < length (heap w))%nat)
      by (apply nth_error_Some; congruence).
    unfold HysteresisData.leakage_compensation.
    destruct (HysteresisData.lcmParms ld)
      as [|a [|b [|c0 [|d0 [|e [|f [|g [|h t]]]]]]]] eqn:E;
      try discriminate Harity.
    rewrite (bindM_eq _ _ _ _ _ (deepcopy_eq _ _ _ Hself)).
    erewrite bindM_eq
      by (apply deref_eq; cbn [heap]; rewrite nth_error_app1; eassumption).
    erewrite bindM_eq by (apply deref_eq; cbn [heap]; apply nth_error_last).
    rewrite subtract_leakage_short_voltage by lia.
    reflexivity.
Qed.

Lemma leakage_compensation_stopped_witness :
  (exists msg,
      HysteresisData.leakage_compensation 0%nat
        (HysteresisData.mkLeak [0; 1] [0; 2] [1; 2; 3])
        (mkWorld [three_point_sample] [])
      = (Raise (TypeError msg),
         mkWorld [three_point_sample; three_point_sample] []))
  /\ HysteresisData.leakage_compensation 0%nat linear_leakage
       (mkWorld [HysteresisData.mkHyst 1 1 300 100 1 [0; 1; 2] [0; 1] [3; 5; 10]
                   [0; 0; 0]] [])
     = (Raise index_error,
        mkWorld [HysteresisData.mkHyst 1 1 300 100 1 [0; 1; 2] [0; 1] [3; 5; 10]
                   [0; 0; 0];
                 HysteresisData.mkHyst 1 1 300 100 1 [0; 1; 2] [0; 1] [3; 5; 10]
                   [0; 0; 0]] []).
Proof.
  split.
  - apply (proj1 leakage_compensation_stopped 0%nat
             (HysteresisData.mkLeak [0; 1] [0; 2] [1; 2; 3]) three_point_sample
             (mkWorld [three_point_sample] []));
      [reflexivity | discriminate | simpl; lia | discriminate | discriminate].
  - apply (proj2 leakage_compensation_stopped 0%nat linear_leakage
             (HysteresisData.mkHyst 1 1 300 100 1 [0; 1; 2] [0; 1] [3; 5; 10]
                [0; 0; 0])
             (mkWorld [HysteresisData.mkHyst 1 1 300 100 1 [0; 1; 2] [0; 1]
                         [3; 5; 10] [0; 0; 0]] []));
      [reflexivity | reflexivity | simpl; lia].
Defined.
